(** * Product matching engine (match.py): model and verified properties

    The engine reconciles an order sheet with a catalogue sheet.  This file
    embeds [PerfectMatcher] and [PerfectSolutionMatcher.generate_match_report]
    of [match.py] and states the properties of the specification against it.

    Conventions.
    - A Python [str] is a list of Unicode code points ([ustr]).
    - A Python [float] score is an exact rational ([Q]); rounding is not
      modelled.
    - A Python [set] of strings is a [gset ustr]; the order in which a [for]
      loop visits it is not fixed by the language (string hashing is salted
      per process), so it is a component of the run-time environment.
    - Library functions that are not part of the repository
      ([unicodedata.normalize], [str.lower], [re.IGNORECASE] case folding,
      [rapidfuzz.fuzz.partial_ratio], [int] on a [str]) are fields of the
      same environment, [Runtime]; theorems assume of them only what they
      state.
    - The tables of [config.py] are the fields of [config]. *)

From Stdlib Require Import QArith Qminmax Lia Lqa.
From stdpp Require Import gmap strings list fin_maps sorting.

Local Open Scope Z_scope.

(** ** Strings *)

Definition ustr := list N.

(** Code points of an ASCII literal. *)
Fixpoint u (s : string) : ustr :=
  match s with
  | EmptyString => []
  | String a s' => Ascii.N_of_ascii a :: u s'
  end.

(** [str.isspace] / the regex class [\s] on [str] patterns. *)
Definition is_space (c : N) : bool :=
  ((9 <=? c) && (c <=? 13) || (28 <=? c) && (c <=? 32) || (c =? 133)
   || (c =? 160) || (c =? 5760) || (8192 <=? c) && (c <=? 8202)
   || (c =? 8232) || (c =? 8233) || (c =? 8239) || (c =? 8287)
   || (c =? 12288))%N.

(** The regex class [[0-9a-z가-힣]]. *)
Definition is_keep (c : N) : bool :=
  ((48 <=? c) && (c <=? 57) || (97 <=? c) && (c <=? 122)
   || (44032 <=? c) && (c <=? 55203))%N.

Definition is_nonkeep (c : N) : bool := negb (is_keep c).

(** The regex class [[,/|]]. *)
Definition is_sep (c : N) : bool := ((c =? 44) || (c =? 47) || (c =? 124))%N.

Definition is_paren (c : N) : bool := ((c =? 40) || (c =? 41))%N.

Definition is_ascii (c : N) : bool := (c <? 128)%N.

(** Truth value of a Python sequence. *)
Definition nonempty {A} (s : list A) : bool :=
  match s with [] => false | _ => true end.

(** [re.sub(p+, rep, s)] for a character class [p]: every maximal run of
    characters of the class is replaced by [rep].  [in_run] records that the
    previous character was in the class. *)
Fixpoint sub_runs_from (p : N → bool) (rep : ustr) (in_run : bool) (s : ustr)
  : ustr :=
  match s with
  | [] => []
  | c :: s' =>
      if p c
      then (if in_run then [] else rep) ++ sub_runs_from p rep true s'
      else c :: sub_runs_from p rep false s'
  end.

Definition sub_runs (p : N → bool) (rep : ustr) (s : ustr) : ustr :=
  sub_runs_from p rep false s.

Fixpoint lstrip (s : ustr) : ustr :=
  match s with
  | [] => []
  | c :: s' => if is_space c then lstrip s' else s
  end.

Fixpoint rstrip (s : ustr) : ustr :=
  match s with
  | [] => []
  | c :: s' =>
      let r := rstrip s' in
      if is_space c && negb (nonempty r) then [] else c :: r
  end.

(** [s.strip()] *)
Definition strip (s : ustr) : ustr := rstrip (lstrip s).

(** [s.split()]: the maximal runs of non-whitespace characters. *)
Fixpoint split_from (cur : ustr) (s : ustr) : list ustr :=
  match s with
  | [] => if nonempty cur then [cur] else []
  | c :: s' =>
      if is_space c
      then (if nonempty cur then [cur] else []) ++ split_from [] s'
      else split_from (cur ++ [c]) s'
  end.

Definition split_ws (s : ustr) : list ustr := split_from [] s.

(** [" ".join(l)] *)
Fixpoint join_sp (l : list ustr) : ustr :=
  match l with
  | [] => []
  | [w] => w
  | w :: l' => w ++ 32%N :: join_sp l'
  end.

(** [s.replace("~", " ~ ")] *)
Definition replace_tilde (s : ustr) : ustr :=
  flat_map (λ c, if (c =? 126)%N then [32; 126; 32]%N else [c]) s.

(** ** Cells of a data frame *)

(** A text cell: a [str], a missing value (NaN / None), or any other object,
    which the code only ever turns into its [str()] text. *)
Inductive cell :=
  | CStr (s : ustr)
  | CNaN
  | CObj (repr : ustr).

(** [if not isinstance(s, str): s = "" if pd.isna(s) else str(s)] *)
Definition to_str (c : cell) : ustr :=
  match c with
  | CStr s => s
  | CNaN => []
  | CObj repr => repr
  end.

(** A quantity cell as [df.at[idx, "수량"]] can hold it. *)
Inductive qcell :=
  | QInt (z : Z)
  | QFloat (q : Q)
  | QNaN
  | QText (s : ustr).

Definition digit_val (c : N) : option Z :=
  if ((48 <=? c) && (c <=? 57))%N then Some (Z.of_N c - 48) else None.

(** Digits of an integer literal, with single underscores between digits.
    [acc] is the value read so far, [after_digit] tells whether the previous
    character was a digit. *)
Fixpoint parse_digits (acc : Z) (after_digit : bool) (s : ustr) : option Z :=
  match s with
  | [] => if after_digit then Some acc else None
  | c :: s' =>
      match digit_val c with
      | Some d => parse_digits (10 * acc + d) true s'
      | None =>
          if (c =? 95)%N && after_digit then parse_digits acc false s'
          else None
      end
  end.

(** [int(s)] on ASCII text: surrounding whitespace, an optional sign,
    decimal digits.  Python's [int] also reads the decimal digits of other
    scripts; the conversion of a [str] is a component of the run-time
    environment below, and this function is the one of the environment the
    sample sheets are evaluated in. *)
Definition int_of_text (s : ustr) : option Z :=
  match strip s with
  | 43%N :: ds => parse_digits 0 false ds
  | 45%N :: ds => Z.opp <$> parse_digits 0 false ds
  | ds => parse_digits 0 false ds
  end.

(** ** Run-time environment *)

Class Runtime := {
  (** [unicodedata.normalize("NFKC", s)] *)
  nfkc : ustr → ustr;
  (** [s.lower()] *)
  lower : ustr → ustr;
  (** equality of two characters under [re.IGNORECASE] *)
  ci_eq : N → N → bool;
  (** the order in which a [for] loop visits a set of strings *)
  set_iter : gset ustr → list ustr;
  (** [rapidfuzz.fuzz.partial_ratio] *)
  partial_ratio : ustr → ustr → Q;
  (** [int(s)] for a [str]; [None] stands for the [ValueError] it raises *)
  int_str : ustr → option Z;
}.

(** [int(x)] for the value of a quantity cell: an integer is kept, a float
    is truncated towards zero, NaN raises, a [str] is converted by the
    built-in.  [None] stands for the exception ([ValueError]). *)
Definition py_int {R : Runtime} (x : qcell) : option Z :=
  match x with
  | QInt z => Some z
  | QFloat q => Some (Z.quot (Qnum q) (Zpos (Qden q)))
  | QNaN => None
  | QText s => int_str s
  end.

(** ** Configuration ([config.py]) *)

Record config := {
  NAME_SYNONYM_GROUPS : list (ustr * list ustr);
  SIZE_SYNONYMS : list (ustr * list ustr);
  COLOR_ALIASES : gmap ustr ustr;
  name_score_cutoff : Q;
  weight_brand : Q;
  weight_name : Q;
  weight_color : Q;
  weight_size : Q;
}.

(** ** Rows *)

(** The columns 브랜드, 상품명, 색상, 사이즈 and 수량 of one row. *)
Record raw_row := {
  col_brand : cell;
  col_name : cell;
  col_color : cell;
  col_size : cell;
  col_qty : qcell;
}.

(** A data frame with a [RangeIndex]: the row label is the position.  The
    quantity column is optional ([has_qty]); without it [col_qty] is not
    read. *)
Record dataframe := {
  has_qty : bool;
  rows : list raw_row;
}.

(** The columns [*_brand_n], [*_name_n], [*_color_n], [*_sizes_s] added by
    [_precompute_normalized_columns]. *)
Record precomputed := {
  brand_n : ustr;
  name_n : ustr;
  color_n : ustr;
  sizes_s : gset ustr;
}.

(** A row as [calculate_match_confidence_perfect] receives it: the raw
    columns, and the precomputed ones when the caller added them. *)
Record series := {
  cells : raw_row;
  pre : option precomputed;
}.

Record details := {
  brand_match : bool; brand_score : Q;
  name_match : bool; name_score : Q;
  color_match : bool; color_score : Q;
  size_match : bool; size_score : Q;
}.

(** [match_details] is a dict: [None] is the empty dict. *)
Record MatchResult := {
  receipt_idx : nat;
  matched_idx : nat;
  confidence_score : Q;
  match_details : option details;
}.

(** [x or y] for an optional string [x]: [None] and [""] are falsy. *)
Definition or_else (x : option ustr) (y : ustr) : ustr :=
  match x with
  | Some (c :: s) => c :: s
  | _ => y
  end.

(** [x >= y] on scores *)
Definition Qgeb (x y : Q) : bool := Qle_bool y x.

(** ** Normalizer, canonicalizer, tokenizer, scorer *)

Section Engine.
Context {R : Runtime}.
Variable cfg : config.

Definition normalize_text_ultra (s : cell) : ustr :=
  let s := to_str s in
  let s := strip s in
  let s := nfkc s in
  let s := lower s in
  let s := sub_runs is_space [32%N] s in
  let s := sub_runs is_nonkeep [32%N] s in
  strip (sub_runs is_space [32%N] s).

Definition normalize_color_ultra (s : cell) : ustr :=
  let s := normalize_text_ultra s in
  let tokens := split_ws s in
  let mapped := (λ t, default t (COLOR_ALIASES cfg !! t)) <$> tokens in
  join_sp mapped.

(** The loop of [_normalize_size_token] over [SIZE_SYNONYMS.items()]. *)
Fixpoint size_canon (syn : list (ustr * list ustr)) (t : ustr) : ustr :=
  match syn with
  | [] => t
  | (canon, variants) :: syn' =>
      if bool_decide (t = canon) || bool_decide (t ∈ variants) then canon
      else size_canon syn' t
  end.

Definition _normalize_size_token (tok : ustr) : ustr :=
  size_canon (SIZE_SYNONYMS cfg) (lower tok).

(** [v] is a prefix of [s] up to case. *)
Fixpoint prefix_ci (v s : ustr) : bool :=
  match v, s with
  | [], _ => true
  | a :: v', b :: s' => ci_eq a b && prefix_ci v' s'
  | _ :: _, [] => false
  end.

(** [re.sub(re.escape(v), canon, s, flags=re.IGNORECASE)] for a non-empty
    [v]: the leftmost non-overlapping occurrences are replaced.  [skip]
    counts the characters of the current occurrence still to be passed. *)
Fixpoint sub_literal_ci (v canon : ustr) (skip : nat) (s : ustr) : ustr :=
  match s with
  | [] => []
  | c :: s' =>
      match skip with
      | S k => sub_literal_ci v canon k s'
      | O =>
          if prefix_ci v s
          then canon ++ sub_literal_ci v canon (length v - 1) s'
          else c :: sub_literal_ci v canon 0 s'
      end
  end.

(** The empty pattern matches before every character and at the end.  The
    replacement [canon] is taken literally (the labels hold no backslash). *)
Definition re_sub_ci (v canon s : ustr) : ustr :=
  match v with
  | [] => canon ++ flat_map (λ c, c :: canon) s
  | _ => sub_literal_ci v canon 0 s
  end.

Definition apply_bidir_synonyms_text (normalized_text : ustr) : ustr :=
  if nonempty normalized_text
  then foldl (λ s '(canon, variants),
                foldl (λ s v, re_sub_ci v canon s) s variants)
             normalized_text (NAME_SYNONYM_GROUPS cfg)
  else normalized_text.

(** Longest prefix of characters in the class [p], and the rest. *)
Fixpoint span (p : N → bool) (s : ustr) : ustr * ustr :=
  match s with
  | [] => ([], [])
  | c :: s' =>
      if p c then let '(a, b) := span p s' in (c :: a, b) else ([], s)
  end.

(** [re.match(r'^([^()]+)\(([^()]+)\)$', tok)]: the two groups.  [$] also
    matches before a final newline. *)
Definition match_parens (tok : ustr) : option (ustr * ustr) :=
  let '(outside, rest) := span (λ c, negb (is_paren c)) tok in
  match rest with
  | 40%N :: rest' =>
      let '(inside, tl) := span (λ c, negb (is_paren c)) rest' in
      if nonempty outside && nonempty inside
         && (bool_decide (tl = [41%N]) || bool_decide (tl = [41%N; 10%N]))
      then Some (outside, inside)
      else None
  | _ => None
  end.

Definition add_if_nonempty (v : ustr) (values : gset ustr) : gset ustr :=
  if nonempty v then {[ v ]} ∪ values else values.

Definition _extract_parentheses_values (size_token : ustr) : gset ustr :=
  match match_parens size_token with
  | Some (outside, inside) =>
      add_if_nonempty (strip inside) (add_if_nonempty (strip outside) ∅)
  | None => add_if_nonempty size_token ∅
  end.

(** Body of the loop [for value in parentheses_values]. *)
Definition add_value (tokens : gset ustr) (value : ustr) : gset ustr :=
  let cleaned_value := filter (λ c, is_keep c = true) value in
  if nonempty cleaned_value
  then {[ _normalize_size_token cleaned_value ]} ∪ tokens
  else tokens.

(** Body of the loop [for tok in s.split()]. *)
Definition add_token (tokens : gset ustr) (tok : ustr) : gset ustr :=
  let tok := strip tok in
  if nonempty tok
  then foldl add_value tokens (set_iter (_extract_parentheses_values tok))
  else tokens.

Definition extract_size_parts_ultra (s : cell) : gset ustr :=
  let s := to_str s in
  let s := nfkc s in
  let s := replace_tilde s in
  let s := sub_runs is_sep [32%N] s in
  let s := lower (strip (sub_runs is_space [32%N] s)) in
  foldl add_token ∅ (split_ws s).

Definition fast_fuzzy_match (a b : ustr) : Q :=
  if negb (nonempty a) || negb (nonempty b) then 0%Q
  else partial_ratio a b.

(** The attributes [rb, rn, rc, rs] (and [mb, mn, mc, ms]) that
    [calculate_match_confidence_perfect] reads off a row: the precomputed
    column when it is there and truthy, the normalized raw column
    otherwise; for the size set, the precomputed column unless it is
    [None]. *)
Definition row_brand (row : series) : ustr :=
  or_else (brand_n <$> pre row) (normalize_text_ultra (col_brand (cells row))).

Definition row_name (row : series) : ustr :=
  or_else (name_n <$> pre row) (normalize_text_ultra (col_name (cells row))).

Definition row_color (row : series) : ustr :=
  or_else (color_n <$> pre row)
    (normalize_color_ultra (col_color (cells row))).

Definition row_sizes (row : series) : gset ustr :=
  match pre row with
  | Some p => sizes_s p
  | None => extract_size_parts_ultra (col_size (cells row))
  end.

(** The scorer.  The [try]/[except] around its body returns the rejection
    triple [(False, 0.0, {})]; on rows of this shape no step of the body
    raises. *)
Definition calculate_match_confidence_perfect
    (receipt_row matched_row : series) : bool * Q * option details :=
  let rb := row_brand receipt_row in
  let rn := row_name receipt_row in
  let rc := row_color receipt_row in
  let rs := row_sizes receipt_row in
  let mb := row_brand matched_row in
  let mn := row_name matched_row in
  let mc := row_color matched_row in
  let ms := row_sizes matched_row in
  if bool_decide (rs = ∅) || bool_decide (ms = ∅)
     || bool_decide (rs ∩ ms = ∅)
  then (false, 0%Q, None)
  else if negb (bool_decide (rb = mb)) then (false, 0%Q, None)
  else if negb (bool_decide (rc = mc)) then (false, 0%Q, None)
  else
    let name_score := fast_fuzzy_match rn mn in
    if negb (Qgeb name_score (name_score_cutoff cfg))
    then (false, 0%Q, None)
    else
      let brand_score := 100%Q in
      let color_score := 100%Q in
      let size_score := 100%Q in
      let total_conf :=
        (brand_score * weight_brand cfg + name_score * weight_name cfg
         + color_score * weight_color cfg + size_score * weight_size cfg)%Q in
      (true, total_conf,
       Some {| brand_match := true; brand_score := brand_score;
               name_match := true; name_score := name_score;
               color_match := true; color_score := color_score;
               size_match := true; size_score := size_score |}).

End Engine.

(** ** Blocking index, greedy assignment, the two matchers *)

(** [enumerate(l)] / [df.iterrows()] *)
Definition enumerate {A} (l : list A) : list (nat * A) := imap pair l.

(** [d[k].append(v)] on a [defaultdict(list)] *)
Definition dd_append `{Countable K} (k : K) (v : nat)
    (d : gmap K (list nat)) : gmap K (list nat) :=
  <[ k := default [] (d !! k) ++ [v] ]> d.

Record candidate_index := {
  idx_bcs : gmap (ustr * ustr * ustr) (list nat);
  idx_bc : gmap (ustr * ustr) (list nat);
  idx_b : gmap ustr (list nat);
}.

(** The state the matching loops mutate. *)
Record run_state := {
  matched_results : list MatchResult;
  receipt_qty : gmap nat Z;
  matched_qty : gmap nat Z;
}.

(** [d[k]] on a quantity dict.  The key is always present where the code
    subscripts the dict, so that the default is never used: see
    [allocate_checked] and [allocate_checked_eq]. *)
Definition getitem (d : gmap nat Z) (k : nat) : Z := default 0 (d !! k).

(** A scored candidate: [(m_idx, conf, details)]. *)
Definition scored_candidate : Type := nat * Q * option details.

Definition conf_of (x : scored_candidate) : Q := x.1.2.

(** Stable sort by descending key: [l.sort(key=..., reverse=True)]. *)
Fixpoint insert_desc {A} (key : A → Q) (x : A) (l : list A) : list A :=
  match l with
  | [] => [x]
  | y :: l' =>
      if Qle_bool (key y) (key x) then x :: y :: l'
      else y :: insert_desc key x l'
  end.

Definition sort_desc {A} (key : A → Q) (l : list A) : list A :=
  foldr (insert_desc key) [] l.

(** The allocation loop, the same text in both matchers:
    [for m_idx, conf, details in results: ...]. *)
Fixpoint allocate (r_idx : nat) (results : list scored_candidate)
    (remain : Z) (st : run_state) : run_state :=
  match results with
  | [] => st
  | (m_idx, conf, det) :: rest =>
      if remain <=? 0 then st
      else if getitem (matched_qty st) m_idx <=? 0
      then allocate r_idx rest remain st
      else
        let match_qty := Z.min remain (getitem (matched_qty st) m_idx) in
        allocate r_idx rest (remain - match_qty)
          {| matched_results :=
               matched_results st
               ++ replicate (Z.to_nat match_qty)
                    {| receipt_idx := r_idx; matched_idx := m_idx;
                       confidence_score := conf; match_details := det |};
             receipt_qty :=
               <[ r_idx := getitem (receipt_qty st) r_idx - match_qty ]>
                 (receipt_qty st);
             matched_qty :=
               <[ m_idx := getitem (matched_qty st) m_idx - match_qty ]>
                 (matched_qty st) |}
  end.

(** The allocation loop with the subscripts [matched_qty[m_idx]] and
    [receipt_qty[r_idx]] as Python has them: [None] stands for [KeyError]. *)
Fixpoint allocate_checked (r_idx : nat) (results : list scored_candidate)
    (remain : Z) (st : run_state) : option run_state :=
  match results with
  | [] => Some st
  | (m_idx, conf, det) :: rest =>
      if remain <=? 0 then Some st
      else
        m_left ← matched_qty st !! m_idx;
        if m_left <=? 0 then allocate_checked r_idx rest remain st
        else
          let match_qty := Z.min remain m_left in
          r_left ← receipt_qty st !! r_idx;
          allocate_checked r_idx rest (remain - match_qty)
            {| matched_results :=
                 matched_results st
                 ++ replicate (Z.to_nat match_qty)
                      {| receipt_idx := r_idx; matched_idx := m_idx;
                         confidence_score := conf; match_details := det |};
               receipt_qty := <[ r_idx := r_left - match_qty ]> (receipt_qty st);
               matched_qty := <[ m_idx := m_left - match_qty ]> (matched_qty st) |}
  end.

(** The quantity dict of a data frame:
    [{idx: int(df.at[idx, "수량"]) if "수량" in df.columns else 1 ...}].
    [None] when some [int(...)] raises. *)
Definition quantities {R : Runtime} (df : dataframe)
  : option (gmap nat Z) :=
  if has_qty df
  then qs ← mapM (λ r, py_int (col_qty r)) (rows df);
       Some (list_to_map (enumerate qs))
  else Some (list_to_map (enumerate ((λ _, 1) <$> rows df))).

Definition bare (r : raw_row) : series := {| cells := r; pre := None |}.

Definition with_pre (r : raw_row * precomputed) : series :=
  {| cells := r.1; pre := Some r.2 |}.

(** [column.fillna("")] *)
Definition fillna (c : cell) : cell :=
  match c with
  | CNaN => CStr []
  | _ => c
  end.

Section Matchers.
Context {R : Runtime}.
Variable cfg : config.

Definition precompute_row (r : raw_row) : precomputed :=
  {| brand_n := normalize_text_ultra (fillna (col_brand r));
     name_n := apply_bidir_synonyms_text cfg
                 (normalize_text_ultra (fillna (col_name r)));
     color_n := normalize_color_ultra cfg (fillna (col_color r));
     sizes_s := extract_size_parts_ultra cfg (fillna (col_size r)) |}.

Definition _precompute_normalized_columns (df : dataframe)
  : list (raw_row * precomputed) :=
  (λ r, (r, precompute_row r)) <$> rows df.

(** Body of the loop of [_build_candidate_index]. *)
Definition index_row (ix : candidate_index)
    (entry : nat * (raw_row * precomputed)) : candidate_index :=
  let '(midx, row) := entry in
  let b := brand_n row.2 in
  let c := color_n row.2 in
  let sizes := sizes_s row.2 in
  {| idx_b := dd_append b midx (idx_b ix);
     idx_bc := dd_append (b, c) midx (idx_bc ix);
     idx_bcs := if bool_decide (sizes = ∅) then idx_bcs ix
                else foldl (λ d s, dd_append (b, c, s) midx d) (idx_bcs ix)
                       (set_iter sizes) |}.

Definition _build_candidate_index (matched_df : list (raw_row * precomputed))
  : candidate_index :=
  foldl index_row {| idx_bcs := ∅; idx_bc := ∅; idx_b := ∅ |}
    (enumerate matched_df).

(** Lines 298-313 of [fuzzy_match_orders_blocked]: the tier is chosen
    first, the stock filter is applied to the chosen tier. *)
Definition retrieve_candidates (ix : candidate_index) (mq : gmap nat Z)
    (b c : ustr) (sizes : gset ustr) : list nat :=
  let candidate_ids :=
    if bool_decide (sizes = ∅) then []
    else flat_map (λ s, default [] (idx_bcs ix !! (b, c, s)))
           (set_iter sizes) in
  let candidate_ids :=
    if nonempty candidate_ids then candidate_ids
    else default [] (idx_bc ix !! (b, c)) in
  let candidate_ids :=
    if nonempty candidate_ids then candidate_ids
    else default [] (idx_b ix !! b) in
  filter (λ mid, 0 < default 0 (mq !! mid)) candidate_ids.

(** [rapidfuzz.process.extract(query, choices, scorer=fuzz.partial_ratio,
    score_cutoff=cutoff, limit=None)]: the triples (choice, score, index)
    with a score of at least the cutoff, best score first, equal scores
    in the order of the choices. *)
Definition extract (query : ustr) (choices : list ustr) (cutoff : Q)
  : list (ustr * Q * nat) :=
  sort_desc (λ t, t.1.2)
    (filter (λ t, Qgeb t.1.2 cutoff = true)
       (imap (λ i choice, (choice, partial_ratio query choice, i)) choices)).

(** [matched_df.at[mid, "m_name_n"]]; [mid] is a label of [matched_df]. *)
Definition name_at (matched_df : list (raw_row * precomputed)) (mid : nat)
  : ustr :=
  default [] ((λ row, name_n row.2) <$> matched_df !! mid).

(** [scored = process.extract(r_name, cand_names, ...)] *)
Definition blocked_scored (matched_df : list (raw_row * precomputed))
    (candidate_ids : list nat) (r_row : raw_row * precomputed)
  : list (ustr * Q * nat) :=
  let r_name := name_n r_row.2 in
  let cand_names := name_at matched_df <$> candidate_ids in
  extract r_name cand_names (name_score_cutoff cfg).

(** The loop [for _, _, local_idx in scored] that fills [results]. *)
Definition blocked_results (matched_df : list (raw_row * precomputed))
    (candidate_ids : list nat) (r_row : raw_row * precomputed)
    (scored : list (ustr * Q * nat)) : list scored_candidate :=
  omap (λ t,
          m_idx ← candidate_ids !! t.2;
          m_row ← matched_df !! m_idx;
          let '(ok, conf, det) :=
            calculate_match_confidence_perfect cfg
              (with_pre r_row) (with_pre m_row) in
          if ok then Some (m_idx, conf, det) else None)
       scored.

(** One iteration of [for r_idx, r_row in receipt_df.iterrows()] of the
    fast matcher. *)
Definition blocked_step (matched_df : list (raw_row * precomputed))
    (ix : candidate_index) (st : run_state)
    (entry : nat * (raw_row * precomputed)) : run_state :=
  let '(r_idx, r_row) := entry in
  let remain := default 1 (receipt_qty st !! r_idx) in
  if remain <=? 0 then st
  else
    let b := brand_n r_row.2 in
    let c := color_n r_row.2 in
    let sizes := sizes_s r_row.2 in
    let candidate_ids :=
      retrieve_candidates ix (matched_qty st) b c sizes in
    if negb (nonempty candidate_ids) then st
    else
      let scored := blocked_scored matched_df candidate_ids r_row in
      if negb (nonempty scored) then st
      else
        let results :=
          blocked_results matched_df candidate_ids r_row scored in
        if nonempty results
        then allocate r_idx (sort_desc conf_of results) remain st
        else st.

Definition fuzzy_match_orders_blocked (receipt_df matched_df : dataframe)
  : option (list MatchResult) :=
  let receipt := _precompute_normalized_columns receipt_df in
  let matched := _precompute_normalized_columns matched_df in
  let ix := _build_candidate_index matched in
  rq ← quantities receipt_df;
  mq ← quantities matched_df;
  Some (matched_results
          (foldl (blocked_step matched ix)
             {| matched_results := []; receipt_qty := rq;
                matched_qty := mq |}
             (enumerate receipt))).

(** The loop [for m_idx, m_row in matched_df.iterrows()] that fills
    [candidates]. *)
Definition sequential_candidates (matched_df : list raw_row)
    (mq : gmap nat Z) (r_row : raw_row) : list scored_candidate :=
  omap (λ e : nat * raw_row,
          let '(ok, conf, det) :=
            calculate_match_confidence_perfect cfg (bare r_row) (bare e.2) in
          if ok && bool_decide (0 < default 0 (mq !! e.1))
          then Some (e.1, conf, det) else None)
       (enumerate matched_df).

(** One iteration of the outer loop of the slow matcher. *)
Definition sequential_step (matched_df : list raw_row) (st : run_state)
    (entry : nat * raw_row) : run_state :=
  let '(r_idx, r_row) := entry in
  let remain := default 1 (receipt_qty st !! r_idx) in
  if remain <=? 0 then st
  else
    let candidates :=
      sequential_candidates matched_df (matched_qty st) r_row in
    allocate r_idx (sort_desc conf_of candidates) remain st.

Definition fuzzy_match_orders_perfect_sequential
    (receipt_df matched_df : dataframe) : option (list MatchResult) :=
  rq ← quantities receipt_df;
  mq ← quantities matched_df;
  Some (matched_results
          (foldl (sequential_step (rows matched_df))
             {| matched_results := []; receipt_qty := rq;
                matched_qty := mq |}
             (enumerate (rows receipt_df)))).

End Matchers.

(** ** Report aggregator *)

Record report := {
  total_matches : nat;
  average_confidence : Q;
  match_distribution : gmap string nat;
}.

Definition count_if (p : Q → bool) (l : list MatchResult) : nat :=
  length (filter (λ mr, p (confidence_score mr) = true) l).

Definition sum_confidence (l : list MatchResult) : Q :=
  foldl (λ acc mr, (acc + confidence_score mr)%Q) 0%Q l.

Definition generate_match_report (match_results : list MatchResult) : report :=
  if negb (nonempty match_results)
  then {| total_matches := 0; average_confidence := 0%Q;
          match_distribution := ∅ |}
  else
    let total := length match_results in
    let avg := (sum_confidence match_results / inject_Z (Z.of_nat total))%Q in
    let high := count_if (λ x, Qgeb x 90%Q) match_results in
    let mid := count_if (λ x, Qgeb x 70%Q && negb (Qgeb x 90%Q)) match_results in
    let low := count_if (λ x, negb (Qgeb x 70%Q)) match_results in
    {| total_matches := total; average_confidence := avg;
       match_distribution :=
         <[ "high_confidence"%string := high ]>
           (<[ "medium_confidence"%string := mid ]>
              (<[ "low_confidence"%string := low ]> ∅)) |}.

(** ** A reference environment and the default configuration

    The theorems below hold for every environment (under the hypotheses
    they name).  To run the model on concrete sheets an environment is
    needed; this one agrees with Python on text made of ASCII characters
    and Hangul syllables. *)

Definition lower_char (c : N) : N :=
  if ((65 <=? c) && (c <=? 90))%N then (c + 32)%N else c.

(** Length of a longest common subsequence. *)
Fixpoint lcs (s t : ustr) : nat :=
  match s with
  | [] => O
  | a :: s' =>
      (fix go (t : ustr) : nat :=
         match t with
         | [] => O
         | b :: t' =>
             if (a =? b)%N then S (lcs s' t')
             else Nat.max (lcs s' t) (go t')
         end) t
  end.

(** [rapidfuzz.fuzz.ratio]: the normalized indel similarity, in percent. *)
Definition ratio (s t : ustr) : Q :=
  match (length s + length t)%nat with
  | O => 100%Q
  | S n => (200 * Z.of_nat (lcs s t)) # Pos.of_succ_nat n
  end.

Definition Qmax_list (l : list Q) : Q := foldr Qmax 0%Q l.

(** The windows of [longer] that [partial_ratio] aligns a string of length
    [n] with: the proper prefixes shorter than [n], the substrings of
    length [n], the suffixes shorter than [n]. *)
Definition windows (n : nat) (longer : ustr) : list ustr :=
  ((λ i, take i longer) <$> seq 1 (n - 1))
  ++ ((λ i, take n (drop i longer)) <$> seq 0 (length longer - n + 1))
  ++ ((λ i, drop i longer) <$> seq (length longer - n + 1) (n - 1)).

(** The best [ratio] of [shorter] against a window of [longer]. *)
Definition partial_ratio_impl (shorter longer : ustr) : Q :=
  Qmax_list (ratio shorter <$> windows (length shorter) longer).

(** [rapidfuzz.fuzz.partial_ratio], after the library's documentation: the
    best [ratio] of the shorter string against a window of the longer
    one, the better of the two directions for strings of equal length;
    100 for two empty strings, 0 when only one is empty. *)
Definition partial_ratio_ref (s1 s2 : ustr) : Q :=
  match s1, s2 with
  | [], [] => 100%Q
  | [], _ | _, [] => 0%Q
  | _, _ =>
      if (length s1 <? length s2)%nat then partial_ratio_impl s1 s2
      else if (length s2 <? length s1)%nat then partial_ratio_impl s2 s1
      else Qmax (partial_ratio_impl s1 s2) (partial_ratio_impl s2 s1)
  end.

Definition ascii_runtime (iter : gset ustr → list ustr) : Runtime :=
  {| nfkc := id;
     lower := fmap lower_char;
     ci_eq := λ a b, (lower_char a =? lower_char b)%N;
     set_iter := iter;
     partial_ratio := partial_ratio_ref;
     int_str := int_of_text |}.

(** The tables the configuration page resets to, and the defaults of
    [PerfectMatcher.__init__]. *)
Definition default_config : config :=
  {| NAME_SYNONYM_GROUPS :=
       [ ([47592; 53804; 47592]%N, [u "mtm"]);
         ([51088; 53011]%N,
          [u "jk"; [51116; 53431]%N; [51144; 53011]%N]) ];
     SIZE_SYNONYMS := [ (u "xxl", [u "2xl"]) ];
     COLOR_ALIASES :=
       <[ u "gray" := [54924; 49353]%N ]>
         (<[ u "black" := [44160; 51221]%N ]> ∅);
     name_score_cutoff := 70;
     weight_brand := 0.25;
     weight_name := 0.35;
     weight_color := 0.25;
     weight_size := 0.15 |}.

(** ** Definitions used to state the properties *)

(** The weighted sum as the specification writes it. *)
Definition weighted_sum (cfg : config) (name_ratio : Q) : Q :=
  (weight_brand cfg * 100 + weight_name cfg * name_ratio
   + weight_color cfg * 100 + weight_size cfg * 100)%Q.

(** The row as a matcher hands it to the scorer: the raw row in the slow
    matcher, the row with the columns of [_precompute_normalized_columns]
    in the fast one. *)
Definition scorer_row {R : Runtime} (cfg : config) (fast : bool)
    (r : raw_row) : series :=
  if fast then with_pre (r, precompute_row cfg r) else bare r.

(** The name of a line as the scorer compares it: the normalized name; in
    the fast matcher the normalized name with its synonyms canonicalized,
    unless that text is empty. *)
Definition compared_name {R : Runtime} (cfg : config) (fast : bool)
    (r : raw_row) : ustr :=
  let n := normalize_text_ultra (col_name r) in
  if fast
  then match apply_bidir_synonyms_text cfg n with
       | [] => n
       | c => c
       end
  else n.

(** The scorer as the specification words it: four gates, the name gate
    on the partial fuzzy ratio of the two normalized names, and the
    weighted sum when all four pass. *)
Definition scorer_spec {R : Runtime} (cfg : config) (r m : raw_row)
  : bool * Q :=
  let name_ratio :=
    partial_ratio (normalize_text_ultra (col_name r))
      (normalize_text_ultra (col_name m)) in
  if bool_decide (extract_size_parts_ultra cfg (col_size r)
                  ∩ extract_size_parts_ultra cfg (col_size m) = ∅)
     || negb (bool_decide (normalize_text_ultra (col_brand r)
                           = normalize_text_ultra (col_brand m)))
     || negb (bool_decide (normalize_color_ultra cfg (col_color r)
                           = normalize_color_ultra cfg (col_color m)))
     || negb (Qgeb name_ratio (name_score_cutoff cfg))
  then (false, 0%Q)
  else (true, weighted_sum cfg name_ratio).

(** ** Sample sheets *)

Definition reference_runtime : Runtime := ascii_runtime elements.

Definition reversed_runtime : Runtime := ascii_runtime (λ X, reverse (elements X)).

Definition text_row (b n c s : string) (q : qcell) : raw_row :=
  {| col_brand := CStr (u b); col_name := CStr (u n); col_color := CStr (u c);
     col_size := CStr (u s); col_qty := q |}.

Definition sheet (l : list raw_row) : dataframe :=
  {| has_qty := true; rows := l |}.

(** An order line whose quantity cell is empty, one whose quantity cell is
    text, and the same line with quantity 1. *)
Definition order_missing_qty : dataframe :=
  sheet [text_row "A" "shirt" "black" "M" QNaN].

Definition order_text_qty : dataframe :=
  sheet [text_row "A" "shirt" "black" "M" (QText (u "two"))].

Definition order_qty_one : dataframe :=
  sheet [text_row "A" "shirt" "black" "M" (QInt 1)].

Definition catalog_one_line : dataframe :=
  sheet [text_row "A" "shirt" "black" "M" (QInt 1)].

(** ** What the theorems assume of the environment *)

(** A character of normalized text: a digit, a lower-case Latin letter, a
    Hangul syllable, or the space. *)
Definition is_normal_char (c : N) : bool := is_keep c || (c =? 32)%N.

(** [f] leaves text of such characters unchanged.  Both NFKC normalization
    and [str.lower] do. *)
Definition fixes_normal_text (f : ustr → ustr) : Prop :=
  ∀ s, forallb is_normal_char s = true → f s = s.

(** [f] leaves ASCII text unchanged (NFKC normalization does). *)
Definition fixes_ascii (f : ustr → ustr) : Prop :=
  ∀ s, forallb is_ascii s = true → f s = s.

(** [f] lower-cases ASCII text the way [str.lower] does. *)
Definition lowers_ascii (f : ustr → ustr) : Prop :=
  ∀ s, forallb is_ascii s = true → f s = lower_char <$> s.

(** The iteration order enumerates each set exactly. *)
Definition enumerates_sets (iter : gset ustr → list ustr) : Prop :=
  ∀ X, iter X ≡ₚ elements X.

(** Scores of [partial_ratio] are percentages. *)
Definition scores_at_most_100 (pr : ustr → ustr → Q) : Prop :=
  ∀ a b, (pr a b <= 100)%Q.

(** No two adjacent spaces, and only characters of normalized text;
    [after_space] tells that a space precedes. *)
Fixpoint spaced (after_space : bool) (s : ustr) : bool :=
  match s with
  | [] => true
  | c :: s' =>
      if is_keep c then spaced false s'
      else (c =? 32)%N && negb after_space && spaced true s'
  end.

(** ** Blocking tiers, stated on the catalogue *)

(** Labels of the lines of [l] that satisfy [P], in the order of [l]. *)
Definition positions {A} (P : A → bool) (l : list A) : list nat :=
  (filter (λ e, P e.2 = true) (enumerate l)).*1.

Definition tier_bcs (M : list (raw_row * precomputed)) (b c s : ustr)
  : list nat :=
  positions (λ row, bool_decide (brand_n row.2 = b ∧ color_n row.2 = c
                                 ∧ s ∈ sizes_s row.2)) M.

Definition tier_bc (M : list (raw_row * precomputed)) (b c : ustr)
  : list nat :=
  positions (λ row, bool_decide (brand_n row.2 = b ∧ color_n row.2 = c)) M.

Definition tier_b (M : list (raw_row * precomputed)) (b : ustr) : list nat :=
  positions (λ row, bool_decide (brand_n row.2 = b)) M.

(** The lines with remaining quantity. *)
Definition in_stock (mq : gmap nat Z) (ids : list nat) : list nat :=
  filter (λ mid, 0 < default 0 (mq !! mid)) ids.

(** Retrieval as the specification words it: the first tier whose result
    is non-empty after the stock filter. *)
Definition candidates_spec {R : Runtime} (M : list (raw_row * precomputed))
    (mq : gmap nat Z) (b c : ustr) (sizes : gset ustr) : list nat :=
  let t1 := in_stock mq (flat_map (tier_bcs M b c) (set_iter sizes)) in
  if nonempty t1 then t1
  else
    let t2 := in_stock mq (tier_bc M b c) in
    if nonempty t2 then t2 else in_stock mq (tier_b M b).

(** A catalogue whose only line of size M is sold out. *)
Definition catalog_sold_out_M : dataframe :=
  sheet [text_row "A" "shirt" "black" "M" (QInt 0);
         text_row "A" "shirt" "black" "L" (QInt 1)].

Definition stock_of (l : list Z) : gmap nat Z := list_to_map (enumerate l).

(** ** Matched units *)

(** Number of [MatchResult] records that reference order line [i] /
    catalogue line [j]. *)
Definition units_of_order (i : nat) (out : list MatchResult) : Z :=
  Z.of_nat (length (filter (λ mr, receipt_idx mr = i) out)).

Definition units_of_catalog_line (j : nat) (out : list MatchResult) : Z :=
  Z.of_nat (length (filter (λ mr, matched_idx mr = j) out)).

(** The bookkeeping of a run against the original quantity dicts [rq0] and
    [mq0]: the units emitted for a line plus what remains of it make up its
    original quantity (negative quantities count as none). *)
Definition conserves (rq0 mq0 : gmap nat Z) (st : run_state) : Prop :=
  (∀ i, units_of_order i (matched_results st)
        + Z.max 0 (getitem (receipt_qty st) i) = Z.max 0 (getitem rq0 i))
  ∧ (∀ j, units_of_catalog_line j (matched_results st)
          + Z.max 0 (getitem (matched_qty st) j) = Z.max 0 (getitem mq0 j))
  ∧ (∀ i, is_Some (rq0 !! i) → is_Some (receipt_qty st !! i)).

(** The end-to-end scenario of the specification: one order line of size
    [7(M)] and quantity 2, catalogue lines of size [M] (1 in stock) and [7]
    (5 in stock). *)
Definition scenario_order : dataframe :=
  sheet [text_row "A" "shirt" "black" "7(M)" (QInt 2)].

Definition scenario_catalog : dataframe :=
  sheet [text_row "A" "shirt" "black" "M" (QInt 1);
         text_row "A" "shirt" "black" "7" (QInt 5)].

(** ** Provenance and range of confidences *)

(** The record carries a confidence and details that the scorer returned
    with [accepted = True] for some pair of rows. *)
Definition accepted_by_scorer {R : Runtime} (cfg : config) (mr : MatchResult)
  : Prop :=
  ∃ r m : series,
    calculate_match_confidence_perfect cfg r m
    = (true, confidence_score mr, match_details mr).

(** The matching settings [PerfectMatcher.__init__] falls back to. *)
Definition default_matching (cfg : config) : Prop :=
  (name_score_cutoff cfg == 70 ∧ weight_brand cfg == 0.25
   ∧ weight_name cfg == 0.35 ∧ weight_color cfg == 0.25
   ∧ weight_size cfg == 0.15)%Q.

Definition in_range (lo hi x : Q) : Prop := (lo <= x ∧ x <= hi)%Q.

Definition is_low (x : Q) : bool := negb (Qgeb x 70%Q).

Definition is_medium (x : Q) : bool := Qgeb x 70%Q && negb (Qgeb x 90%Q).

(** ** Order of consumption *)

(** [x] goes before [y] in a list sorted by descending key; [tie x y] is
    what holds of them when their keys are equal. *)
Definition desc_then {A} (key : A → Q) (tie : A → A → Prop) (x y : A) : Prop :=
  (key y <= key x)%Q ∧ ((key x == key y)%Q → tie x y).

(** The elements of [l] whose key equals [v], in the order of [l]. *)
Definition with_key {A} (key : A → Q) (v : Q) (l : list A) : list A :=
  filter (λ x, Qeq_bool (key x) v = true) l.

(** The environment [R] with another iteration order of sets. *)
Definition with_iter (R : Runtime) (iter : gset ustr → list ustr) : Runtime :=
  {| nfkc := nfkc; lower := lower; ci_eq := ci_eq; set_iter := iter;
     partial_ratio := partial_ratio; int_str := int_str |}.

(** One order line of size [7(M)] asking for 3 units, and three catalogue
    lines with the same brand, name and colour, of sizes [M], [7], [M], one
    unit each. *)
Definition tie_order : dataframe :=
  sheet [text_row "A" "shirt" "black" "7(M)" (QInt 3)].

Definition tie_catalog : dataframe :=
  sheet [text_row "A" "shirt" "black" "M" (QInt 1);
         text_row "A" "shirt" "black" "7" (QInt 1);
         text_row "A" "shirt" "black" "M" (QInt 1)].

(** The catalogue lines a run consumed, in order. *)
Definition consumed_lines (run : option (list MatchResult))
  : option (list nat) :=
  (λ l : list MatchResult, matched_idx <$> l) <$> run.

(** ** Conditions under which the two matchers agree *)

(** The name-synonym table leaves the normalized name of the row as it is. *)
Definition synonym_free {R : Runtime} (cfg : config) (r : raw_row) : Prop :=
  apply_bidir_synonyms_text cfg (normalize_text_ultra (col_name r))
  = normalize_text_ultra (col_name r).

(** The size cell of the row yields at most one token. *)
Definition single_size {R : Runtime} (cfg : config) (r : raw_row) : Prop :=
  (size (extract_size_parts_ultra cfg (col_size r)) ≤ 1)%nat.

(** The candidate the scorer makes of catalogue line [j] for the order row
    [r], when it accepts the pair. *)
Definition accepted_candidate {R : Runtime} (cfg : config) (M : list raw_row)
    (r : raw_row) (j : nat) : option scored_candidate :=
  m ← M !! j;
  let '(ok, conf, det) :=
    calculate_match_confidence_perfect cfg (bare r) (bare m) in
  if ok then Some (j, conf, det) else None.

(** The same, for a line in stock only. *)
Definition stocked_candidate {R : Runtime} (cfg : config) (M : list raw_row)
    (mq : gmap nat Z) (r : raw_row) (j : nat) : option scored_candidate :=
  if decide (0 < default 0 (mq !! j)) then accepted_candidate cfg M r j
  else None.

(** An order line named by the abbreviation [mtm] and a catalogue line
    named by its canonical label. *)
Definition synonym_order : dataframe :=
  sheet [text_row "A" "mtm" "black" "M" (QInt 1)].

Definition synonym_catalog : dataframe :=
  sheet [{| col_brand := CStr (u "A");
            col_name := CStr [47592; 53804; 47592]%N;
            col_color := CStr (u "black"); col_size := CStr (u "M");
            col_qty := QInt 1 |}].

(** ** Occurrences of a synonym variant *)

(** [v] occurs in [s] up to case: [re.search(re.escape(v), s,
    flags=re.IGNORECASE)] finds a match. *)
Fixpoint occurs_ci {R : Runtime} (v s : ustr) : bool :=
  prefix_ci v s
  || match s with
     | [] => false
     | _ :: s' => occurs_ci v s'
     end.

(** No variant of the name-synonym table occurs in [text]. *)
Definition no_variant_occurs {R : Runtime} (cfg : config) (text : ustr)
  : Prop :=
  Forall (λ g : ustr * list ustr, Forall (λ v, occurs_ci v text = false) g.2)
    (NAME_SYNONYM_GROUPS cfg).

(** The group [g] of the size-synonym table does not mention [t]. *)
Definition not_mentioned (t : ustr) (g : ustr * list ustr) : Prop :=
  t ≠ g.1 ∧ t ∉ g.2.

(** A word of kept characters. *)
Definition is_word (t : ustr) : Prop := t ≠ [] ∧ forallb is_keep t = true.

(** ** What a record says about the two sheets *)

(** A row as the fast matcher hands it to the scorer: with the columns
    [_precompute_normalized_columns] added. *)
Definition precomputed_series {R : Runtime} (cfg : config) (r : raw_row)
  : series :=
  with_pre (r, precompute_row cfg r).

(** The record pairs an order line with a catalogue line of the sheets,
    and its confidence and details are what the scorer returns, with
    [accepted = True], for these two rows as [as_series] presents them. *)
Definition scored_pair {R : Runtime} (cfg : config)
    (as_series : raw_row → series) (receipt_df matched_df : dataframe)
    (mr : MatchResult) : Prop :=
  ∃ r m,
    rows receipt_df !! receipt_idx mr = Some r
    ∧ rows matched_df !! matched_idx mr = Some m
    ∧ calculate_match_confidence_perfect cfg (as_series r) (as_series m)
      = (true, confidence_score mr, match_details mr).

(** The two rows have the same normalized brand, the same normalized
    colour, and a size token in common. *)
Definition same_brand_colour_size {R : Runtime} (cfg : config)
    (r m : raw_row) : Prop :=
  normalize_text_ultra (col_brand r) = normalize_text_ultra (col_brand m)
  ∧ normalize_color_ultra cfg (col_color r)
    = normalize_color_ultra cfg (col_color m)
  ∧ extract_size_parts_ultra cfg (col_size r)
    ∩ extract_size_parts_ultra cfg (col_size m) ≠ ∅.

Definition pairs_like_lines {R : Runtime} (cfg : config)
    (receipt_df matched_df : dataframe) (mr : MatchResult) : Prop :=
  ∃ r m,
    rows receipt_df !! receipt_idx mr = Some r
    ∧ rows matched_df !! matched_idx mr = Some m
    ∧ same_brand_colour_size cfg r m.

(** The verdict of the scorer on two raw rows. *)
Definition accepts {R : Runtime} (cfg : config) (r m : raw_row) : bool :=
  (calculate_match_confidence_perfect cfg (bare r) (bare m)).1.1.

(** An order of three units against a catalogue with two matching lines of
    one unit each and a line of another brand. *)
Definition short_order : dataframe :=
  sheet [text_row "A" "shirt" "black" "M" (QInt 3)].

Definition short_catalog : dataframe :=
  sheet [text_row "A" "shirt" "black" "M" (QInt 1);
         text_row "B" "shirt" "black" "M" (QInt 4);
         text_row "A" "shirt" "black" "M, L" (QInt 1)].

(** Two order lines and a catalogue that serves both. *)
Definition two_orders : dataframe :=
  sheet [text_row "A" "shirt" "black" "M" (QInt 2);
         text_row "A" "shirt" "black" "L" (QInt 1)].

Definition two_orders_catalog : dataframe :=
  sheet [text_row "A" "shirt" "black" "L" (QInt 1);
         text_row "A" "shirt" "black" "M" (QInt 1);
         text_row "A" "shirt" "black" "M" (QInt 3)].

(** Order line [i] is served in full, or every catalogue line that is
    acceptable for its row [r] is out of stock. *)
Definition served_or_sold_out (M : list raw_row)
    (acceptable : raw_row → raw_row → Prop) (st : run_state) (i : nat)
    (r : raw_row) : Prop :=
  getitem (receipt_qty st) i ≤ 0
  ∨ ∀ j m, M !! j = Some m → acceptable r m →
           getitem (matched_qty st) j ≤ 0.

(** The fast matcher's verdict on two rows that both have a name: the
    scorer accepts them with their precomputed columns. *)
Definition accepts_precomputed {R : Runtime} (cfg : config) (r m : raw_row)
  : Prop :=
  name_n (precompute_row cfg r) ≠ []
  ∧ name_n (precompute_row cfg m) ≠ []
  ∧ (calculate_match_confidence_perfect cfg (precomputed_series cfg r)
       (precomputed_series cfg m)).1.1 = true.

(** The row has a name: its normalized name is not empty. *)
Definition has_name {R : Runtime} (r : raw_row) : Prop :=
  normalize_text_ultra (col_name r) ≠ [].

Definition pairs_named_lines {R : Runtime}
    (receipt_df matched_df : dataframe) (mr : MatchResult) : Prop :=
  ∃ r m,
    rows receipt_df !! receipt_idx mr = Some r
    ∧ rows matched_df !! matched_idx mr = Some m
    ∧ has_name r ∧ has_name m.

(** ** The matchers with every raising subscript written out

    The model above reads the quantity dicts with a default and skips a
    label that is not in the catalogue.  Python raises there: [KeyError]
    for [matched_qty[m_idx]], [receipt_qty[r_idx]],
    [matched_df.at[mid, "m_name_n"]] and [matched_df.loc[m_idx]],
    [IndexError] for [candidate_ids[local_idx]].  The definitions below
    follow the same loops with [None] for the exception. *)

Section CheckedMatchers.
Context {R : Runtime}.
Variable cfg : config.

(** [[matched_df.at[mid, "m_name_n"] for mid in candidate_ids]] *)
Definition cand_names_checked (matched_df : list (raw_row * precomputed))
    (candidate_ids : list nat) : option (list ustr) :=
  mapM (λ mid, (λ row : raw_row * precomputed, name_n row.2)
               <$> matched_df !! mid) candidate_ids.

(** The loop [for _, _, local_idx in scored]. *)
Definition blocked_results_checked (matched_df : list (raw_row * precomputed))
    (candidate_ids : list nat) (r_row : raw_row * precomputed)
    (scored : list (ustr * Q * nat)) : option (list scored_candidate) :=
  looked_up ← mapM (λ t : ustr * Q * nat,
                      m_idx ← candidate_ids !! t.2;
                      m_row ← matched_df !! m_idx;
                      Some (m_idx, m_row)) scored;
  Some (omap (λ p : nat * (raw_row * precomputed),
                let '(ok, conf, det) :=
                  calculate_match_confidence_perfect cfg
                    (with_pre r_row) (with_pre p.2) in
                if ok then Some (p.1, conf, det) else None)
          looked_up).

Definition blocked_step_checked (matched_df : list (raw_row * precomputed))
    (ix : candidate_index) (st : run_state)
    (entry : nat * (raw_row * precomputed)) : option run_state :=
  let '(r_idx, r_row) := entry in
  let remain := default 1 (receipt_qty st !! r_idx) in
  if remain <=? 0 then Some st
  else
    let b := brand_n r_row.2 in
    let c := color_n r_row.2 in
    let sizes := sizes_s r_row.2 in
    let candidate_ids :=
      retrieve_candidates ix (matched_qty st) b c sizes in
    if negb (nonempty candidate_ids) then Some st
    else
      cand_names ← cand_names_checked matched_df candidate_ids;
      let scored :=
        extract (name_n r_row.2) cand_names (name_score_cutoff cfg) in
      if negb (nonempty scored) then Some st
      else
        results ← blocked_results_checked matched_df candidate_ids r_row
                    scored;
        if nonempty results
        then allocate_checked r_idx (sort_desc conf_of results) remain st
        else Some st.

Definition sequential_step_checked (matched_df : list raw_row)
    (st : run_state) (entry : nat * raw_row) : option run_state :=
  let '(r_idx, r_row) := entry in
  let remain := default 1 (receipt_qty st !! r_idx) in
  if remain <=? 0 then Some st
  else
    let candidates :=
      sequential_candidates cfg matched_df (matched_qty st) r_row in
    allocate_checked r_idx (sort_desc conf_of candidates) remain st.

(** A loop whose body may raise. *)
Definition run_checked {A} (step : run_state → A → option run_state)
    (st : run_state) (l : list A) : option run_state :=
  foldl (λ acc e, st ← acc; step st e) (Some st) l.

Definition fuzzy_match_orders_blocked_checked
    (receipt_df matched_df : dataframe) : option (list MatchResult) :=
  let receipt := _precompute_normalized_columns cfg receipt_df in
  let matched := _precompute_normalized_columns cfg matched_df in
  let ix := _build_candidate_index matched in
  rq ← quantities receipt_df;
  mq ← quantities matched_df;
  matched_results
  <$> run_checked (blocked_step_checked matched ix)
        {| matched_results := []; receipt_qty := rq; matched_qty := mq |}
        (enumerate receipt).

Definition fuzzy_match_orders_perfect_sequential_checked
    (receipt_df matched_df : dataframe) : option (list MatchResult) :=
  rq ← quantities receipt_df;
  mq ← quantities matched_df;
  matched_results
  <$> run_checked (sequential_step_checked (rows matched_df))
        {| matched_results := []; receipt_qty := rq; matched_qty := mq |}
        (enumerate (rows receipt_df)).

End CheckedMatchers.

(** ** Confidences of a report *)

Definition is_high (x : Q) : bool := Qgeb x 90%Q.

(** The three counters of a report, when it has them. *)
Definition buckets (rep : report) : option (nat * nat * nat) :=
  h ← match_distribution rep !! "high_confidence"%string;
  m ← match_distribution rep !! "medium_confidence"%string;
  l ← match_distribution rep !! "low_confidence"%string;
  Some (h, m, l).

(** ** Worksheets ([openpyxl])

    [apply_colors_with_quantity_enhanced] and [_update_match_info] work on
    the active worksheets of the two workbooks.  A worksheet is the finite
    map of the cells it holds, keyed by row and column (both from 1); a
    cell has a value and a fill.  [ws.cell(row, column)] returns the cell
    and creates it blank when the sheet does not hold it.  Sheets with
    merged cells are not modelled. *)

Inductive xvalue :=
  | XNone
  | XBool (b : bool)
  | XInt (z : Z)
  | XStr (s : ustr)
  | XOther (repr : ustr).

(** The fill of a cell: none, the solid fill [make_fill] builds from an
    ARGB code, or any other fill of the workbook. *)
Inductive xfill :=
  | NoFill
  | Solid (argb : ustr)
  | OtherFill (id : nat).

Record xcell := {
  cell_value : xvalue;
  cell_fill : xfill;
}.

Abbreviation worksheet := (gmap (nat * nat) xcell).

Definition blank : xcell := {| cell_value := XNone; cell_fill := NoFill |}.

(** The cell [ws.cell(row, column)] returns. *)
Definition cell_at (ws : worksheet) (row col : nat) : xcell :=
  default blank (ws !! (row, col)).

Definition value_at (ws : worksheet) (row col : nat) : xvalue :=
  cell_value (cell_at ws row col).

Definition fill_at (ws : worksheet) (row col : nat) : xfill :=
  cell_fill (cell_at ws row col).

(** The effect of [ws.cell(row, column)] on the sheet. *)
Definition touch (row col : nat) (ws : worksheet) : worksheet :=
  <[ (row, col) := cell_at ws row col ]> ws.

(** [ws.cell(row, column).value = v], for a value that is not a string *)
Definition set_value (row col : nat) (v : xvalue) (ws : worksheet)
  : worksheet :=
  <[ (row, col) := {| cell_value := v;
                      cell_fill := fill_at ws row col |} ]> ws.

(** [ws.cell(row, column).fill = f] *)
Definition set_fill (row col : nat) (f : xfill) (ws : worksheet)
  : worksheet :=
  <[ (row, col) := {| cell_value := value_at ws row col;
                      cell_fill := f |} ]> ws.

(** [ws.max_row]: the largest row that holds a cell, 1 for an empty
    sheet. *)
Definition max_row (ws : worksheet) : nat :=
  Nat.max 1 (max_list ((λ k : nat * nat, k.1) <$> elements (dom ws))).

(** The characters a cell refuses: [ILLEGAL_CHARACTERS_RE] of openpyxl. *)
Definition is_illegal (c : N) : bool :=
  ((c <=? 8) || (11 <=? c) && (c <=? 12) || (14 <=? c) && (c <=? 31))%N.

(** What a cell keeps of a string assigned to its value: the first 32767
    characters.  [None] stands for the [IllegalCharacterError] raised when
    these hold a control character. *)
Definition check_string (s : ustr) : option ustr :=
  let s := take (N.to_nat 32767) s in
  if existsb is_illegal s then None else Some s.

(** ** [_update_match_info] *)

(** A cell of a data frame inside an f-string.  A missing cell of a sheet
    read by [pd.read_excel] is NaN. *)
Definition fstr (c : cell) : ustr :=
  match c with
  | CStr s => s
  | CNaN => u "nan"
  | CObj repr => repr
  end.

Fixpoint lstrip_chars (chars : ustr) (s : ustr) : ustr :=
  match s with
  | [] => []
  | c :: s' => if bool_decide (c ∈ chars) then lstrip_chars chars s' else s
  end.

Fixpoint rstrip_chars (chars : ustr) (s : ustr) : ustr :=
  match s with
  | [] => []
  | c :: s' =>
      let r := rstrip_chars chars s' in
      if bool_decide (c ∈ chars) && negb (nonempty r) then [] else c :: r
  end.

(** [s.strip(chars)] *)
Definition strip_chars (chars : ustr) (s : ustr) : ustr :=
  rstrip_chars chars (lstrip_chars chars s).

(** [f"{matched_product_name} / {matched_size}".strip(" /")]; the data
    frames of the model have the columns 상품명 and 사이즈, so both are read
    with [matched_df.loc]. *)
Definition matched_info (m : raw_row) : ustr :=
  strip_chars (u " /") (fstr (col_name m) ++ u " / " ++ fstr (col_size m)).

(** The loop that empties the columns H to N from row 2 down to
    [max_row]. *)
Definition clear_info (ws : worksheet) : worksheet :=
  foldl (λ ws row,
           foldl (λ ws col, set_value row col XNone ws) ws (seq 8 7))
    ws (seq 2 (max_row ws - 1)).

(** One iteration of [for receipt_idx, matched_idx in matched_pairs], on
    the sheet and the dict [match_count].  [inr ws] stands for an exception
    raised with the sheet in state [ws]: the [KeyError] of
    [matched_df.loc[matched_idx, ...]] for a label that is not in the
    catalogue, or the error of the cell for a summary with a control
    character. *)
Definition record_pair (matched_df : list raw_row)
    (st : worksheet * gmap nat nat) (p : nat * nat)
  : worksheet * gmap nat nat + worksheet :=
  let '(ws, match_count) := st in
  let '(receipt_idx, matched_idx) := p in
  let row_excel := (receipt_idx + 2)%nat in
  match matched_df !! matched_idx with
  | None => inr ws
  | Some m =>
      let info := matched_info m in
      let current_col_offset := default 0%nat (match_count !! receipt_idx) in
      let target_col := (9 + current_col_offset)%nat in
      let written :=
        if (current_col_offset =? 0)%nat
        then match check_string info with
             | Some s => inl (set_value row_excel 8 (XStr s) ws)
             | None => inr (touch row_excel 8 ws)
             end
        else inl ws in
      match written with
      | inr ws => inr ws
      | inl ws =>
          let actual_row_number := Z.of_nat matched_idx + 2 in
          let ws :=
            if (target_col <=? 14)%nat
            then set_value row_excel target_col (XInt actual_row_number) ws
            else ws in
          inl (ws, <[ receipt_idx := S current_col_offset ]> match_count)
      end
  end.

(** The loop over the pairs; an exception ends it. *)
Fixpoint record_pairs (matched_df : list raw_row) (pairs : list (nat * nat))
    (st : worksheet * gmap nat nat) : worksheet :=
  match pairs with
  | [] => st.1
  | p :: rest =>
      match record_pair matched_df st p with
      | inl st' => record_pairs matched_df rest st'
      | inr ws => ws
      end
  end.

(** The sheet [_update_match_info] leaves; its [try]/[except] swallows the
    exception of the loop. *)
Definition _update_match_info (receipt_ws : worksheet)
    (matched_pairs : list (nat * nat)) (matched_df : dataframe)
  : worksheet :=
  record_pairs (rows matched_df) matched_pairs (clear_info receipt_ws, ∅).

(** *** What the sheet is to show *)

(** The catalogue lines paired with order line [i], in the order of the
    pairs. *)
Definition lines_of (pairs : list (nat * nat)) (i : nat) : list nat :=
  omap (λ p : nat * nat, if decide (p.1 = i) then Some p.2 else None) pairs.

(** The pair can be recorded: its catalogue label exists and the summary
    of the line holds no control character. *)
Definition recordable (matched_df : list raw_row) (p : nat * nat) : Prop :=
  ∃ m, matched_df !! p.2 = Some m ∧ is_Some (check_string (matched_info m)).

(** The summary as the cell keeps it. *)
Definition summary (matched_df : list raw_row) (j : nat) : xvalue :=
  match matched_df !! j ≫= λ m, check_string (matched_info m) with
  | Some s => XStr s
  | None => XNone
  end.

(** Column H of the row of an order line, given its catalogue lines. *)
Definition summary_cell (matched_df : list raw_row) (lines : list nat)
  : xvalue :=
  match lines with
  | [] => XNone
  | j :: _ => summary matched_df j
  end.

(** Column I + [k] of the row of an order line. *)
Definition row_number_cell (lines : list nat) (k : nat) : xvalue :=
  match lines !! k with
  | Some j => XInt (Z.of_nat j + 2)
  | None => XNone
  end.

(** An order sheet with a header row, two order rows and stale notes in
    the columns H and I, and the pairs of a run that matched the first
    order line with the catalogue lines 1 and 0. *)
Definition noted_sheet : worksheet :=
  list_to_map
    [ ((1, 1), {| cell_value := XStr (u "brand"); cell_fill := NoFill |});
      ((1, 8), {| cell_value := XStr (u "note"); cell_fill := NoFill |});
      ((2, 1), {| cell_value := XStr (u "A"); cell_fill := NoFill |});
      ((2, 7), {| cell_value := XBool true; cell_fill := NoFill |});
      ((2, 9), {| cell_value := XInt 99; cell_fill := OtherFill 3 |});
      ((3, 1), {| cell_value := XStr (u "A"); cell_fill := NoFill |});
      ((3, 8), {| cell_value := XStr (u "old"); cell_fill := NoFill |}) ]%nat.

Definition noted_pairs : list (nat * nat) := [(0, 1); (0, 0)]%nat.

(** What the sheet [ws] shows of the pairs, [ws0] being the sheet before:
    in the row of order line [i] (row [i + 2]) column H holds the summary
    of the first catalogue line paired with it and the columns I to N the
    sheet rows of the first six, in the order of the pairs; the cells of H
    to N are empty otherwise, from row 2 down; no fill has changed, and no
    value outside the columns H to N or in row 1. *)
Definition shows_matches (matched_df : list raw_row) (ws0 : worksheet)
    (pairs : list (nat * nat)) (ws : worksheet) : Prop :=
  (∀ i, value_at ws (i + 2) 8 = summary_cell matched_df (lines_of pairs i))
  ∧ (∀ i k, (k < 6)%nat →
       value_at ws (i + 2) (9 + k) = row_number_cell (lines_of pairs i) k)
  ∧ (∀ r c, fill_at ws r c = fill_at ws0 r c)
  ∧ (∀ r c, (r < 2 ∨ c < 8 ∨ 14 < c)%nat → value_at ws r c = value_at ws0 r c).

(** The state of the loop after the pairs [done]: the counters hold the
    number of pairs of each order line. *)
Definition recorded (matched_df : list raw_row) (ws0 : worksheet)
    (seen : list (nat * nat)) (st : worksheet * gmap nat nat) : Prop :=
  (∀ i, default 0%nat (st.2 !! i) = length (lines_of seen i))
  ∧ shows_matches matched_df ws0 seen st.1.

(** ** [make_fill] and [apply_colors_with_quantity_enhanced] *)

Fixpoint digits (d : Decimal.uint) : ustr :=
  match d with
  | Decimal.Nil => []
  | Decimal.D0 d => 48%N :: digits d
  | Decimal.D1 d => 49%N :: digits d
  | Decimal.D2 d => 50%N :: digits d
  | Decimal.D3 d => 51%N :: digits d
  | Decimal.D4 d => 52%N :: digits d
  | Decimal.D5 d => 53%N :: digits d
  | Decimal.D6 d => 54%N :: digits d
  | Decimal.D7 d => 55%N :: digits d
  | Decimal.D8 d => 56%N :: digits d
  | Decimal.D9 d => 57%N :: digits d
  end.

(** [str(v)] of the value of a cell *)
Definition py_str (v : xvalue) : ustr :=
  match v with
  | XNone => u "None"
  | XBool true => u "True"
  | XBool false => u "False"
  | XInt z =>
      match Z.to_int z with
      | Decimal.Pos d => digits d
      | Decimal.Neg d => 45%N :: digits d
      end
  | XStr s => s
  | XOther repr => repr
  end.

(** The regex class [[A-Fa-f0-9]]. *)
Definition is_hex (c : N) : bool :=
  ((48 <=? c) && (c <=? 57) || (65 <=? c) && (c <=? 70)
   || (97 <=? c) && (c <=? 102))%N.

Section Colours.
(** [s.upper()] *)
Variable upper : ustr → ustr.
(** The table [EXCEL_COLORS] of [config.py]. *)
Variable EXCEL_COLORS : gmap string ustr.
(** The price comparison of a pair of lines: [Some true] when
    [float(금액)] of the order line differs from [float(도매가)] of the
    catalogue line times [float(수량)], [Some false] when the two are equal,
    [None] when a lookup or a conversion raises.  The price columns and
    float arithmetic are not modelled. *)
Variable prices_differ : nat → nat → option bool.

(** [None] stands for the [ValueError], raised by [make_fill] for a code
    that is not 8 characters long and by [PatternFill] for one that is not
    made of hexadecimal digits. *)
Definition make_fill (argb_hex : ustr) : option xfill :=
  let code := upper argb_hex in
  if negb (length code =? 8)%nat then None
  else if forallb is_hex code then Some (Solid code) else None.

(** [make_fill(EXCEL_COLORS[name])] *)
Definition configured_fill (name : string) : option xfill :=
  EXCEL_COLORS !! name ≫= make_fill.

(** [str(g_value).strip().upper() == "TRUE"] *)
Definition reads_true (g_value : xvalue) : bool :=
  bool_decide (upper (strip (py_str g_value)) = u "TRUE").

(** One iteration of the loop over the pairs, on the two sheets. *)
Definition colour_pair (cyan_fill yellow_fill red_fill : xfill)
    (sheets : worksheet * worksheet) (p : nat * nat)
  : worksheet * worksheet :=
  let '(receipt_ws, matched_ws) := sheets in
  let '(receipt_idx, matched_idx) := p in
  let receipt_ws := touch (receipt_idx + 2) 7 receipt_ws in
  let g_value := value_at receipt_ws (receipt_idx + 2) 7 in
  let fill_color := if reads_true g_value then cyan_fill else yellow_fill in
  let receipt_ws :=
    foldl (λ ws col, set_fill (receipt_idx + 2) col fill_color ws)
      receipt_ws (seq 1 5) in
  let matched_ws :=
    foldl (λ ws col, set_fill (matched_idx + 2) col fill_color ws)
      matched_ws (seq 8 7) in
  match prices_differ receipt_idx matched_idx with
  | Some true =>
      (set_fill (receipt_idx + 2) 6 red_fill receipt_ws,
       set_fill (matched_idx + 2) 14 red_fill matched_ws)
  | Some false =>
      (set_fill (receipt_idx + 2) 6 fill_color receipt_ws,
       set_fill (matched_idx + 2) 14 fill_color matched_ws)
  | None => (receipt_ws, matched_ws)
  end.

(** The two sheets as they are saved; [None] when a colour of the
    configuration is missing or refused, in which case nothing is saved. *)
Definition apply_colors_with_quantity_enhanced
    (receipt_ws matched_ws : worksheet) (match_results : list MatchResult)
    (matched_df : dataframe) : option (worksheet * worksheet) :=
  cyan_fill ← configured_fill "cyan";
  yellow_fill ← configured_fill "yellow";
  red_fill ← configured_fill "red";
  let matched_pairs :=
    (λ r, (receipt_idx r, matched_idx r)) <$> match_results in
  let sheets :=
    foldl (colour_pair cyan_fill yellow_fill red_fill)
      (receipt_ws, matched_ws) matched_pairs in
  Some (_update_match_info sheets.1 matched_pairs matched_df, sheets.2).

(** The colour of the row of order line [i]: cyan when column G of the row
    reads TRUE, yellow otherwise. *)
Definition order_colour (cyan_fill yellow_fill : xfill)
    (receipt_ws : worksheet) (i : nat) : xfill :=
  if reads_true (value_at receipt_ws (i + 2) 7) then cyan_fill
  else yellow_fill.

End Colours.

(** [str.upper] on ASCII text. *)
Definition upper_char (c : N) : N :=
  if ((97 <=? c) && (c <=? 122))%N then (c - 32)%N else c.

(** The colours the configuration page resets to. *)
Definition default_colors : gmap string ustr :=
  <[ "cyan"%string := u "0000FFFF" ]>
    (<[ "yellow"%string := u "00FFFF00" ]>
       (<[ "red"%string := u "00FF0000" ]> ∅)).

(** A catalogue sheet with a header row and two lines. *)
Definition catalogue_sheet : worksheet :=
  list_to_map
    [ ((1, 1), {| cell_value := XStr (u "brand"); cell_fill := NoFill |});
      ((2, 1), {| cell_value := XStr (u "A"); cell_fill := NoFill |});
      ((3, 1), {| cell_value := XStr (u "A"); cell_fill := NoFill |}) ]%nat.

(** Two records of order line 0, with the catalogue lines 1 and 0. *)
Definition noted_records : list MatchResult :=
  [ {| receipt_idx := 0; matched_idx := 1; confidence_score := 100;
       match_details := None |};
    {| receipt_idx := 0; matched_idx := 0; confidence_score := 100;
       match_details := None |} ].

(** ** Upload filter ([app.py]) *)

(** The text before the last [sep] of [s] and the text after it; [None]
    when [s] holds no [sep]. *)
Fixpoint rsplit_last (sep : N) (s : ustr) : option (ustr * ustr) :=
  match s with
  | [] => None
  | c :: s' =>
      match rsplit_last sep s' with
      | Some (a, b) => Some (c :: a, b)
      | None => if (c =? sep)%N then Some ([], s') else None
      end
  end.

(** [s.rsplit(sep, 1)] for a one-character separator *)
Definition rsplit1 (sep : N) (s : ustr) : list ustr :=
  match rsplit_last sep s with
  | Some (a, b) => [a; b]
  | None => [s]
  end.

Definition ALLOWED_EXTENSIONS : gset ustr := {[ u "xlsx"; u "xls" ]}.

(** ['.' in filename and filename.rsplit('.', 1)[1].lower() in
    ALLOWED_EXTENSIONS].  The subscript cannot fail behind the first
    test. *)
Definition allowed_file {R : Runtime} (filename : ustr) : bool :=
  bool_decide (46%N ∈ filename)
  && match rsplit1 46 filename !! 1%nat with
     | Some ext => bool_decide (lower ext ∈ ALLOWED_EXTENSIONS)
     | None => false
     end.

(** ** Variant lists of the configuration page ([streamlit_app.py]) *)

(** [s.split(sep)] for a one-character separator; [cur] is the piece being
    read. *)
Fixpoint split_on (sep : N) (cur : ustr) (s : ustr) : list ustr :=
  match s with
  | [] => [cur]
  | c :: s' =>
      if (c =? sep)%N then cur :: split_on sep [] s'
      else split_on sep (cur ++ [c]) s'
  end.

(** [sep.join(l)] *)
Fixpoint join_with (sep : ustr) (l : list ustr) : ustr :=
  match l with
  | [] => []
  | [w] => w
  | w :: l' => w ++ sep ++ join_with sep l'
  end.

(** The text the page shows for a list of variants:
    [", ".join(values)]. *)
Definition show_variants (values : list ustr) : ustr :=
  join_with (u ", ") values.

(** The list the page stores for the text of the input field:
    [[v.strip() for v in new_values.split(',') if v.strip()]]. *)
Definition parse_variants (new_values : ustr) : list ustr :=
  omap (λ v, let v := strip v in if nonempty v then Some v else None)
    (split_on 44 [] new_values).

(** A variant the page can show and read back: not empty, without a comma
    and without whitespace at either end. *)
Definition plain_variant (v : ustr) : Prop :=
  v ≠ [] ∧ strip v = v ∧ 44%N ∉ v.

(** ** [process_excel_perfect_solution] *)

Section Process.
Context {R : Runtime}.
Variable cfg : config.
Variable upper : ustr → ustr.
Variable EXCEL_COLORS : gmap string ustr.
Variable prices_differ : nat → nat → option bool.

(** The two files are read twice, as data frames by pandas and as workbooks
    by openpyxl; the model takes the two readings as separate inputs.  The
    result is the returned pair [(len(match_results), match_results)] with
    the two sheets as saved; [None] when a step raises. *)
Definition process_excel_perfect_solution
    (receipt_df matched_df : dataframe) (receipt_ws matched_ws : worksheet)
    (use_fast : bool)
  : option (nat * list MatchResult * (worksheet * worksheet)) :=
  match_results ←
    (if use_fast then fuzzy_match_orders_blocked cfg receipt_df matched_df
     else fuzzy_match_orders_perfect_sequential cfg receipt_df matched_df);
  saved ← apply_colors_with_quantity_enhanced upper EXCEL_COLORS
             prices_differ receipt_ws matched_ws match_results matched_df;
  Some (length match_results, match_results, saved).

End Process.

(** The pairs of labels of a list of records. *)
Definition pairs_of (match_results : list MatchResult) : list (nat * nat) :=
  (λ r, (receipt_idx r, matched_idx r)) <$> match_results.

(** No summary of a catalogue line holds a control character. *)
Definition printable (matched_df : dataframe) : Prop :=
  Forall (λ m, is_Some (check_string (matched_info m))) (rows matched_df).

(** ** The order of the records of one order line *)

(** Record [a] is consumed before record [b]: the confidence of [b] is not
    above that of [a], and [tie] relates their catalogue labels when the
    two confidences are equal. *)
Definition consumed_before (tie : nat → nat → Prop) (a b : MatchResult)
  : Prop :=
  (confidence_score b <= confidence_score a)%Q
  ∧ ((confidence_score a == confidence_score b)%Q →
     tie (matched_idx a) (matched_idx b)).

(** Records come by order line, and within an order line as
    [consumed_before] says. *)
Definition emitted_before (tie : nat → nat → Prop) (a b : MatchResult)
  : Prop :=
  (receipt_idx a < receipt_idx b)%nat
  ∨ (receipt_idx a = receipt_idx b ∧ consumed_before tie a b).

(** An order of two units, and a catalogue whose second line has the
    better name. *)
Definition ranked_order : dataframe :=
  sheet [text_row "A" "shirt" "black" "M" (QInt 2)].

Definition ranked_catalog : dataframe :=
  sheet [text_row "A" "shart" "black" "M" (QInt 1);
         text_row "A" "shirt" "black" "M" (QInt 1)].

(** * Properties *)

(** ** Report aggregator *)

(** C6. On the empty list of results the aggregator returns total 0 and
    average 0, but its distribution is the empty dict: none of the three
    buckets is present, so no bucket holds a zero count. *)
Theorem report_of_no_results :
  total_matches (generate_match_report []) = O
  ∧ average_confidence (generate_match_report []) = 0%Q
  ∧ match_distribution (generate_match_report []) = ∅
  ∧ match_distribution (generate_match_report []) !! "high_confidence"%string
    = None
  ∧ match_distribution (generate_match_report []) !! "medium_confidence"%string
    = None
  ∧ match_distribution (generate_match_report []) !! "low_confidence"%string
    = None.
Proof. repeat split. Qed.

(** On a non-empty list all three buckets are present. *)
Lemma report_buckets_present mr l :
  let d := match_distribution (generate_match_report (mr :: l)) in
  is_Some (d !! "high_confidence"%string)
  ∧ is_Some (d !! "medium_confidence"%string)
  ∧ is_Some (d !! "low_confidence"%string).
Proof.
  cbn -[count_if sum_confidence]. repeat split; eexists;
    repeat (first [ rewrite lookup_insert_eq; reflexivity
                  | rewrite lookup_insert_ne by discriminate ]).
Qed.

(** ** Confidence scorer *)

Lemma Qgeb_true x y : Qgeb x y = true ↔ (y <= x)%Q.
Proof. unfold Qgeb. apply Qle_bool_iff. Qed.

Lemma Qgeb_false x y : Qgeb x y = false ↔ (x < y)%Q.
Proof.
  unfold Qgeb. split.
  - intros H. apply Qnot_le_lt. intros Hle.
    apply Qle_bool_iff in Hle. congruence.
  - intros H. destruct (Qle_bool y x) eqn:E; [|done].
    apply Qle_bool_iff in E. exfalso. exact (Qlt_not_le _ _ H E).
Qed.

Section Scorer.
Context {R : Runtime}.
Variable cfg : config.

Lemma scorer_rejects_disjoint_sizes r m :
  row_sizes cfg r ∩ row_sizes cfg m = ∅ →
  calculate_match_confidence_perfect cfg r m = (false, 0%Q, None).
Proof.
  intros H. unfold calculate_match_confidence_perfect.
  rewrite (bool_decide_eq_true_2 _ H). by rewrite !orb_true_r.
Qed.

Lemma scorer_gate_sizes r m :
  row_sizes cfg r ∩ row_sizes cfg m ≠ ∅ →
  bool_decide (row_sizes cfg r = ∅) || bool_decide (row_sizes cfg m = ∅)
  || bool_decide (row_sizes cfg r ∩ row_sizes cfg m = ∅) = false.
Proof.
  intros H. rewrite (bool_decide_eq_false_2 _ H).
  rewrite !bool_decide_eq_false_2; [done | |]; intros E; apply H;
    rewrite E; [apply (right_absorb_L ∅ (∩)) | apply (left_absorb_L ∅ (∩))].
Qed.

(** The cases of the scorer on the attributes it reads off two rows. *)
Lemma scorer_cases (r m : series) :
  let s := fast_fuzzy_match (row_name r) (row_name m) in
  ((row_sizes cfg r ∩ row_sizes cfg m = ∅
    ∨ row_brand r ≠ row_brand m
    ∨ row_color cfg r ≠ row_color cfg m
    ∨ (s < name_score_cutoff cfg)%Q) →
   calculate_match_confidence_perfect cfg r m = (false, 0%Q, None))
  ∧ (row_sizes cfg r ∩ row_sizes cfg m ≠ ∅ →
     row_brand r = row_brand m →
     row_color cfg r = row_color cfg m →
     (name_score_cutoff cfg <= s)%Q →
     ∃ conf det,
       calculate_match_confidence_perfect cfg r m = (true, conf, Some det)
       ∧ (conf == weighted_sum cfg s)%Q
       ∧ brand_score det = 100%Q ∧ color_score det = 100%Q
       ∧ size_score det = 100%Q ∧ name_score det = s).
Proof.
  intros s. split.
  - intros H.
    destruct (decide (row_sizes cfg r ∩ row_sizes cfg m = ∅)) as [E|Hs];
      [by apply scorer_rejects_disjoint_sizes|].
    destruct H as [H|H]; [done|].
    unfold calculate_match_confidence_perfect.
    rewrite (scorer_gate_sizes _ _ Hs).
    destruct (decide (row_brand r = row_brand m)) as [Eb|Nb].
    2: { by rewrite (bool_decide_eq_false_2 _ Nb). }
    rewrite (bool_decide_eq_true_2 _ Eb). cbn [negb].
    destruct H as [H|H]; [done|].
    destruct (decide (row_color cfg r = row_color cfg m)) as [Ec|Nc].
    2: { by rewrite (bool_decide_eq_false_2 _ Nc). }
    rewrite (bool_decide_eq_true_2 _ Ec). cbn [negb].
    destruct H as [H|H]; [done|].
    apply Qgeb_false in H. fold s. by rewrite H.
  - intros Hs Eb Ec Hn.
    unfold calculate_match_confidence_perfect.
    rewrite (scorer_gate_sizes _ _ Hs).
    rewrite (bool_decide_eq_true_2 _ Eb), (bool_decide_eq_true_2 _ Ec).
    cbn [negb]. fold s. apply Qgeb_true in Hn. rewrite Hn. cbn [negb].
    eexists _, _. split; [reflexivity|].
    split; [|done]. unfold weighted_sum. ring.
Qed.

(** The attributes the scorer reads off the rows a matcher hands it are the
    normalized cells of the raw rows. *)
Lemma or_else_self (x : ustr) : or_else (Some x) x = x.
Proof. by destruct x. Qed.

Lemma scorer_row_brand fast r :
  row_brand (scorer_row cfg fast r) = normalize_text_ultra (col_brand r).
Proof.
  destruct fast; [|done]. unfold row_brand, scorer_row. cbn.
  destruct (col_brand r); apply or_else_self.
Qed.

Lemma scorer_row_color fast r :
  row_color cfg (scorer_row cfg fast r)
  = normalize_color_ultra cfg (col_color r).
Proof.
  destruct fast; [|done]. unfold row_color, scorer_row. cbn.
  destruct (col_color r); apply or_else_self.
Qed.

Lemma scorer_row_sizes fast r :
  row_sizes cfg (scorer_row cfg fast r)
  = extract_size_parts_ultra cfg (col_size r).
Proof.
  destruct fast; [|done]. unfold row_sizes, scorer_row. cbn.
  by destruct (col_size r).
Qed.

Lemma scorer_row_name fast r :
  row_name (scorer_row cfg fast r) = compared_name cfg fast r.
Proof.
  destruct fast; [|done]. unfold row_name, scorer_row, compared_name. cbn.
  replace (normalize_text_ultra (fillna (col_name r)))
    with (normalize_text_ultra (col_name r)) by (by destruct (col_name r)).
  by destruct (apply_bidir_synonyms_text cfg _).
Qed.

Lemma fast_fuzzy_match_cases (a b : ustr) :
  fast_fuzzy_match a b
  = if bool_decide (a = [] ∨ b = []) then 0%Q else partial_ratio a b.
Proof.
  unfold fast_fuzzy_match. case_bool_decide as H.
  - by destruct H as [-> | ->]; [|destruct a].
  - destruct a, b; try done; exfalso; apply H; auto.
Qed.

(** C4, as the code has it.  On the rows either matcher hands it, the
    scorer rejects with confidence 0 and no details as soon as the
    size-token sets of the two lines are disjoint, or their normalized
    brands differ, or their normalized colours differ, or the name score
    is below the cutoff; when all four gates pass it accepts with the
    direct weighted sum, brand, colour and size scores being 100.  The
    name score is the partial ratio of the two names only when both are
    non-empty; it is 0 as soon as one of them is empty. *)
Theorem scorer_gates_and_weighted_sum (fast : bool) (r m : raw_row) :
  let rn := compared_name cfg fast r in
  let mn := compared_name cfg fast m in
  let s := if bool_decide (rn = [] ∨ mn = []) then 0%Q
           else partial_ratio rn mn in
  let verdict :=
    calculate_match_confidence_perfect cfg (scorer_row cfg fast r)
      (scorer_row cfg fast m) in
  ((extract_size_parts_ultra cfg (col_size r)
    ∩ extract_size_parts_ultra cfg (col_size m) = ∅
    ∨ normalize_text_ultra (col_brand r) ≠ normalize_text_ultra (col_brand m)
    ∨ normalize_color_ultra cfg (col_color r)
      ≠ normalize_color_ultra cfg (col_color m)
    ∨ (s < name_score_cutoff cfg)%Q) →
   verdict = (false, 0%Q, None))
  ∧ (extract_size_parts_ultra cfg (col_size r)
     ∩ extract_size_parts_ultra cfg (col_size m) ≠ ∅ →
     normalize_text_ultra (col_brand r) = normalize_text_ultra (col_brand m) →
     normalize_color_ultra cfg (col_color r)
     = normalize_color_ultra cfg (col_color m) →
     (name_score_cutoff cfg <= s)%Q →
     ∃ conf det,
       verdict = (true, conf, Some det)
       ∧ (conf == weighted_sum cfg s)%Q
       ∧ brand_score det = 100%Q ∧ color_score det = 100%Q
       ∧ size_score det = 100%Q ∧ name_score det = s).
Proof.
  intros rn mn s verdict.
  pose proof (scorer_cases (scorer_row cfg fast r) (scorer_row cfg fast m))
    as H. cbv zeta in H.
  rewrite !scorer_row_brand, !scorer_row_color, !scorer_row_sizes,
    !scorer_row_name, fast_fuzzy_match_cases in H.
  exact H.
Qed.

End Scorer.

(** C4 fails as stated.  Two lines of the same brand, colour and size
    without a name: the partial ratio of their names is 100, above the
    cutoff, so the scorer as specified accepts them with confidence 100;
    the code gives two empty names the score 0 and rejects the pair, on
    raw rows and on rows with precomputed columns alike. *)
Lemma nameless_lines_fail_the_name_gate :
  let r := text_row "A" "" "black" "M" (QInt 1) in
  let m := text_row "A" "" "black" "M" (QInt 1) in
  partial_ratio (Runtime := reference_runtime)
    (normalize_text_ultra (R := reference_runtime) (col_name r))
    (normalize_text_ultra (R := reference_runtime) (col_name m)) = 100%Q
  ∧ (scorer_spec (R := reference_runtime) default_config r m).1 = true
  ∧ ((scorer_spec (R := reference_runtime) default_config r m).2 == 100)%Q
  ∧ calculate_match_confidence_perfect (R := reference_runtime)
      default_config (bare r) (bare m) = (false, 0%Q, None)
  ∧ calculate_match_confidence_perfect (R := reference_runtime)
      default_config
      (with_pre (r, precompute_row (R := reference_runtime)
                      default_config r))
      (with_pre (m, precompute_row (R := reference_runtime)
                      default_config m)) = (false, 0%Q, None).
Proof. split_and!; vm_compute; reflexivity. Qed.

(** ** Quantities *)

Lemma enumerate_keys {A} (l : list A) : (enumerate l).*1 = seq 0 (length l).
Proof.
  unfold enumerate. rewrite fmap_imap.
  rewrite (imap_ext _ (λ i _, i)) by done.
  rewrite (imap_seq_0 l (λ i, i)). by rewrite list_fmap_id.
Qed.

Lemma lookup_enumerate_map {A} (l : list A) (i : nat) :
  (list_to_map (enumerate l) : gmap nat A) !! i = l !! i.
Proof.
  apply option_eq. intros x.
  rewrite <- elem_of_list_to_map
    by (rewrite enumerate_keys; apply NoDup_seq).
  unfold enumerate. rewrite elem_of_lookup_imap. split.
  - intros (j & y & [= -> ->] & Hj). done.
  - intros Hi. by exists i, x.
Qed.

Lemma quantities_no_column {R : Runtime} df :
  has_qty df = false →
  quantities df = Some (list_to_map (enumerate ((λ _, 1) <$> rows df))).
Proof. unfold quantities. by intros ->. Qed.

Lemma quantities_column {R : Runtime} df :
  has_qty df = true →
  quantities df
  = (λ qs, list_to_map (enumerate qs))
      <$> mapM (λ r, py_int (col_qty r)) (rows df).
Proof. unfold quantities. intros ->. by destruct (mapM _ _). Qed.

Lemma quantities_lookup {R : Runtime} df q i r :
  quantities df = Some q → rows df !! i = Some r →
  q !! i = Some (if has_qty df then default 0 (py_int (col_qty r)) else 1).
Proof.
  intros Hq Hr. destruct (has_qty df) eqn:E.
  - rewrite quantities_column in Hq by done.
    destruct (mapM _ _) as [qs|] eqn:Hm; [|done].
    injection Hq as <-. rewrite lookup_enumerate_map.
    apply mapM_Some in Hm.
    destruct (Forall2_lookup_l _ _ _ _ _ Hm Hr) as (z & Hz & Hp).
    by rewrite Hz, Hp.
  - rewrite quantities_no_column in Hq by done. injection Hq as <-.
    by rewrite lookup_enumerate_map, list_lookup_fmap, Hr.
Qed.

Lemma quantities_is_Some {R : Runtime} df :
  is_Some (quantities df)
  ↔ has_qty df = false
    ∨ Forall (λ r, is_Some (py_int (col_qty r))) (rows df).
Proof.
  destruct (has_qty df) eqn:E.
  - rewrite quantities_column by done. rewrite fmap_is_Some. split.
    + intros [qs Hm]. right. apply mapM_Some in Hm.
      induction Hm; constructor; eauto.
    + intros [?|H]; [done|]. apply mapM_is_Some. done.
  - rewrite quantities_no_column by done. split; eauto.
Qed.

Section Quantities.
Context {R : Runtime}.
Variable cfg : config.

Lemma blocked_is_Some receipt_df matched_df :
  is_Some (fuzzy_match_orders_blocked cfg receipt_df matched_df)
  ↔ is_Some (quantities receipt_df) ∧ is_Some (quantities matched_df).
Proof.
  unfold fuzzy_match_orders_blocked.
  destruct (quantities receipt_df), (quantities matched_df); cbn;
    split; try (intros [[] []]; done); try (intros []; done); eauto.
Qed.

Lemma sequential_is_Some receipt_df matched_df :
  is_Some (fuzzy_match_orders_perfect_sequential cfg receipt_df matched_df)
  ↔ is_Some (quantities receipt_df) ∧ is_Some (quantities matched_df).
Proof.
  unfold fuzzy_match_orders_perfect_sequential.
  destruct (quantities receipt_df), (quantities matched_df); cbn;
    split; try (intros [[] []]; done); try (intros []; done); eauto.
Qed.

(** C3, as the code has it.  A sheet without a quantity column gives every
    line the quantity 1.  A sheet with the column gives every line
    [int(cell)], and a matcher completes exactly when every conversion
    succeeds in both sheets: with an empty or non-numeric cell the run
    stops with the error of [int]. *)
Theorem quantity_default_and_failure (receipt_df matched_df : dataframe) :
  (∀ df q i r, has_qty df = false → quantities df = Some q →
               rows df !! i = Some r → q !! i = Some 1)
  ∧ (∀ df, has_qty df = false → is_Some (quantities df))
  ∧ (∀ df q i r, has_qty df = true → quantities df = Some q →
                 rows df !! i = Some r → q !! i = py_int (col_qty r))
  ∧ (∀ df, has_qty df = true →
           (is_Some (quantities df)
            ↔ Forall (λ r, is_Some (py_int (col_qty r))) (rows df)))
  ∧ (is_Some (fuzzy_match_orders_blocked cfg receipt_df matched_df)
     ↔ is_Some (quantities receipt_df) ∧ is_Some (quantities matched_df))
  ∧ (is_Some (fuzzy_match_orders_perfect_sequential cfg receipt_df matched_df)
     ↔ is_Some (quantities receipt_df) ∧ is_Some (quantities matched_df))
  ∧ py_int QNaN = None.
Proof.
  split_and!.
  - intros df q i r E Hq Hr. rewrite (quantities_lookup _ _ _ _ Hq Hr).
    by rewrite E.
  - intros df E. apply quantities_is_Some. by left.
  - intros df q i r E Hq Hr.
    pose proof (quantities_lookup _ _ _ _ Hq Hr) as Hl. rewrite E in Hl.
    rewrite Hl.
    assert (is_Some (quantities df)) as Hs by eauto.
    apply quantities_is_Some in Hs as [?|Hs]; [congruence|].
    rewrite Forall_forall in Hs.
    destruct (Hs r) as [z Hz]; [by eapply list_elem_of_lookup_2|].
    by rewrite Hz.
  - intros df E. rewrite quantities_is_Some. split; [|eauto].
    intros [?|?]; [congruence|done].
  - apply blocked_is_Some.
  - apply sequential_is_Some.
  - done.
Qed.

End Quantities.

(** C3 fails as stated: an order line with an empty quantity cell, or with
    a text in it, stops both matchers, although the same line with quantity
    1 is matched. *)
Lemma malformed_quantity_aborts :
  py_int (R := reference_runtime)
    (col_qty (text_row "A" "shirt" "black" "M" QNaN)) = None
  ∧ py_int (R := reference_runtime)
      (col_qty (text_row "A" "shirt" "black" "M" (QText (u "two")))) = None
  ∧ fuzzy_match_orders_blocked (R := reference_runtime) default_config
      order_missing_qty catalog_one_line = None
  ∧ fuzzy_match_orders_perfect_sequential (R := reference_runtime)
      default_config order_missing_qty catalog_one_line = None
  ∧ fuzzy_match_orders_blocked (R := reference_runtime) default_config
      order_text_qty catalog_one_line = None
  ∧ fuzzy_match_orders_perfect_sequential (R := reference_runtime)
      default_config order_text_qty catalog_one_line = None
  ∧ (length <$> fuzzy_match_orders_blocked (R := reference_runtime)
       default_config order_qty_one catalog_one_line) = Some 1%nat
  ∧ (length <$> fuzzy_match_orders_perfect_sequential (R := reference_runtime)
       default_config order_qty_one catalog_one_line) = Some 1%nat.
Proof. split_and!; vm_compute; reflexivity. Qed.

(** ** Normalizer *)

Ltac char_facts :=
  unfold is_normal_char, is_keep, is_nonkeep, is_space, is_ascii, lower_char
    in *;
  rewrite ?negb_true_iff, ?negb_false_iff in *;
  rewrite ?orb_true_iff, ?andb_true_iff, ?orb_false_iff, ?andb_false_iff,
    ?N.leb_le, ?N.eqb_eq, ?N.leb_gt, ?N.eqb_neq, ?N.ltb_lt, ?N.ltb_ge in *.

Lemma keep_not_space c : is_keep c = true → is_space c = false.
Proof.
  intros Hk. apply not_true_is_false. intros Hs. char_facts. lia.
Qed.

Lemma spaced_weaken b s : spaced b s = true → spaced false s = true.
Proof.
  destruct s as [|c s]; [done|]. cbn. destruct (is_keep c); [done|].
  rewrite !andb_true_iff. intros [[-> _] ->]. done.
Qed.

Lemma spaced_normal b s : spaced b s = true → forallb is_normal_char s = true.
Proof.
  revert b. induction s as [|c s IH]; intros b; [done|]. cbn.
  unfold is_normal_char at 1. destruct (is_keep c); cbn.
  - apply IH.
  - rewrite !andb_true_iff. intros [[-> _] H]. eauto.
Qed.

Lemma sub_nonkeep_spaced b s :
  spaced b (sub_runs_from is_nonkeep [32%N] b s) = true.
Proof.
  revert b. induction s as [|c s IH]; intros b; [done|]. cbn.
  unfold is_nonkeep at 1. destruct (is_keep c) eqn:Hc; cbn.
  - by rewrite Hc.
  - destruct b; cbn; [apply IH|]. apply IH.
Qed.

Lemma sub_space_spaced b s :
  spaced b s = true → sub_runs_from is_space [32%N] b s = s.
Proof.
  revert b. induction s as [|c s IH]; intros b; [done|]. cbn.
  destruct (is_keep c) eqn:Hc.
  - rewrite (keep_not_space _ Hc). intros H. f_equal. by apply IH.
  - rewrite !andb_true_iff. intros [[Hc32 Hb] H].
    apply N.eqb_eq in Hc32 as ->. apply negb_true_iff in Hb as ->. cbn.
    f_equal. by apply IH.
Qed.

Lemma sub_nonkeep_fixed b s :
  spaced b s = true → sub_runs_from is_nonkeep [32%N] b s = s.
Proof.
  revert b. induction s as [|c s IH]; intros b; [done|]. cbn.
  unfold is_nonkeep at 1. destruct (is_keep c) eqn:Hc; cbn.
  - intros H. f_equal. by apply IH.
  - rewrite !andb_true_iff. intros [[Hc32 Hb] H].
    apply N.eqb_eq in Hc32 as ->. apply negb_true_iff in Hb as ->. cbn.
    f_equal. by apply IH.
Qed.

Lemma lstrip_spaced b s : spaced b s = true → spaced false (lstrip s) = true.
Proof.
  revert b. induction s as [|c s IH]; intros b; [done|].
  intros H. cbn [lstrip]. destruct (is_space c) eqn:Hs.
  - cbn in H. destruct (is_keep c) eqn:Hc.
    + by rewrite (keep_not_space _ Hc) in Hs.
    + apply andb_true_iff in H as [_ H]. eauto.
  - by eapply spaced_weaken.
Qed.

Lemma rstrip_spaced b s : spaced b s = true → spaced b (rstrip s) = true.
Proof.
  revert b. induction s as [|c s IH]; intros b; [done|].
  intros H. cbn [rstrip]. destruct (is_space c && _); [done|].
  cbn in *. destruct (is_keep c); [by apply IH|].
  apply andb_true_iff in H as [-> H]. cbn. by apply IH.
Qed.

Lemma rstrip_idem s : rstrip (rstrip s) = rstrip s.
Proof.
  induction s as [|c s IH]; [done|]. cbn [rstrip].
  destruct (is_space c && negb (nonempty (rstrip s))) eqn:E; [done|].
  cbn [rstrip]. by rewrite IH, E.
Qed.

Lemma lstrip_head s :
  match lstrip s with [] => True | c :: _ => is_space c = false end.
Proof.
  induction s as [|c s IH]; [done|]. cbn. by destruct (is_space c) eqn:E.
Qed.

Lemma lstrip_rstrip_fixed s :
  match s with [] => True | c :: _ => is_space c = false end →
  lstrip (rstrip s) = rstrip s.
Proof.
  destruct s as [|c s]; [done|]. intros Hc. cbn [rstrip]. rewrite Hc. cbn.
  by rewrite Hc.
Qed.

Lemma strip_idem s : strip (strip s) = strip s.
Proof.
  unfold strip. rewrite (lstrip_rstrip_fixed (lstrip s)) by apply lstrip_head.
  apply rstrip_idem.
Qed.

Lemma strip_spaced b s : spaced b s = true → spaced false (strip s) = true.
Proof. intros H. unfold strip. eapply rstrip_spaced, lstrip_spaced, H. Qed.

Section Normalizer.
Context {R : Runtime}.

(** The result of [normalize_text_ultra] is made of words of kept
    characters separated by single spaces, without a space at either
    end. *)
Lemma normalize_text_shape (x : cell) :
  spaced false (normalize_text_ultra x) = true
  ∧ strip (normalize_text_ultra x) = normalize_text_ultra x.
Proof.
  unfold normalize_text_ultra. split.
  - eapply strip_spaced. unfold sub_runs at 1.
    rewrite sub_space_spaced; apply sub_nonkeep_spaced.
  - apply strip_idem.
Qed.

(** C8. Text normalization is idempotent: normalizing the result of a
    normalization returns it unchanged, whatever the input cell. *)
Theorem normalize_text_idempotent (x : cell) :
  fixes_normal_text nfkc → fixes_normal_text lower →
  normalize_text_ultra (CStr (normalize_text_ultra x))
  = normalize_text_ultra x.
Proof.
  intros Hnfkc Hlower.
  destruct (normalize_text_shape x) as [Hsp Hst].
  set (o := normalize_text_ultra x) in *.
  unfold normalize_text_ultra at 1. cbn [to_str].
  rewrite Hst, Hnfkc, Hlower by (by eapply spaced_normal).
  unfold sub_runs.
  by rewrite (sub_space_spaced _ _ Hsp), (sub_nonkeep_fixed _ _ Hsp),
    (sub_space_spaced _ _ Hsp).
Qed.

End Normalizer.

Lemma normal_char_lower c : is_normal_char c = true → lower_char c = c.
Proof.
  intros H. unfold lower_char.
  destruct ((65 <=? c)%N && (c <=? 90)%N) eqn:E; [|done].
  exfalso. char_facts. lia.
Qed.

Lemma reference_lower_fixes_normal_text :
  fixes_normal_text (fmap lower_char).
Proof.
  intros s. induction s as [|c s IH]; [done|]. cbn.
  rewrite andb_true_iff. intros [Hc Hs].
  change (lower_char c :: (lower_char <$> s) = c :: s).
  f_equal; [by apply normal_char_lower | by apply IH].
Qed.

Lemma normalize_text_idempotent_witness :
  normalize_text_ultra (R := reference_runtime)
    (CStr (normalize_text_ultra (R := reference_runtime)
             (CStr (u "  Ball-MTM (New)  "))))
  = normalize_text_ultra (R := reference_runtime)
      (CStr (u "  Ball-MTM (New)  ")).
Proof.
  apply (normalize_text_idempotent (R := reference_runtime)).
  - intros s _. reflexivity.
  - apply reference_lower_fixes_normal_text.
Defined.

(** ** Size tokenizer *)

Ltac eval_closed f :=
  repeat match goal with
         | |- context [f ?x] =>
             let v := eval vm_compute in (f x) in
             progress change (f x) with v
         end.

Lemma span_nonparen_app (s rest : ustr) (p : N) :
  forallb (λ c, negb (is_paren c)) s = true → is_paren p = true →
  span (λ c, negb (is_paren c)) (s ++ p :: rest) = (s, p :: rest).
Proof.
  intros Hs Hp. induction s as [|c s IH]; cbn.
  - by rewrite Hp.
  - cbn in Hs. apply andb_true_iff in Hs as [-> Hs]. by rewrite IH.
Qed.

(** A token [outside(inside)] with non-empty, parenthesis-free content on
    both sides matches the pattern, with these two groups. *)
Lemma match_parens_shape (outside inside : ustr) :
  nonempty outside = true → nonempty inside = true →
  forallb (λ c, negb (is_paren c)) outside = true →
  forallb (λ c, negb (is_paren c)) inside = true →
  match_parens (outside ++ 40%N :: inside ++ [41%N]) = Some (outside, inside).
Proof.
  intros No Ni Ho Hi. unfold match_parens.
  rewrite span_nonparen_app by done.
  rewrite span_nonparen_app by done.
  rewrite No, Ni. cbn. by rewrite bool_decide_eq_true_2.
Qed.

Section Tokenizer.
Context {R : Runtime}.
Variable cfg : config.

Lemma add_value_comm (acc : gset ustr) (v w : ustr) :
  add_value cfg (add_value cfg acc v) w
  = add_value cfg (add_value cfg acc w) v.
Proof.
  unfold add_value.
  destruct (nonempty (filter _ v)), (nonempty (filter _ w)); try done.
  rewrite !(assoc_L (∪)). f_equal. apply (comm_L (∪)).
Qed.

Lemma foldl_add_value_perm (l1 l2 : list ustr) (acc : gset ustr) :
  l1 ≡ₚ l2 → foldl (add_value cfg) acc l1 = foldl (add_value cfg) acc l2.
Proof.
  intros Hp. revert acc.
  induction Hp as [|x l1 l2 _ IH|x y l|l1 l2 l3 _ IH1 _ IH2]; intros acc;
    cbn.
  - done.
  - apply IH.
  - by rewrite add_value_comm.
  - by rewrite IH1.
Qed.

(** The loop over a set of values adds the same tokens in whatever order
    the set is visited. *)
Lemma foldl_add_value_elements (X : gset ustr) (acc : gset ustr) :
  enumerates_sets set_iter →
  foldl (add_value cfg) acc (set_iter X)
  = foldl (add_value cfg) acc (elements X).
Proof. intros H. apply foldl_add_value_perm, H. Qed.

End Tokenizer.

Section TokenizerExamples.
Context {R : Runtime}.
Hypothesis Hnfkc : fixes_ascii nfkc.
Hypothesis Hlower : lowers_ascii lower.
Hypothesis Hiter : enumerates_sets set_iter.

Ltac run_tokenizer :=
  unfold extract_size_parts_ultra; cbn [to_str];
  rewrite Hnfkc by (vm_compute; reflexivity);
  rewrite Hlower by (vm_compute; reflexivity);
  eval_closed split_ws; cbn [foldl]; unfold add_token; cbv zeta;
  eval_closed strip; cbn [nonempty];
  rewrite ?(foldl_add_value_elements _ _ _ Hiter);
  eval_closed (@elements ustr (gset ustr) _); cbn [foldl];
  unfold add_value, _normalize_size_token; cbv zeta;
  rewrite ?Hlower by (vm_compute; reflexivity);
  vm_compute; reflexivity.


End TokenizerExamples.

Lemma reference_nfkc_fixes_ascii : fixes_ascii (nfkc (Runtime := reference_runtime)).
Proof. intros s _. reflexivity. Qed.

Lemma reference_lower_lowers_ascii :
  lowers_ascii (lower (Runtime := reference_runtime)).
Proof. intros s _. reflexivity. Qed.

Lemma reference_iter_enumerates :
  enumerates_sets (set_iter (Runtime := reference_runtime)).
Proof. intros X. reflexivity. Qed.

Lemma reversed_iter_enumerates :
  enumerates_sets (set_iter (Runtime := reversed_runtime)).
Proof. intros X. cbn. apply reverse_Permutation. Qed.


(** ** Blocking index *)

Lemma enumerate_snoc {A} (l : list A) (x : A) :
  enumerate (l ++ [x]) = enumerate l ++ [(length l, x)].
Proof.
  unfold enumerate. rewrite imap_app. cbn. by rewrite Nat.add_0_r.
Qed.

Lemma positions_snoc {A} (P : A → bool) (l : list A) (x : A) :
  positions P (l ++ [x]) = positions P l ++ (if P x then [length l] else []).
Proof.
  unfold positions. rewrite enumerate_snoc, filter_app, fmap_app.
  f_equal. rewrite filter_cons. cbn. destruct (P x); cbn.
  - by rewrite decide_True.
  - by rewrite decide_False.
Qed.

Lemma elem_of_positions {A} (P : A → bool) (l : list A) (j : nat) :
  j ∈ positions P l ↔ ∃ x, l !! j = Some x ∧ P x = true.
Proof.
  unfold positions. rewrite list_elem_of_fmap. split.
  - intros ([i x] & -> & Hin). apply list_elem_of_filter in Hin as [HP Hin].
    unfold enumerate in Hin. apply elem_of_lookup_imap in Hin
      as (i' & x' & [= -> ->] & Hl). eauto.
  - intros (x & Hl & HP). exists (j, x). split; [done|].
    apply list_elem_of_filter. split; [done|].
    unfold enumerate. apply elem_of_lookup_imap. eauto.
Qed.

Lemma dd_append_lookup `{Countable K} (k k' : K) (v : nat)
    (d : gmap K (list nat)) :
  default [] (dd_append k v d !! k')
  = default [] (d !! k') ++ (if decide (k = k') then [v] else []).
Proof.
  unfold dd_append. destruct (decide (k = k')) as [->|Hne].
  - by rewrite lookup_insert_eq.
  - rewrite lookup_insert_ne by done. by rewrite app_nil_r.
Qed.

Section BlockingIndex.
Context {R : Runtime}.
Variable cfg : config.
Hypothesis Hiter : enumerates_sets set_iter.

Lemma set_iter_NoDup (X : gset ustr) : NoDup (set_iter X).
Proof. rewrite (Hiter X). apply NoDup_elements. Qed.

Lemma elem_of_set_iter (X : gset ustr) (s : ustr) : s ∈ set_iter X ↔ s ∈ X.
Proof. rewrite (Hiter X). apply elem_of_elements. Qed.

Lemma set_iter_empty : set_iter ∅ = [].
Proof.
  apply Permutation_nil_r. rewrite (Hiter ∅). by rewrite elements_empty.
Qed.

Lemma build_snoc (M : list (raw_row * precomputed)) row :
  _build_candidate_index (M ++ [row])
  = index_row (_build_candidate_index M) (length M, row).
Proof.
  unfold _build_candidate_index. by rewrite enumerate_snoc, foldl_app.
Qed.

Lemma size_loop_lookup (b c : ustr) (midx : nat) (l : list ustr)
    (d : gmap (ustr * ustr * ustr) (list nat)) (k : ustr * ustr * ustr) :
  NoDup l →
  default [] (foldl (λ d s, dd_append (b, c, s) midx d) d l !! k)
  = default [] (d !! k)
    ++ (if bool_decide (k.1.1 = b ∧ k.1.2 = c ∧ k.2 ∈ l) then [midx]
        else []).
Proof.
  intros Hnd. revert d. induction Hnd as [|s l Hs Hnd IH]; intros d.
  - cbn. rewrite bool_decide_eq_false_2; [by rewrite app_nil_r|].
    intros (_ & _ & Hin). by apply not_elem_of_nil in Hin.
  - cbn [foldl]. rewrite IH, dd_append_lookup, <- (assoc_L (++)). f_equal.
    destruct k as [[b' c'] s']. cbn.
    destruct (decide ((b, c, s) = (b', c', s'))) as [[= <- <- <-]|Hne].
    + rewrite bool_decide_eq_false_2 by (intros (_ & _ & ?); done).
      rewrite bool_decide_eq_true_2; [done|]. split_and!; [done..|].
      apply list_elem_of_here.
    + cbn. erewrite bool_decide_ext; [reflexivity|]. split.
      * intros (-> & -> & Hin). split_and!; [done..|]. by right.
      * intros (-> & -> & Hin). split_and!; [done..|].
        apply elem_of_cons in Hin as [->|Hin]; [done|done].
Qed.

(** What the three dictionaries hold: under each key the labels of the
    catalogue lines with that brand, colour and size token, in catalogue
    order. *)
Lemma idx_b_lookup (M : list (raw_row * precomputed)) (b : ustr) :
  default [] (idx_b (_build_candidate_index M) !! b) = tier_b M b.
Proof.
  induction M as [|row M IH] using rev_ind; [done|].
  rewrite build_snoc. unfold tier_b. rewrite positions_snoc.
  fold (tier_b M b). rewrite <- IH. unfold index_row. cbn [idx_b].
  rewrite dd_append_lookup. f_equal.
  destruct (decide (brand_n row.2 = b)) as [E|E].
  - by rewrite bool_decide_eq_true_2.
  - by rewrite bool_decide_eq_false_2.
Qed.

Lemma idx_bc_lookup (M : list (raw_row * precomputed)) (b c : ustr) :
  default [] (idx_bc (_build_candidate_index M) !! (b, c)) = tier_bc M b c.
Proof.
  induction M as [|row M IH] using rev_ind; [done|].
  rewrite build_snoc. unfold tier_bc. rewrite positions_snoc.
  fold (tier_bc M b c). rewrite <- IH. unfold index_row. cbn [idx_bc].
  rewrite dd_append_lookup. f_equal.
  destruct (decide ((brand_n row.2, color_n row.2) = (b, c)))
    as [[= <- <-]|E].
  - by rewrite bool_decide_eq_true_2.
  - rewrite bool_decide_eq_false_2; [done|]. intros [<- <-]. done.
Qed.

Lemma idx_bcs_lookup (M : list (raw_row * precomputed)) (b c s : ustr) :
  default [] (idx_bcs (_build_candidate_index M) !! (b, c, s))
  = tier_bcs M b c s.
Proof.
  induction M as [|row M IH] using rev_ind; [done|].
  rewrite build_snoc. unfold tier_bcs. rewrite positions_snoc.
  fold (tier_bcs M b c s). rewrite <- IH. unfold index_row. cbn [idx_bcs].
  destruct (bool_decide (sizes_s row.2 = ∅)) eqn:Hempty.
  - apply bool_decide_eq_true_1 in Hempty.
    rewrite bool_decide_eq_false_2; [by rewrite app_nil_r|].
    intros (_ & _ & Hin). rewrite Hempty in Hin.
    by apply not_elem_of_empty in Hin.
  - rewrite size_loop_lookup by apply set_iter_NoDup. f_equal. cbn.
    erewrite bool_decide_ext; [done|].
    cbn. rewrite elem_of_set_iter.
    split; intros (? & ? & ?); split_and!; done.
Qed.

Lemma retrieve_candidates_eq (M : list (raw_row * precomputed))
    (mq : gmap nat Z) (b c : ustr) (sizes : gset ustr) :
  retrieve_candidates (_build_candidate_index M) mq b c sizes
  = in_stock mq
      (let t1 := flat_map (tier_bcs M b c) (set_iter sizes) in
       if nonempty t1 then t1
       else if nonempty (tier_bc M b c) then tier_bc M b c
            else tier_b M b).
Proof.
  unfold retrieve_candidates, in_stock.
  rewrite idx_bc_lookup, idx_b_lookup.
  rewrite (flat_map_ext _ (tier_bcs M b c))
    by (intros; apply idx_bcs_lookup).
  cbv zeta.
  assert ((if bool_decide (sizes = ∅) then []
           else flat_map (tier_bcs M b c) (set_iter sizes))
          = flat_map (tier_bcs M b c) (set_iter sizes)) as ->.
  { destruct (bool_decide (sizes = ∅)) eqn:Hempty; [|done].
    apply bool_decide_eq_true_1 in Hempty as ->. by rewrite set_iter_empty. }
  destruct (flat_map _ _); cbn; [|done].
  by destruct (tier_bc M b c).
Qed.

(** C2, as the code has it.  Retrieval takes the first tier that is
    non-empty before the stock filter (the union over the size tokens,
    then brand and colour, then brand) and filters that tier by stock;
    when every line of the tier taken is out of stock the result is
    empty, and no later tier is consulted. *)
Theorem retrieve_candidates_tiers (M : list (raw_row * precomputed))
    (mq : gmap nat Z) (b c : ustr) (sizes : gset ustr) :
  let ix := _build_candidate_index M in
  let t1 := flat_map (tier_bcs M b c) (set_iter sizes) in
  (nonempty t1 = true →
   retrieve_candidates ix mq b c sizes = in_stock mq t1)
  ∧ (nonempty t1 = false → nonempty (tier_bc M b c) = true →
     retrieve_candidates ix mq b c sizes = in_stock mq (tier_bc M b c))
  ∧ (nonempty t1 = false → nonempty (tier_bc M b c) = false →
     retrieve_candidates ix mq b c sizes = in_stock mq (tier_b M b))
  ∧ (nonempty t1 = true → in_stock mq t1 = [] →
     retrieve_candidates ix mq b c sizes = []).
Proof.
  intros ix t1. unfold ix. rewrite retrieve_candidates_eq. fold t1.
  cbv zeta. split_and!.
  - by intros ->.
  - by intros -> ->.
  - by intros -> ->.
  - by intros -> ->.
Qed.

End BlockingIndex.

(** C2 fails as stated.  The only catalogue line of size M is sold out:
    the first tier is non-empty before the stock filter and empty after it.
    The code returns no candidate; retrieval as specified falls through to
    the brand and colour tier and returns line 1. *)
Lemma retrieval_does_not_fall_through :
  let M := _precompute_normalized_columns (R := reference_runtime)
             default_config catalog_sold_out_M in
  let c := normalize_color_ultra (R := reference_runtime) default_config
             (CStr (u "black")) in
  quantities (R := reference_runtime) catalog_sold_out_M
  = Some (stock_of [0; 1])
  ∧ retrieve_candidates (R := reference_runtime)
      (_build_candidate_index (R := reference_runtime) M)
      (stock_of [0; 1]) (u "a") c {[ u "m" ]} = []
  ∧ candidates_spec (R := reference_runtime) M (stock_of [0; 1]) (u "a") c
      {[ u "m" ]} = [1%nat].
Proof. split_and!; vm_compute; reflexivity. Qed.

Lemma retrieve_candidates_tiers_witness :
  let M := _precompute_normalized_columns (R := reference_runtime)
             default_config catalog_sold_out_M in
  let c := normalize_color_ultra (R := reference_runtime) default_config
             (CStr (u "black")) in
  retrieve_candidates (R := reference_runtime)
    (_build_candidate_index (R := reference_runtime) M)
    (stock_of [0; 1]) (u "a") c {[ u "m" ]} = [].
Proof.
  intros M c.
  apply (retrieve_candidates_tiers (R := reference_runtime)
           reference_iter_enumerates M (stock_of [0; 1]) (u "a") c
           {[ u "m" ]}); vm_compute; reflexivity.
Defined.

(** ** Greedy assignment: quantity conservation *)

Lemma units_of_order_app i out new :
  units_of_order i (out ++ new)
  = units_of_order i out + units_of_order i new.
Proof. unfold units_of_order. rewrite filter_app, length_app. lia. Qed.

Lemma units_of_catalog_line_app j out new :
  units_of_catalog_line j (out ++ new)
  = units_of_catalog_line j out + units_of_catalog_line j new.
Proof. unfold units_of_catalog_line. rewrite filter_app, length_app. lia. Qed.

Lemma filter_replicate {A} (P : A → Prop) `{!∀ x, Decision (P x)} n (x : A) :
  filter P (replicate n x) = if decide (P x) then replicate n x else [].
Proof.
  induction n as [|n IH]; [by destruct (decide (P x))|].
  change (replicate (S n) x) with (x :: replicate n x).
  rewrite filter_cons, IH. by destruct (decide (P x)).
Qed.

Lemma units_of_order_replicate i n mr :
  units_of_order i (replicate n mr)
  = if decide (receipt_idx mr = i) then Z.of_nat n else 0.
Proof.
  unfold units_of_order. rewrite filter_replicate.
  destruct (decide _); [by rewrite length_replicate | done].
Qed.

Lemma units_of_catalog_line_replicate j n mr :
  units_of_catalog_line j (replicate n mr)
  = if decide (matched_idx mr = j) then Z.of_nat n else 0.
Proof.
  unfold units_of_catalog_line. rewrite filter_replicate.
  destruct (decide _); [by rewrite length_replicate | done].
Qed.

Lemma getitem_insert (d : gmap nat Z) k k' v :
  getitem (<[ k := v ]> d) k' = if decide (k = k') then v else getitem d k'.
Proof.
  unfold getitem. destruct (decide (k = k')) as [->|Hne].
  - by rewrite lookup_insert_eq.
  - by rewrite lookup_insert_ne.
Qed.

Lemma getitem_Some (d : gmap nat Z) k v : d !! k = Some v → getitem d k = v.
Proof. unfold getitem. by intros ->. Qed.

Lemma allocate_conserves rq0 mq0 r_idx results remain st :
  conserves rq0 mq0 st → receipt_qty st !! r_idx = Some remain →
  conserves rq0 mq0 (allocate r_idx results remain st).
Proof.
  revert remain st.
  induction results as [|[[m_idx conf] det] rest IH]; intros remain st Hc Hr;
    [done|].
  cbn [allocate]. destruct (remain <=? 0) eqn:Hrem; [done|].
  destruct (getitem (matched_qty st) m_idx <=? 0) eqn:Hm; [by apply IH|].
  apply Z.leb_gt in Hrem, Hm.
  set (q := Z.min remain (getitem (matched_qty st) m_idx)).
  assert (0 < q ≤ remain ∧ q ≤ getitem (matched_qty st) m_idx) as Hq
    by (unfold q; lia).
  pose proof (getitem_Some _ _ _ Hr) as Hg.
  destruct Hc as (Ho & Hcat & Hdom).
  apply IH; cbn.
  - split_and!; cbn.
    + intros i. rewrite units_of_order_app, units_of_order_replicate.
      rewrite getitem_insert. cbn. specialize (Ho i).
      destruct (decide (r_idx = i)) as [->|]; lia.
    + intros j. rewrite units_of_catalog_line_app,
        units_of_catalog_line_replicate.
      rewrite getitem_insert. cbn. specialize (Hcat j).
      destruct (decide (m_idx = j)) as [->|]; lia.
    + intros i Hi. destruct (decide (r_idx = i)) as [->|Hne].
      * rewrite lookup_insert_eq. eauto.
      * rewrite lookup_insert_ne by done. eauto.
  - rewrite lookup_insert_eq. by rewrite Hg.
Qed.

Lemma foldl_invariant {A B} (P : A → Prop) (f : A → B → A) (l : list B) a :
  (∀ a x, x ∈ l → P a → P (f a x)) → P a → P (foldl f a l).
Proof.
  revert a. induction l as [|x l IH]; intros a Hf Ha; [done|].
  cbn. apply IH.
  - intros a' y Hy. apply Hf. by right.
  - apply Hf; [by left | done].
Qed.

Lemma elem_of_enumerate {A} (l : list A) i x :
  (i, x) ∈ enumerate l ↔ l !! i = Some x.
Proof.
  unfold enumerate. rewrite elem_of_lookup_imap. split.
  - by intros (j & y & [= -> ->] & Hj).
  - intros H. by exists i, x.
Qed.

Lemma remain_lookup (rq0 rq : gmap nat Z) r_idx :
  (∀ i, is_Some (rq0 !! i) → is_Some (rq !! i)) → is_Some (rq0 !! r_idx) →
  rq !! r_idx = Some (default 1 (rq !! r_idx)).
Proof. intros Hdom Hs. destruct (Hdom _ Hs) as [q ->]. done. Qed.

Section Conservation.
Context {R : Runtime}.
Variable cfg : config.

Lemma blocked_step_conserves rq0 mq0 M ix st r_idx r_row :
  conserves rq0 mq0 st → is_Some (rq0 !! r_idx) →
  conserves rq0 mq0 (blocked_step cfg M ix st (r_idx, r_row)).
Proof.
  intros Hc Hs. unfold blocked_step.
  repeat (match goal with |- conserves _ _ (if ?b then _ else _) =>
                            destruct b end; try done).
  apply allocate_conserves; [done|].
  eapply remain_lookup; [apply Hc | done].
Qed.

Lemma sequential_step_conserves rq0 mq0 M st r_idx r_row :
  conserves rq0 mq0 st → is_Some (rq0 !! r_idx) →
  conserves rq0 mq0 (sequential_step cfg M st (r_idx, r_row)).
Proof.
  intros Hc Hs. unfold sequential_step.
  destruct (_ <=? 0); [done|].
  apply allocate_conserves; [done|].
  eapply remain_lookup; [apply Hc | done].
Qed.

Lemma conserves_init rq0 mq0 :
  conserves rq0 mq0
    {| matched_results := []; receipt_qty := rq0; matched_qty := mq0 |}.
Proof. split_and!; cbn; [done..|]. by intros. Qed.

Lemma quantities_dom df q i (x : raw_row) :
  quantities df = Some q → rows df !! i = Some x → is_Some (q !! i).
Proof. intros Hq Hx. rewrite (quantities_lookup _ _ _ _ Hq Hx). eauto. Qed.

Lemma blocked_conserves receipt_df matched_df rq mq results :
  quantities receipt_df = Some rq → quantities matched_df = Some mq →
  fuzzy_match_orders_blocked cfg receipt_df matched_df = Some results →
  ∃ st, conserves rq mq st ∧ matched_results st = results.
Proof.
  intros Hrq Hmq. unfold fuzzy_match_orders_blocked.
  rewrite Hrq, Hmq. cbn. intros [= <-]. eexists. split; [|done].
  apply foldl_invariant; [|apply conserves_init].
  intros st [i row] Hin Hc. apply blocked_step_conserves; [done|].
  apply elem_of_enumerate in Hin.
  unfold _precompute_normalized_columns in Hin.
  rewrite list_lookup_fmap in Hin.
  destruct (rows receipt_df !! i) as [x|] eqn:Hx; [|done].
  by eapply quantities_dom.
Qed.

Lemma sequential_conserves receipt_df matched_df rq mq results :
  quantities receipt_df = Some rq → quantities matched_df = Some mq →
  fuzzy_match_orders_perfect_sequential cfg receipt_df matched_df
  = Some results →
  ∃ st, conserves rq mq st ∧ matched_results st = results.
Proof.
  intros Hrq Hmq. unfold fuzzy_match_orders_perfect_sequential.
  rewrite Hrq, Hmq. cbn. intros [= <-]. eexists. split; [|done].
  apply foldl_invariant; [|apply conserves_init].
  intros st [i row] Hin Hc. apply sequential_step_conserves; [done|].
  apply elem_of_enumerate in Hin. by eapply quantities_dom.
Qed.

(** C1. In a completed run of either matcher, the records that reference
    an order line are at most its original quantity, and the records that
    reference a catalogue line are at most its original stock.  The
    original quantities are those of the quantity dicts; the bound holds
    with a negative quantity read as none. *)
Theorem quantity_conservation receipt_df matched_df rq mq results :
  quantities receipt_df = Some rq → quantities matched_df = Some mq →
  fuzzy_match_orders_blocked cfg receipt_df matched_df = Some results
  ∨ fuzzy_match_orders_perfect_sequential cfg receipt_df matched_df
    = Some results →
  (∀ i, units_of_order i results ≤ Z.max 0 (getitem rq i)
        ∧ (0 ≤ getitem rq i → units_of_order i results ≤ getitem rq i))
  ∧ (∀ j, units_of_catalog_line j results ≤ Z.max 0 (getitem mq j)
          ∧ (0 ≤ getitem mq j →
             units_of_catalog_line j results ≤ getitem mq j)).
Proof.
  intros Hrq Hmq Hrun.
  assert (∃ st, conserves rq mq st ∧ matched_results st = results)
    as (st & (Ho & Hc & _) & <-).
  { destruct Hrun; [by eapply blocked_conserves
                   | by eapply sequential_conserves]. }
  split.
  - intros i. specialize (Ho i). lia.
  - intros j. specialize (Hc j). lia.
Qed.

End Conservation.

Lemma quantity_conservation_witness :
  let results :=
    default [] (fuzzy_match_orders_blocked (R := reference_runtime)
                  default_config scenario_order scenario_catalog) in
  (∀ i, units_of_order i results ≤ Z.max 0 (getitem (stock_of [2]) i)
        ∧ (0 ≤ getitem (stock_of [2]) i →
           units_of_order i results ≤ getitem (stock_of [2]) i))
  ∧ (∀ j, units_of_catalog_line j results
          ≤ Z.max 0 (getitem (stock_of [1; 5]) j)
          ∧ (0 ≤ getitem (stock_of [1; 5]) j →
             units_of_catalog_line j results
             ≤ getitem (stock_of [1; 5]) j)).
Proof.
  apply (quantity_conservation (R := reference_runtime) default_config
           scenario_order scenario_catalog (stock_of [2]) (stock_of [1; 5]));
    [reflexivity | reflexivity | left; vm_compute; reflexivity].
Defined.

(** ** Stable sort: permutation *)

Lemma insert_desc_perm {A} (key : A → Q) x (l : list A) :
  insert_desc key x l ≡ₚ x :: l.
Proof.
  induction l as [|y l IH]; [done|]. cbn.
  destruct (Qle_bool _ _); [done|]. rewrite IH. apply Permutation_swap.
Qed.

Lemma sort_desc_perm {A} (key : A → Q) (l : list A) : sort_desc key l ≡ₚ l.
Proof.
  induction l as [|x l IH]; [done|]. cbn.
  by rewrite insert_desc_perm, IH.
Qed.

Lemma elem_of_sort_desc {A} (key : A → Q) (l : list A) x :
  x ∈ sort_desc key l ↔ x ∈ l.
Proof. by rewrite sort_desc_perm. Qed.

(** ** Provenance of the emitted records *)

Lemma allocate_results (P : MatchResult → Prop) r_idx results remain st :
  Forall P (matched_results st) →
  (∀ m conf det, (m, conf, det) ∈ results →
     P {| receipt_idx := r_idx; matched_idx := m; confidence_score := conf;
          match_details := det |}) →
  Forall P (matched_results (allocate r_idx results remain st)).
Proof.
  revert remain st.
  induction results as [|[[m_idx conf] det] rest IH]; intros remain st Hst HP;
    [done|].
  cbn [allocate]. destruct (remain <=? 0); [done|].
  assert (∀ m c d, (m, c, d) ∈ rest →
            P {| receipt_idx := r_idx; matched_idx := m;
                 confidence_score := c; match_details := d |}) as HP'
    by (intros; apply HP; by right).
  destruct (_ <=? 0); [by apply IH|].
  apply IH; [|done]. cbn. apply Forall_app. split; [done|].
  apply Forall_replicate, HP. by left.
Qed.

Section Provenance.
Context {R : Runtime}.
Variable cfg : config.

Lemma blocked_step_accepted M ix st e :
  Forall (accepted_by_scorer cfg) (matched_results st) →
  Forall (accepted_by_scorer cfg)
    (matched_results (blocked_step cfg M ix st e)).
Proof.
  intros Hst. destruct e as [r_idx r_row]. unfold blocked_step.
  repeat (match goal with
          | |- Forall _ (matched_results (if ?b then _ else _)) =>
              destruct b
          end; try done).
  apply allocate_results; [done|].
  intros m conf det Hin. apply elem_of_sort_desc in Hin.
  unfold blocked_results in Hin.
  apply list_elem_of_omap in Hin as (t & _ & Ht).
  destruct (_ !! t.2) as [m_idx|]; [|done]. cbn in Ht.
  destruct (M !! m_idx) as [m_row|]; [|done]. cbn in Ht.
  destruct (calculate_match_confidence_perfect _ _ _) as [[ok c] d] eqn:E.
  destruct ok; [|done]. injection Ht as <- <- <-.
  by exists (with_pre r_row), (with_pre m_row).
Qed.

Lemma sequential_step_accepted M st e :
  Forall (accepted_by_scorer cfg) (matched_results st) →
  Forall (accepted_by_scorer cfg)
    (matched_results (sequential_step cfg M st e)).
Proof.
  intros Hst. destruct e as [r_idx r_row]. unfold sequential_step.
  destruct (_ <=? 0); [done|].
  apply allocate_results; [done|].
  intros m conf det Hin. apply elem_of_sort_desc in Hin.
  unfold sequential_candidates in Hin.
  apply list_elem_of_omap in Hin as (e & _ & Ht).
  destruct (calculate_match_confidence_perfect _ _ _) as [[ok c] d] eqn:E.
  destruct ok; [|done]. cbn in Ht. destruct (bool_decide _); [|done].
  injection Ht as <- <- <-.
  by exists (bare r_row), (bare e.2).
Qed.

(** Every record either matcher emits carries a confidence that the
    scorer returned on acceptance. *)
Lemma results_accepted receipt_df matched_df results :
  fuzzy_match_orders_blocked cfg receipt_df matched_df = Some results
  ∨ fuzzy_match_orders_perfect_sequential cfg receipt_df matched_df
    = Some results →
  Forall (accepted_by_scorer cfg) results.
Proof.
  intros [H|H].
  - unfold fuzzy_match_orders_blocked in H.
    destruct (quantities receipt_df), (quantities matched_df); try done.
    cbn in H. injection H as <-.
    apply (foldl_invariant
             (λ st, Forall (accepted_by_scorer cfg) (matched_results st)));
      [|by cbn].
    intros st e _. apply blocked_step_accepted.
  - unfold fuzzy_match_orders_perfect_sequential in H.
    destruct (quantities receipt_df), (quantities matched_df); try done.
    cbn in H. injection H as <-.
    apply (foldl_invariant
             (λ st, Forall (accepted_by_scorer cfg) (matched_results st)));
      [|by cbn].
    intros st e _. apply sequential_step_accepted.
Qed.

(** What acceptance tells about the confidence. *)
Lemma accepted_confidence r m conf det :
  calculate_match_confidence_perfect cfg r m = (true, conf, det) →
  let s := fast_fuzzy_match (row_name r) (row_name m) in
  (name_score_cutoff cfg <= s)%Q
  ∧ conf = (100 * weight_brand cfg + s * weight_name cfg
            + 100 * weight_color cfg + 100 * weight_size cfg)%Q
  ∧ row_sizes cfg r ∩ row_sizes cfg m ≠ ∅
  ∧ row_brand r = row_brand m
  ∧ row_color cfg r = row_color cfg m.
Proof.
  unfold calculate_match_confidence_perfect.
  destruct (bool_decide (row_sizes cfg r = ∅) || _ || _) eqn:Hs; [done|].
  destruct (bool_decide (row_brand r = row_brand m)) eqn:Hb; [|done].
  destruct (bool_decide (row_color cfg r = row_color cfg m)) eqn:Hc;
    [|done].
  cbn [negb].
  destruct (Qgeb _ _) eqn:Hn; [|done]. cbn [negb]. intros [= <- <-].
  apply Qgeb_true in Hn. apply bool_decide_eq_true_1 in Hb, Hc.
  apply orb_false_iff in Hs as [_ Hs]. apply bool_decide_eq_false_1 in Hs.
  done.
Qed.

Lemma fast_fuzzy_at_most_100 a b :
  scores_at_most_100 partial_ratio → (fast_fuzzy_match a b <= 100)%Q.
Proof.
  intros H. unfold fast_fuzzy_match. destruct (_ || _); [done|]. apply H.
Qed.

Lemma accepted_default_range mr :
  scores_at_most_100 partial_ratio → default_matching cfg →
  accepted_by_scorer cfg mr → in_range 89.5 100 (confidence_score mr).
Proof.
  intros Hpr (Hcut & Hwb & Hwn & Hwc & Hws) (r & m & Hacc).
  apply accepted_confidence in Hacc as (Hs & -> & _).
  pose proof (fast_fuzzy_at_most_100 (row_name r) (row_name m) Hpr) as Hle.
  set (s := fast_fuzzy_match _ _) in *.
  unfold in_range. rewrite Hwb, Hwn, Hwc, Hws. rewrite Hcut in Hs.
  split; lra.
Qed.

End Provenance.

(** ** Confidence range under the default settings *)

Lemma count_if_none (p : Q → bool) (l : list MatchResult) :
  Forall (λ mr, p (confidence_score mr) = false) l → count_if p l = O.
Proof.
  intros H. unfold count_if. induction H as [|mr l Hmr _ IH]; [done|].
  rewrite filter_cons. rewrite decide_False; [done|]. by rewrite Hmr.
Qed.

Lemma report_low_bucket (l : list MatchResult) :
  match_distribution (generate_match_report l) !! "low_confidence"%string
  = match l with
    | [] => None
    | _ => Some (count_if is_low l)
    end.
Proof.
  destruct l as [|mr l]; [done|]. cbn -[count_if sum_confidence].
  rewrite lookup_insert_ne by done. rewrite lookup_insert_ne by done.
  by rewrite lookup_insert_eq.
Qed.

Lemma report_medium_bucket (l : list MatchResult) :
  match_distribution (generate_match_report l) !! "medium_confidence"%string
  = match l with
    | [] => None
    | _ => Some (count_if is_medium l)
    end.
Proof.
  destruct l as [|mr l]; [done|]. cbn -[count_if sum_confidence].
  rewrite lookup_insert_ne by done. by rewrite lookup_insert_eq.
Qed.

Section DefaultRange.
Context {R : Runtime}.
Variable cfg : config.

(** C10. Under the default weights and cutoff every emitted record has a
    confidence between 89.5 and 100.  So no record counts as low
    confidence, the low bucket of the report holds 0 whenever the report
    has buckets, and a record counted as medium has a confidence in
    [89.5, 90). *)
Theorem default_confidence_range receipt_df matched_df results :
  scores_at_most_100 partial_ratio → default_matching cfg →
  fuzzy_match_orders_blocked cfg receipt_df matched_df = Some results
  ∨ fuzzy_match_orders_perfect_sequential cfg receipt_df matched_df
    = Some results →
  Forall (λ mr, in_range 89.5 100 (confidence_score mr)) results
  ∧ count_if is_low results = O
  ∧ (∀ n, match_distribution (generate_match_report results)
            !! "low_confidence"%string = Some n → n = O)
  ∧ (results ≠ [] →
     match_distribution (generate_match_report results)
       !! "low_confidence"%string = Some O)
  ∧ Forall (λ mr, is_medium (confidence_score mr) = true →
                  (89.5 <= confidence_score mr)%Q
                  ∧ (confidence_score mr < 90)%Q) results.
Proof.
  intros Hpr Hdef Hrun.
  assert (Forall (λ mr, in_range 89.5 100 (confidence_score mr)) results)
    as Hrange.
  { eapply Forall_impl; [by eapply results_accepted|].
    intros mr. by apply accepted_default_range. }
  assert (count_if is_low results = O) as Hlow.
  { apply count_if_none. eapply Forall_impl; [exact Hrange|].
    intros mr [Hlo _]. unfold is_low. apply negb_false_iff, Qgeb_true.
    lra. }
  split_and!; [done | done | | |].
  - intros n. rewrite report_low_bucket. destruct results; [done|].
    rewrite Hlow. by intros [= <-].
  - intros Hne. rewrite report_low_bucket. destruct results; [done|].
    by rewrite Hlow.
  - eapply Forall_impl; [exact Hrange|]. intros mr [Hlo _] Hmed.
    split; [done|]. unfold is_medium in Hmed.
    apply andb_true_iff in Hmed as [_ Hmed].
    by apply negb_true_iff, Qgeb_false in Hmed.
Qed.

End DefaultRange.

(** The reference [partial_ratio] returns percentages. *)

Lemma lcs_le_l s t : (lcs s t ≤ length s)%nat.
Proof.
  revert t. induction s as [|a s IH]; intros t; [done|].
  induction t as [|b t IHt]; cbn; [lia|].
  destruct (a =? b)%N.
  - specialize (IH t). lia.
  - specialize (IH (b :: t)). cbn in IHt. lia.
Qed.

Lemma lcs_le_r s t : (lcs s t ≤ length t)%nat.
Proof.
  revert t. induction s as [|a s IH]; intros t; [cbn; lia|].
  induction t as [|b t IHt]; cbn; [lia|].
  destruct (a =? b)%N.
  - specialize (IH t). lia.
  - specialize (IH (b :: t)). cbn in IH, IHt. lia.
Qed.

Lemma ratio_at_most_100 s t : (ratio s t <= 100)%Q.
Proof.
  unfold ratio. destruct (length s + length t)%nat as [|n] eqn:E.
  - apply Qle_refl.
  - unfold Qle. cbn.
    pose proof (lcs_le_l s t). pose proof (lcs_le_r s t). lia.
Qed.

Lemma Qmax_list_at_most (l : list Q) (b : Q) :
  (0 <= b)%Q → Forall (λ x, (x <= b)%Q) l → (Qmax_list l <= b)%Q.
Proof.
  intros Hb H. induction H as [|x l Hx _ IH]; [done|]. cbn.
  by apply Q.max_lub.
Qed.

Lemma partial_ratio_ref_at_most_100 : scores_at_most_100 partial_ratio_ref.
Proof.
  assert (∀ s t, (partial_ratio_impl s t <= 100)%Q) as Himpl.
  { intros s t. apply Qmax_list_at_most; [done|].
    apply Forall_fmap, Forall_true. intros w. apply ratio_at_most_100. }
  intros a b. unfold partial_ratio_ref.
  destruct a as [|x a], b as [|y b]; try done.
  destruct (_ <? _)%nat; [apply Himpl|].
  destruct (_ <? _)%nat; [apply Himpl|].
  apply Q.max_lub; apply Himpl.
Qed.

Lemma default_config_default_matching : default_matching default_config.
Proof. by split_and!. Qed.

Lemma default_confidence_range_witness :
  let results :=
    default [] (fuzzy_match_orders_blocked (R := reference_runtime)
                  default_config scenario_order scenario_catalog) in
  Forall (λ mr, in_range 89.5 100 (confidence_score mr)) results
  ∧ count_if is_low results = O.
Proof.
  intros results.
  pose proof (default_confidence_range (R := reference_runtime)
                default_config scenario_order scenario_catalog results
                partial_ratio_ref_at_most_100
                default_config_default_matching) as H.
  destruct H as (H1 & H2 & _); [left; vm_compute; reflexivity|].
  split; assumption.
Defined.

(** ** Stable sort: order and stability *)

Lemma Qle_bool_false x y : Qle_bool x y = false → (y < x)%Q.
Proof.
  intros H. apply Qnot_le_lt. intros Hle. apply Qle_bool_iff in Hle.
  congruence.
Qed.

Lemma with_key_cons {A} (key : A → Q) v x (l : list A) :
  with_key key v (x :: l)
  = if Qeq_bool (key x) v then x :: with_key key v l else with_key key v l.
Proof.
  unfold with_key. rewrite filter_cons.
  destruct (Qeq_bool (key x) v); [by rewrite decide_True|].
  by rewrite decide_False.
Qed.

Lemma insert_desc_with_key {A} (key : A → Q) v x (l : list A) :
  with_key key v (insert_desc key x l) = with_key key v (x :: l).
Proof.
  induction l as [|y l IH]; [done|]. cbn [insert_desc].
  destruct (Qle_bool (key y) (key x)) eqn:E; [done|].
  apply Qle_bool_false in E.
  rewrite (with_key_cons _ _ y), IH, !with_key_cons.
  destruct (Qeq_bool (key y) v) eqn:Ey, (Qeq_bool (key x) v) eqn:Ex;
    try done.
  apply Qeq_bool_iff in Ey, Ex. rewrite Ey, Ex in E.
  by apply Qlt_irrefl in E.
Qed.

(** The sort is stable: elements of equal key keep their order. *)
Lemma sort_desc_stable {A} (key : A → Q) v (l : list A) :
  with_key key v (sort_desc key l) = with_key key v l.
Proof.
  induction l as [|x l IH]; [done|]. cbn [sort_desc foldr].
  rewrite insert_desc_with_key, !with_key_cons.
  fold (sort_desc key l). by rewrite IH.
Qed.

Lemma insert_desc_sorted {A} (key : A → Q) (tie : A → A → Prop) x
    (l : list A) :
  StronglySorted (desc_then key tie) l → Forall (tie x) l →
  StronglySorted (desc_then key tie) (insert_desc key x l).
Proof.
  intros Hs Ht. induction Hs as [|y l Hs IH Hy]; cbn [insert_desc].
  - by repeat constructor.
  - apply Forall_cons in Ht as [Hty Ht].
    destruct (Qle_bool (key y) (key x)) eqn:E.
    + apply Qle_bool_iff in E. constructor; [by constructor|].
      constructor; [by split|].
      rewrite Forall_forall in Hy, Ht |- *. intros z Hz. split.
      * destruct (Hy z Hz) as [Hle _]. by eapply Qle_trans.
      * intros _. by apply Ht.
    + apply Qle_bool_false in E. constructor; [by apply IH|].
      rewrite insert_desc_perm. constructor; [|done]. split.
      * by apply Qlt_le_weak.
      * intros Heq. rewrite Heq in E. by apply Qlt_irrefl in E.
Qed.

(** The sort orders by descending key, and elements of equal key stay in
    the order [tie] in which the list had them. *)
Lemma sort_desc_sorted {A} (key : A → Q) (tie : A → A → Prop) (l : list A) :
  StronglySorted tie l → StronglySorted (desc_then key tie) (sort_desc key l).
Proof.
  intros Hs. induction Hs as [|x l Hs IH Hx]; [constructor|].
  cbn [sort_desc foldr]. apply insert_desc_sorted; [done|].
  fold (sort_desc key l). by rewrite sort_desc_perm.
Qed.

Lemma with_key_head {A} (key : A → Q) (x : A) (l : list A) :
  with_key key (key x) (x :: l) = x :: with_key key (key x) l.
Proof. rewrite with_key_cons. by rewrite (proj2 (Qeq_bool_iff _ _)). Qed.

Lemma elem_of_with_key {A} (key : A → Q) v (l : list A) x :
  x ∈ with_key key v l ↔ (key x == v)%Q ∧ x ∈ l.
Proof.
  unfold with_key. rewrite list_elem_of_filter. by rewrite Qeq_bool_iff.
Qed.

(** Two lists sorted by descending key that agree on every class of equal
    keys are equal. *)
Lemma sorted_desc_unique {A} (key : A → Q) (X Y : list A) :
  StronglySorted (desc_then key (λ _ _, True)) X →
  StronglySorted (desc_then key (λ _ _, True)) Y →
  (∀ v, with_key key v X = with_key key v Y) → X = Y.
Proof.
  intros HX. revert Y. induction HX as [|x X HX IH Hx]; intros Y HY Hcls.
  - destruct Y as [|y Y]; [done|]. specialize (Hcls (key y)).
    by rewrite with_key_head in Hcls.
  - destruct HY as [|y Y HY Hy].
    { specialize (Hcls (key x)). by rewrite with_key_head in Hcls. }
    assert (key y <= key x)%Q as Hyx.
    { assert (y ∈ with_key key (key y) (x :: X)) as Hin
        by (rewrite Hcls, with_key_head; by left).
      apply elem_of_with_key in Hin as [_ Hin].
      apply elem_of_cons in Hin as [->|Hin]; [apply Qle_refl|].
      rewrite Forall_forall in Hx. by destruct (Hx y Hin). }
    assert (key x <= key y)%Q as Hxy.
    { assert (x ∈ with_key key (key x) (y :: Y)) as Hin
        by (rewrite <- Hcls, with_key_head; by left).
      apply elem_of_with_key in Hin as [_ Hin].
      apply elem_of_cons in Hin as [->|Hin]; [apply Qle_refl|].
      rewrite Forall_forall in Hy. by destruct (Hy x Hin). }
    assert (key y == key x)%Q as Heq by (by apply Qle_antisym).
    pose proof (Hcls (key x)) as Hhead.
    rewrite with_key_head, with_key_cons in Hhead.
    rewrite (proj2 (Qeq_bool_iff _ _) Heq) in Hhead.
    injection Hhead as <- Htail. f_equal. apply IH; [done|].
    intros v. specialize (Hcls v). rewrite !with_key_cons in Hcls.
    destruct (Qeq_bool (key x) v); [by injection Hcls | done].
Qed.

Lemma sort_desc_ext {A} (key : A → Q) (X Y : list A) :
  (∀ v, with_key key v X = with_key key v Y) →
  sort_desc key X = sort_desc key Y.
Proof.
  intros H. apply (sorted_desc_unique key).
  - apply sort_desc_sorted. clear H. induction X; constructor; [done|].
    by apply Forall_true.
  - apply sort_desc_sorted. clear H. induction Y; constructor; [done|].
    by apply Forall_true.
  - intros v. by rewrite !sort_desc_stable.
Qed.

(** ** List helpers *)

Lemma omap_ext_in {A B} (f g : A → option B) (l : list A) :
  (∀ x, x ∈ l → f x = g x) → omap f l = omap g l.
Proof.
  intros H. induction l as [|x l IH]; [done|]. cbn.
  rewrite (H x) by (by left). rewrite IH; [done|].
  intros y Hy. apply H. by right.
Qed.

Lemma omap_none {A B} (f : A → option B) (l : list A) :
  (∀ x, x ∈ l → f x = None) → omap f l = [].
Proof.
  intros H. induction l as [|x l IH]; [done|]. cbn.
  rewrite (H x) by (by left). apply IH. intros y Hy. apply H. by right.
Qed.

Lemma omap_fmap_compose {A B C} (f : B → option C) (g : A → B) (l : list A) :
  omap f (g <$> l) = omap (λ x, f (g x)) l.
Proof.
  induction l as [|x l IH]; [done|]. cbn. by rewrite <- IH.
Qed.

Lemma omap_filter_implied {A B} (f : A → option B) (P : A → Prop)
    `{!∀ x, Decision (P x)} (l : list A) :
  (∀ x, x ∈ l → is_Some (f x) → P x) → omap f (filter P l) = omap f l.
Proof.
  intros Himp. induction l as [|x l IH]; [done|].
  assert (omap f (filter P l) = omap f l) as IH'
    by (apply IH; intros y Hy; apply Himp; by right).
  rewrite filter_cons. destruct (decide (P x)) as [HP|HP]; cbn.
  - by rewrite IH'.
  - destruct (f x) eqn:E; [|done]. destruct HP. apply Himp; [by left|].
    by rewrite E.
Qed.

Lemma omap_imap_lookup {A B C} (g : B → option C) (f : nat → A → B)
    (h : A → option C) (l : list A) :
  (∀ k x, l !! k = Some x → g (f k x) = h x) →
  omap g (imap f l) = omap h l.
Proof.
  revert f. induction l as [|x l IH]; intros f H; [done|].
  rewrite imap_cons. cbn. rewrite (H O x) by done.
  rewrite (IH (f ∘ S)); [done|]. intros k y Hk. by apply (H (S k)).
Qed.

Lemma with_key_omap {A B} (key : B → Q) v (f : A → option B) (l : list A) :
  with_key key v (omap f l)
  = omap (λ x, y ← f x; if Qeq_bool (key y) v then Some y else None) l.
Proof.
  induction l as [|x l IH]; [done|]. cbn -[with_key].
  destruct (f x) as [y|]; cbn -[with_key]; [|done].
  rewrite with_key_cons, IH. by destruct (Qeq_bool (key y) v).
Qed.

Lemma foldl_ext_in {A B} (f g : A → B → A) (l : list B) a :
  (∀ a x, x ∈ l → f a x = g a x) → foldl f a l = foldl g a l.
Proof.
  revert a. induction l as [|x l IH]; intros a H; [done|]. cbn.
  rewrite (H a x) by (by left). apply IH. intros a' y Hy. apply H.
  by right.
Qed.

Lemma enumerate_fmap {A B} (f : A → B) (l : list A) :
  enumerate (f <$> l) = (λ e, (e.1, f e.2)) <$> enumerate l.
Proof.
  unfold enumerate. rewrite imap_fmap, fmap_imap. by apply imap_ext.
Qed.

(** ** Order of consumption *)

Lemma omap_enumerate_increasing {A B} (g : nat * A → option (nat * B))
    (l : list A) :
  (∀ e y, g e = Some y → y.1 = e.1) →
  StronglySorted (λ x y, (x.1 < y.1)%nat) (omap g (enumerate l))
  ∧ Forall (λ y, (y.1 < length l)%nat) (omap g (enumerate l)).
Proof.
  intros Hg. induction l as [|x l [IHs IHb]] using rev_ind.
  - split; constructor.
  - rewrite enumerate_snoc, omap_app, length_app. cbn [length omap].
    assert (Forall (λ y : nat * B, y.1 = length l)
              (omap g [(length l, x)])) as Hlast.
    { cbn. destruct (g (length l, x)) as [y|] eqn:E; [|constructor].
      repeat constructor. by apply (Hg _ _ E). }
    rewrite Forall_forall in IHb, Hlast. split.
    + apply StronglySorted_app_2; [|done|].
      * intros x1 x2 H1 H2. rewrite (Hlast _ H2). by apply IHb.
      * cbn. destruct (g (length l, x)); repeat constructor.
    + apply Forall_app. split; apply Forall_forall; intros y Hy.
      * specialize (IHb _ Hy). lia.
      * rewrite (Hlast _ Hy). lia.
Qed.

Section ConsumptionOrder.
Context {R : Runtime}.
Variable cfg : config.

(** The slow matcher lists its candidates in catalogue order. *)
Lemma sequential_candidates_increasing M mq r_row :
  StronglySorted (λ x y : scored_candidate, (x.1.1 < y.1.1)%nat)
    (sequential_candidates cfg M mq r_row).
Proof.
  unfold sequential_candidates.
  set (g := λ e : nat * raw_row,
         (let '(ok, conf, det) :=
            calculate_match_confidence_perfect cfg (bare r_row) (bare e.2) in
          if ok && bool_decide (0 < default 0 (mq !! e.1))
          then Some (e.1, (conf, det)) else None)).
  assert (∀ e y, g e = Some y → y.1 = e.1) as Hg.
  { intros e y. unfold g.
    destruct (calculate_match_confidence_perfect _ _ _) as [[ok c] d].
    destruct (ok && _); [|done]. by intros [= <-]. }
  destruct (omap_enumerate_increasing g M Hg) as [Hs _].
  assert (omap (λ e : nat * raw_row,
            let '(ok, conf, det) :=
              calculate_match_confidence_perfect cfg (bare r_row) (bare e.2) in
            if ok && bool_decide (0 < default 0 (mq !! e.1))
            then Some (e.1, conf, det) else None) (enumerate M)
          = (λ y : nat * (Q * option details), (y.1, y.2.1, y.2.2))
              <$> omap g (enumerate M)) as ->.
  { rewrite list_fmap_omap. apply omap_ext_in. intros e _. unfold g.
    destruct (calculate_match_confidence_perfect _ _ _) as [[ok c] d].
    by destruct (ok && _). }
  induction Hs as [|y l Hs IH Hy]; [constructor|].
  rewrite fmap_cons. constructor; [done|].
  by apply Forall_fmap.
Qed.

End ConsumptionOrder.

(** ** Iteration order of sets *)

Section IterationOrder.
Context {R : Runtime}.
Variable cfg : config.
Variable iter' : gset ustr → list ustr.
Hypothesis Hiter : enumerates_sets set_iter.
Hypothesis Hiter' : enumerates_sets iter'.

Lemma add_token_with_iter acc tok :
  add_token (R := with_iter R iter') cfg acc tok = add_token cfg acc tok.
Proof.
  unfold add_token. cbv zeta. destruct (nonempty (strip tok)); [|done].
  rewrite (foldl_add_value_elements (R := with_iter R iter')) by exact Hiter'.
  by rewrite (foldl_add_value_elements (R := R)) by exact Hiter.
Qed.

(** The token set of a size cell does not depend on the order in which
    sets are visited. *)
Lemma extract_size_with_iter c :
  extract_size_parts_ultra (R := with_iter R iter') cfg c
  = extract_size_parts_ultra cfg c.
Proof.
  unfold extract_size_parts_ultra. cbv zeta.
  apply foldl_ext_in. intros acc tok _. apply add_token_with_iter.
Qed.

Lemma row_sizes_with_iter row :
  row_sizes (R := with_iter R iter') cfg row = row_sizes cfg row.
Proof.
  unfold row_sizes. destruct (pre row); [done|]. apply extract_size_with_iter.
Qed.

Lemma calculate_with_iter r m :
  calculate_match_confidence_perfect (R := with_iter R iter') cfg r m
  = calculate_match_confidence_perfect cfg r m.
Proof.
  unfold calculate_match_confidence_perfect. cbv zeta.
  by rewrite !row_sizes_with_iter.
Qed.

Lemma sequential_step_with_iter M st e :
  sequential_step (R := with_iter R iter') cfg M st e
  = sequential_step cfg M st e.
Proof.
  destruct e as [r_idx r_row]. unfold sequential_step. cbv zeta.
  destruct (_ <=? 0); [done|]. f_equal. f_equal.
  unfold sequential_candidates. apply omap_ext_in. intros x _.
  by rewrite calculate_with_iter.
Qed.

(** The slow matcher returns the same records under every iteration
    order. *)
Lemma sequential_with_iter receipt_df matched_df :
  fuzzy_match_orders_perfect_sequential (R := with_iter R iter') cfg
    receipt_df matched_df
  = fuzzy_match_orders_perfect_sequential cfg receipt_df matched_df.
Proof.
  unfold fuzzy_match_orders_perfect_sequential.
  destruct (quantities receipt_df) as [rq|]; [|done].
  destruct (quantities matched_df) as [mq|]; [|done]. cbn.
  do 2 f_equal. apply foldl_ext_in. intros st e _.
  apply sequential_step_with_iter.
Qed.

End IterationOrder.

Section ConsumptionTheorem.
Context {R : Runtime}.
Variable cfg : config.

(** Order of consumption in the two matchers.  In both the allocation loop
    consumes the accepted candidates sorted by descending confidence, and
    the sort is stable.  The slow matcher lists the candidates in catalogue
    order, so there equal confidences are consumed in catalogue order.  The
    fast matcher lists them in the order of the name-score ranking of the
    retrieved candidates, and equal confidences keep that order.  The slow
    matcher returns the same records whatever the iteration order of
    sets. *)
Lemma consumption_order :
  enumerates_sets set_iter →
  (∀ M mq r_row,
     StronglySorted
       (desc_then conf_of (λ x y : scored_candidate, (x.1.1 < y.1.1)%nat))
       (sort_desc conf_of (sequential_candidates cfg M mq r_row)))
  ∧ (∀ M ids r_row scored,
       StronglySorted (desc_then conf_of (λ _ _, True))
         (sort_desc conf_of (blocked_results cfg M ids r_row scored))
       ∧ ∀ v, with_key conf_of v
                (sort_desc conf_of (blocked_results cfg M ids r_row scored))
              = with_key conf_of v (blocked_results cfg M ids r_row scored))
  ∧ (∀ iter' receipt_df matched_df,
       enumerates_sets iter' →
       fuzzy_match_orders_perfect_sequential (R := with_iter R iter') cfg
         receipt_df matched_df
       = fuzzy_match_orders_perfect_sequential cfg receipt_df matched_df).
Proof.
  intros Hiter. split_and!.
  - intros M mq r_row. apply sort_desc_sorted.
    apply sequential_candidates_increasing.
  - intros M ids r_row scored. split.
    + apply sort_desc_sorted.
      induction (blocked_results _ _ _ _ _); constructor; [done|].
      by apply Forall_true.
    + intros v. apply sort_desc_stable.
  - intros iter' receipt_df matched_df Hiter'.
    by apply sequential_with_iter.
Qed.

End ConsumptionTheorem.

(** C5. Ties are to be consumed in catalogue order and two runs on the same
    sheets are to return the same records.  The fast matcher does neither
    on these sheets: the three catalogue lines tie at confidence 100; the
    order line has the size tokens 7 and m; visited as 7, m the candidates
    are retrieved and consumed as 1, 0, 2, visited as m, 7 as 0, 2, 1.  In
    neither case are the ties consumed in catalogue order 0, 1, 2, and the
    two runs return different sequences. *)
Theorem blocked_ties_follow_iteration_order :
  consumed_lines
    (fuzzy_match_orders_blocked (R := reference_runtime) default_config
       tie_order tie_catalog) = Some [1; 0; 2]%nat
  ∧ consumed_lines
      (fuzzy_match_orders_blocked (R := reversed_runtime) default_config
         tie_order tie_catalog) = Some [0; 2; 1]%nat
  ∧ set_iter (Runtime := reference_runtime) {[ u "7"; u "m" ]}
    = [u "7"; u "m"]
  ∧ set_iter (Runtime := reversed_runtime) {[ u "7"; u "m" ]}
    = [u "m"; u "7"]
  ∧ Forall (λ mr, (confidence_score mr == 100)%Q)
      (default []
         (fuzzy_match_orders_blocked (R := reference_runtime) default_config
            tie_order tie_catalog))
  ∧ Forall (λ mr, (confidence_score mr == 100)%Q)
      (default []
         (fuzzy_match_orders_blocked (R := reversed_runtime) default_config
            tie_order tie_catalog)).
Proof.
  split_and!; try (vm_compute; reflexivity);
    vm_compute; repeat constructor.
Qed.

Example consumption_order_on_tie_catalog :
  StronglySorted
    (desc_then conf_of (λ x y : scored_candidate, (x.1.1 < y.1.1)%nat))
    (sort_desc conf_of
       (sequential_candidates (R := reference_runtime) default_config
          (rows tie_catalog) (stock_of [1; 1; 1])
          (text_row "A" "shirt" "black" "7(M)" (QInt 3)))).
Proof.
  apply (consumption_order (R := reference_runtime) default_config
           reference_iter_enumerates).
Defined.

(** Whatever the iteration order: when an order line has two size tokens,
    the catalogue lines 0 and 2 carry the first one and line 1 the second
    one, retrieval lists the lines as 0, 2, 1 or as 1, 0, 2, never in
    catalogue order. *)
Lemma first_tier_order_two_tokens {R : Runtime}
    (M : list (raw_row * precomputed)) (mq : gmap nat Z) (b c s1 s2 : ustr) :
  enumerates_sets set_iter →
  s1 ≠ s2 →
  tier_bcs M b c s1 = [0; 2]%nat → tier_bcs M b c s2 = [1]%nat →
  (∀ j, (j < 3)%nat → 0 < default 0 (mq !! j)) →
  retrieve_candidates (_build_candidate_index M) mq b c {[ s1; s2 ]}
  = [0; 2; 1]%nat
  ∨ retrieve_candidates (_build_candidate_index M) mq b c {[ s1; s2 ]}
    = [1; 0; 2]%nat.
Proof.
  intros Hiter Hne H1 H2 Hstock.
  rewrite retrieve_candidates_eq by done. cbv zeta.
  assert (set_iter {[ s1; s2 ]} = [s1; s2] ∨ set_iter {[ s1; s2 ]} = [s2; s1])
    as [-> | ->].
  { apply Permutation_length_2_inv. rewrite (Hiter _).
    rewrite elements_disj_union by set_solver.
    by rewrite !elements_singleton. }
  - left. cbn [flat_map]. rewrite H1, H2. cbn [app nonempty].
    unfold in_stock. rewrite !filter_cons.
    rewrite !decide_True by (apply Hstock; lia). done.
  - right. cbn [flat_map]. rewrite H1, H2. cbn [app nonempty].
    unfold in_stock. rewrite !filter_cons.
    rewrite !decide_True by (apply Hstock; lia). done.
Qed.

(** The end-to-end scenario of the specification (2 units of size [7(M)]
    against 1 unit of size [M] and 5 units of size [7]): the slow matcher
    takes one unit of each line; the fast matcher does so when the tokens
    are visited as m, 7, and takes both units from the second line when
    they are visited as 7, m. *)
Example scenario_consumption :
  consumed_lines
    (fuzzy_match_orders_perfect_sequential (R := reference_runtime)
       default_config scenario_order scenario_catalog) = Some [0; 1]%nat
  ∧ consumed_lines
      (fuzzy_match_orders_blocked (R := reversed_runtime) default_config
         scenario_order scenario_catalog) = Some [0; 1]%nat
  ∧ consumed_lines
      (fuzzy_match_orders_blocked (R := reference_runtime) default_config
         scenario_order scenario_catalog) = Some [1; 1]%nat.
Proof. split_and!; vm_compute; reflexivity. Qed.

(** ** The two matchers compared *)

Lemma or_else_same (x : ustr) : or_else (Some x) x = x.
Proof. by destruct x. Qed.

Lemma omap_filter {A B} (f : A → option B) (P : A → Prop)
    `{!∀ x, Decision (P x)} (l : list A) :
  omap f (filter P l) = omap (λ x, if decide (P x) then f x else None) l.
Proof.
  induction l as [|x l IH]; [done|]. rewrite filter_cons. cbn.
  destruct (decide (P x)); cbn; by rewrite IH.
Qed.

Lemma allocate_nil r_idx remain st : allocate r_idx [] remain st = st.
Proof. done. Qed.

Section Agreement.
Context {R : Runtime}.
Variable cfg : config.

Lemma normalize_text_fillna c :
  normalize_text_ultra (fillna c) = normalize_text_ultra c.
Proof. by destruct c. Qed.

Lemma normalize_color_fillna c :
  normalize_color_ultra cfg (fillna c) = normalize_color_ultra cfg c.
Proof. by destruct c. Qed.

Lemma extract_size_fillna c :
  extract_size_parts_ultra cfg (fillna c) = extract_size_parts_ultra cfg c.
Proof. by destruct c. Qed.

Lemma row_brand_pre r :
  row_brand (with_pre (r, precompute_row cfg r)) = row_brand (bare r).
Proof.
  unfold row_brand. cbn. rewrite normalize_text_fillna. apply or_else_same.
Qed.

Lemma row_color_pre r :
  row_color cfg (with_pre (r, precompute_row cfg r)) = row_color cfg (bare r).
Proof.
  unfold row_color. cbn. rewrite normalize_color_fillna. apply or_else_same.
Qed.

Lemma row_sizes_pre r :
  row_sizes cfg (with_pre (r, precompute_row cfg r)) = row_sizes cfg (bare r).
Proof. unfold row_sizes. cbn. apply extract_size_fillna. Qed.

Lemma row_name_pre r :
  synonym_free cfg r →
  row_name (with_pre (r, precompute_row cfg r)) = row_name (bare r).
Proof.
  intros H. unfold row_name. cbn. rewrite normalize_text_fillna, H.
  apply or_else_same.
Qed.

Lemma name_n_pre r :
  synonym_free cfg r → name_n (precompute_row cfg r) = row_name (bare r).
Proof. intros H. cbn. by rewrite normalize_text_fillna, H. Qed.

(** Without synonyms at work the scorer sees the same attributes on a
    precomputed row and on a raw row. *)
Lemma calculate_pre r m :
  synonym_free cfg r → synonym_free cfg m →
  calculate_match_confidence_perfect cfg
    (with_pre (r, precompute_row cfg r)) (with_pre (m, precompute_row cfg m))
  = calculate_match_confidence_perfect cfg (bare r) (bare m).
Proof.
  intros Hr Hm. unfold calculate_match_confidence_perfect. cbv zeta.
  by rewrite !row_brand_pre, !row_color_pre, !row_sizes_pre,
    !row_name_pre.
Qed.

(** The fast matcher's step without its early exits. *)
Lemma blocked_step_alt M ix st r_idx r_row :
  blocked_step cfg M ix st (r_idx, r_row)
  = let remain := default 1 (receipt_qty st !! r_idx) in
    if remain <=? 0 then st
    else
      let ids := retrieve_candidates ix (matched_qty st)
                   (brand_n r_row.2) (color_n r_row.2) (sizes_s r_row.2) in
      allocate r_idx
        (sort_desc conf_of
           (blocked_results cfg M ids r_row (blocked_scored cfg M ids r_row)))
        remain st.
Proof.
  unfold blocked_step. cbv zeta. destruct (_ <=? 0); [done|].
  destruct (retrieve_candidates _ _ _ _ _) as [|j ids] eqn:E; [done|].
  cbn [nonempty negb].
  destruct (blocked_scored cfg M (j :: ids) r_row) as [|t scored]; [done|].
  cbn [nonempty negb].
  by destruct (blocked_results cfg M (j :: ids) r_row (t :: scored)).
Qed.

End Agreement.

Lemma omap_sort_class {A B} (key : A → Q) (g : A → option B) (l : list A)
    (v : Q) :
  (∀ t, t ∈ l → is_Some (g t) → (key t == v)%Q) →
  omap g (sort_desc key l) = omap g l.
Proof.
  intros Hcls.
  rewrite <- (omap_filter_implied g (λ t, Qeq_bool (key t) v = true)
                (sort_desc key l)).
  2: { intros t Ht Hs. apply Qeq_bool_iff, Hcls; [|done].
       by apply elem_of_sort_desc in Ht. }
  fold (with_key key v (sort_desc key l)). rewrite sort_desc_stable.
  unfold with_key. apply omap_filter_implied.
  intros t Ht Hs. by apply Qeq_bool_iff, Hcls.
Qed.

Section AgreementCore.
Context {R : Runtime}.
Variable cfg : config.
Hypothesis Hiter : enumerates_sets set_iter.
Hypothesis Hcut : (0 < name_score_cutoff cfg)%Q.
Hypothesis Hwn : ¬ (weight_name cfg == 0)%Q.
Variable M : list raw_row.
Variable r : raw_row.
Variable mq : gmap nat Z.
Hypothesis Hr : synonym_free cfg r.
Hypothesis HM : Forall (synonym_free cfg) M.
Hypothesis Hsz : single_size cfg r.

Abbreviation Mp := ((λ m, (m, precompute_row cfg m)) <$> M).
Abbreviation rp := (r, precompute_row cfg r).

Lemma accepted_candidate_Some j x :
  accepted_candidate cfg M r j = Some x →
  ∃ m conf det,
    M !! j = Some m ∧ x = (j, conf, det)
    ∧ calculate_match_confidence_perfect cfg (bare r) (bare m)
      = (true, conf, det).
Proof.
  unfold accepted_candidate. destruct (M !! j) as [m|] eqn:Hj; [|done]. cbn.
  destruct (calculate_match_confidence_perfect _ _ _) as [[ok c] d] eqn:E.
  destruct ok; [|done]. intros [= <-]. by exists m, c, d.
Qed.

Lemma accepted_score m conf det :
  calculate_match_confidence_perfect cfg (bare r) (bare m)
  = (true, conf, det) →
  let s := partial_ratio (row_name (bare r)) (row_name (bare m)) in
  (name_score_cutoff cfg <= s)%Q
  ∧ conf = (100 * weight_brand cfg + s * weight_name cfg
            + 100 * weight_color cfg + 100 * weight_size cfg)%Q.
Proof.
  intros Hacc. apply accepted_confidence in Hacc as (Hs & Hconf & _).
  revert Hs Hconf. unfold fast_fuzzy_match.
  destruct (_ || _); [|done]. intros Hs _. exfalso.
  apply (Qlt_irrefl 0). by eapply Qlt_le_trans.
Qed.

Lemma name_at_pre j m :
  M !! j = Some m → name_at Mp j = row_name (bare m).
Proof.
  intros Hj. unfold name_at. rewrite list_lookup_fmap, Hj. cbn -[precompute_row].
  apply name_n_pre. rewrite Forall_forall in HM. apply HM.
  by eapply list_elem_of_lookup_2.
Qed.

(** On the triple of its [k]-th candidate the loop over [scored] makes the
    candidate the slow matcher makes of that catalogue line. *)
Lemma blocked_result_of_candidate (ids : list nat) k j (choice : ustr)
    (sc : Q) :
  ids !! k = Some j →
  (m_idx ← ids !! (choice, sc, k).2;
   m_row ← Mp !! m_idx;
   let '(ok, conf, det) :=
     calculate_match_confidence_perfect cfg (with_pre rp) (with_pre m_row) in
   if ok then Some (m_idx, conf, det) else None)
  = accepted_candidate cfg M r j.
Proof.
  intros Hk. cbn [snd]. rewrite Hk. cbn [mbind option_bind].
  unfold accepted_candidate. rewrite list_lookup_fmap.
  destruct (M !! j) as [m|] eqn:Hj; [|done]. cbn [fmap option_fmap option_map
    mbind option_bind].
  rewrite calculate_pre; [done | done |].
  rewrite Forall_forall in HM. apply HM. by eapply list_elem_of_lookup_2.
Qed.

Lemma scored_triple (ids : list nat) t :
  t ∈ imap (λ i choice,
              (choice, partial_ratio (name_n (precompute_row cfg r)) choice, i))
        (name_at Mp <$> ids) →
  ∃ k j, ids !! k = Some j
         ∧ t = (name_at Mp j,
                partial_ratio (row_name (bare r)) (name_at Mp j), k).
Proof.
  intros Ht. apply elem_of_lookup_imap in Ht as (k & nm & -> & Hk).
  rewrite list_lookup_fmap in Hk.
  destruct (ids !! k) as [j|] eqn:Hj; [|done]. injection Hk as <-.
  exists k, j. split; [done|]. by rewrite name_n_pre.
Qed.

(** The records the fast matcher keeps have, confidence class by confidence
    class, the order of the retrieved candidate list. *)
Lemma blocked_results_classes (ids : list nat) v :
  with_key conf_of v
    (blocked_results cfg Mp ids rp (blocked_scored cfg Mp ids rp))
  = with_key conf_of v (omap (accepted_candidate cfg M r) ids).
Proof.
  unfold blocked_results, blocked_scored, extract. cbv zeta.
  set (G := λ t : ustr * Q * nat,
         m_idx ← ids !! t.2;
         m_row ← Mp !! m_idx;
         let '(ok, conf, det) :=
           calculate_match_confidence_perfect cfg (with_pre rp)
             (with_pre m_row) in
         if ok then Some (m_idx, conf, det) else None).
  set (L' := imap _ (name_at Mp <$> ids)).
  assert (∀ t, t ∈ L' → ∀ x, G t = Some x →
            (name_score_cutoff cfg <= t.1.2)%Q
            ∧ conf_of x
              = (100 * weight_brand cfg + t.1.2 * weight_name cfg
                 + 100 * weight_color cfg + 100 * weight_size cfg)%Q)
    as Hscore.
  { intros t Ht x Hx. apply scored_triple in Ht as (k & j & Hk & ->).
    unfold G in Hx. rewrite (blocked_result_of_candidate ids k j) in Hx
      by done.
    apply accepted_candidate_Some in Hx as (m & conf & det & Hj & -> & Hacc).
    apply accepted_score in Hacc. cbn. by rewrite (name_at_pre j m). }
  rewrite with_key_omap.
  rewrite (omap_sort_class _ _ _
             ((v - 100 * weight_brand cfg - 100 * weight_color cfg
               - 100 * weight_size cfg) / weight_name cfg)%Q).
  2: { intros t Ht [y Hy]. apply list_elem_of_filter in Ht as [_ Ht].
       destruct (G t) as [x|] eqn:Hx; [|done]. cbn in Hy.
       destruct (Qeq_bool (conf_of x) v) eqn:Hv; [|done].
       apply Qeq_bool_iff in Hv.
       destruct (Hscore t Ht x Hx) as [_ Hconf]. rewrite Hconf in Hv.
       rewrite <- Hv. field. exact Hwn. }
  rewrite <- with_key_omap. f_equal.
  rewrite omap_filter_implied.
  2: { intros t Ht [x Hx]. apply Qgeb_true. by destruct (Hscore t Ht x Hx). }
  unfold L'. rewrite imap_fmap. apply omap_imap_lookup.
  intros k j Hk. unfold G. by apply blocked_result_of_candidate.
Qed.

Lemma sequential_candidates_stocked :
  sequential_candidates cfg M mq r
  = omap (λ e : nat * raw_row, stocked_candidate cfg M mq r e.1) (enumerate M).
Proof.
  unfold sequential_candidates. apply omap_ext_in. intros [j m] Hin.
  apply elem_of_enumerate in Hin. unfold stocked_candidate, accepted_candidate.
  cbn [fst snd]. rewrite Hin. cbn [mbind option_bind].
  destruct (calculate_match_confidence_perfect _ _ _) as [[ok c] d].
  destruct (decide (0 < default 0 (mq !! j))) as [Hs|Hs].
  - rewrite (bool_decide_eq_true_2 _ Hs). by rewrite andb_true_r.
  - rewrite (bool_decide_eq_false_2 _ Hs). rewrite andb_false_r.
    by destruct ok.
Qed.

(** An accepted catalogue line shares brand, colour and a size token with
    the order row: it is in the first tier. *)
Lemma accepted_in_tier j x :
  accepted_candidate cfg M r j = Some x →
  ∃ s, s ∈ sizes_s (precompute_row cfg r)
       ∧ j ∈ tier_bcs Mp (brand_n (precompute_row cfg r))
               (color_n (precompute_row cfg r)) s.
Proof.
  intros Hx. apply accepted_candidate_Some in Hx
    as (m & conf & det & Hj & _ & Hacc).
  apply accepted_confidence in Hacc as (_ & _ & Hs & Hb & Hc).
  apply set_choose_L in Hs as [s Hs]. apply elem_of_intersection in Hs
    as [Hsr Hsm].
  exists s. split.
  - cbn. by rewrite extract_size_fillna.
  - unfold tier_bcs. apply elem_of_positions.
    exists (m, precompute_row cfg m). split.
    + by rewrite list_lookup_fmap, Hj.
    + apply bool_decide_eq_true_2. cbn.
      rewrite !normalize_text_fillna, !normalize_color_fillna,
        extract_size_fillna.
      split_and!; [by symmetry | by symmetry | done].
Qed.

Lemma single_token_iter :
  set_iter (sizes_s (precompute_row cfg r)) = []
  ∨ ∃ s, set_iter (sizes_s (precompute_row cfg r)) = [s].
Proof.
  assert (length (set_iter (sizes_s (precompute_row cfg r))) ≤ 1)%nat as Hlen.
  { rewrite (Hiter _). cbn. rewrite extract_size_fillna. exact Hsz. }
  destruct (set_iter _) as [|s [|s' l]]; [by left | right; by exists s |].
  cbn in Hlen. lia.
Qed.

(** With at most one size token on the order row, the retrieved candidates
    that the scorer accepts are the candidates of the slow matcher, in the
    same order. *)
Lemma retrieved_accepted_eq :
  omap (accepted_candidate cfg M r)
    (retrieve_candidates (_build_candidate_index Mp) mq
       (brand_n (precompute_row cfg r)) (color_n (precompute_row cfg r))
       (sizes_s (precompute_row cfg r)))
  = sequential_candidates cfg M mq r.
Proof.
  rewrite retrieve_candidates_eq by done. unfold in_stock.
  rewrite omap_filter. fold (stocked_candidate cfg M mq r).
  rewrite sequential_candidates_stocked. cbv zeta.
  set (b := brand_n (precompute_row cfg r)).
  set (c := color_n (precompute_row cfg r)).
  assert (∀ j, is_Some (stocked_candidate cfg M mq r j) →
            ∃ s, s ∈ set_iter (sizes_s (precompute_row cfg r))
                 ∧ j ∈ tier_bcs Mp b c s) as Htier.
  { intros j [x Hx]. unfold stocked_candidate in Hx.
    destruct (decide _); [|done].
    destruct (accepted_in_tier j x Hx) as (s & Hs & Hin).
    exists s. split; [by apply elem_of_set_iter | done]. }
  destruct single_token_iter as [Hnone | [s Hone]].
  - rewrite Hnone. cbn [flat_map nonempty].
    assert (∀ j, stocked_candidate cfg M mq r j = None) as Hno.
    { intros j. destruct (stocked_candidate cfg M mq r j) as [x|] eqn:E;
        [|done].
      destruct (Htier j) as (s & Hs & _); [by rewrite E|].
      rewrite Hnone in Hs. by apply not_elem_of_nil in Hs. }
    rewrite !omap_none; [done | by intros | by intros].
  - rewrite Hone. cbn [flat_map]. rewrite app_nil_r.
    destruct (tier_bcs Mp b c s) as [|j0 t1] eqn:Ht1; cbn [nonempty].
    + assert (∀ j, stocked_candidate cfg M mq r j = None) as Hno.
      { intros j. destruct (stocked_candidate cfg M mq r j) as [x|] eqn:E;
          [|done].
        destruct (Htier j) as (s' & Hs' & Hin); [by rewrite E|].
        rewrite Hone in Hs'. apply list_elem_of_singleton in Hs' as ->.
        rewrite Ht1 in Hin. by apply not_elem_of_nil in Hin. }
      rewrite !omap_none; [done | by intros | by intros].
    + rewrite <- Ht1. unfold tier_bcs, positions.
      rewrite omap_fmap_compose.
      rewrite omap_filter_implied.
      * rewrite enumerate_fmap. by rewrite omap_fmap_compose.
      * intros [j mp] Hin Hsome. cbn [fst snd] in *.
        destruct (Htier j Hsome) as (s' & Hs' & Hj).
        rewrite Hone in Hs'. apply list_elem_of_singleton in Hs' as ->.
        apply elem_of_positions in Hj as (mp' & Hmp' & HP).
        apply elem_of_enumerate in Hin. by simplify_eq.
Qed.

(** The lists the two allocation loops consume are equal. *)
Lemma consumed_lists_eq :
  sort_desc conf_of
    (blocked_results cfg Mp
       (retrieve_candidates (_build_candidate_index Mp) mq
          (brand_n (precompute_row cfg r)) (color_n (precompute_row cfg r))
          (sizes_s (precompute_row cfg r)))
       rp
       (blocked_scored cfg Mp
          (retrieve_candidates (_build_candidate_index Mp) mq
             (brand_n (precompute_row cfg r)) (color_n (precompute_row cfg r))
             (sizes_s (precompute_row cfg r)))
          rp))
  = sort_desc conf_of (sequential_candidates cfg M mq r).
Proof.
  apply sort_desc_ext. intros v.
  by rewrite blocked_results_classes, retrieved_accepted_eq.
Qed.

End AgreementCore.

Section AgreementTheorem.
Context {R : Runtime}.
Variable cfg : config.

(** Where the two matchers agree.  They return the same records when the
    name-synonym table rewrites no name of either sheet, every order line
    has at most one size token, the name cutoff is positive and the name
    weight is not zero.  This is a statement about exact confidences: in
    binary64 a name weight small enough to round two name scores to one
    confidence makes a tie that the two matchers break differently. *)
Lemma matchers_agree receipt_df matched_df :
  enumerates_sets set_iter →
  (0 < name_score_cutoff cfg)%Q →
  ¬ (weight_name cfg == 0)%Q →
  Forall (synonym_free cfg) (rows receipt_df) →
  Forall (synonym_free cfg) (rows matched_df) →
  Forall (single_size cfg) (rows receipt_df) →
  fuzzy_match_orders_blocked cfg receipt_df matched_df
  = fuzzy_match_orders_perfect_sequential cfg receipt_df matched_df.
Proof.
  intros Hiter Hcut Hwn Hsr Hsm Hone.
  unfold fuzzy_match_orders_blocked, fuzzy_match_orders_perfect_sequential.
  destruct (quantities receipt_df) as [rq|]; [|done].
  destruct (quantities matched_df) as [mq|]; [|done]. cbn.
  do 2 f_equal. unfold _precompute_normalized_columns.
  rewrite enumerate_fmap, foldl_fmap. apply foldl_ext_in.
  intros st [i r] Hin. apply elem_of_enumerate in Hin.
  apply list_elem_of_lookup_2 in Hin.
  rewrite Forall_forall in Hsr, Hone.
  cbn [fst snd]. rewrite blocked_step_alt. unfold sequential_step.
  cbv zeta. destruct (_ <=? 0); [done|]. f_equal.
  apply consumed_lists_eq; auto.
Qed.

End AgreementTheorem.

(** C9. The fast matcher is to return the records of the slow reference
    matcher.  It does not on these sheets.  With the order line named
    [mtm] and the catalogue line named by the canonical label of that
    synonym, the fast matcher emits a record and the slow matcher none.
    On the sheets of the tie the slow matcher consumes the catalogue lines
    in the order 0, 1, 2 and the fast matcher in the order 1, 0, 2 or
    0, 2, 1, depending on the order in which the two size tokens of the
    order line are visited. *)
Theorem matchers_differ :
  consumed_lines
    (fuzzy_match_orders_blocked (R := reference_runtime) default_config
       synonym_order synonym_catalog) = Some [0]%nat
  ∧ consumed_lines
      (fuzzy_match_orders_perfect_sequential (R := reference_runtime)
         default_config synonym_order synonym_catalog) = Some []
  ∧ consumed_lines
      (fuzzy_match_orders_perfect_sequential (R := reference_runtime)
         default_config tie_order tie_catalog) = Some [0; 1; 2]%nat
  ∧ consumed_lines
      (fuzzy_match_orders_perfect_sequential (R := reversed_runtime)
         default_config tie_order tie_catalog) = Some [0; 1; 2]%nat
  ∧ fuzzy_match_orders_blocked (R := reference_runtime) default_config
      tie_order tie_catalog
    ≠ fuzzy_match_orders_perfect_sequential (R := reference_runtime)
        default_config tie_order tie_catalog
  ∧ fuzzy_match_orders_blocked (R := reversed_runtime) default_config
      tie_order tie_catalog
    ≠ fuzzy_match_orders_perfect_sequential (R := reversed_runtime)
        default_config tie_order tie_catalog.
Proof.
  split_and!; try (vm_compute; reflexivity).
  - intros H. apply (f_equal consumed_lines) in H. vm_compute in H.
    discriminate H.
  - intros H. apply (f_equal consumed_lines) in H. vm_compute in H.
    discriminate H.
Qed.

(** The name the scorer compares differs between the two matchers when a
    synonym applies: the fast matcher sees the canonical label. *)
Lemma synonym_changes_scored_name :
  let r := text_row "A" "Ball MTM" "black" "M" (QInt 1) in
  row_name (R := reference_runtime) (bare r) = u "ball mtm"
  ∧ row_name (R := reference_runtime)
      (with_pre (r, precompute_row (R := reference_runtime) default_config r))
    = u "ball " ++ [47592; 53804; 47592]%N.
Proof. split; vm_compute; reflexivity. Qed.

Example matchers_agree_on_single_token_order :
  fuzzy_match_orders_blocked (R := reference_runtime) default_config
    order_qty_one scenario_catalog
  = fuzzy_match_orders_perfect_sequential (R := reference_runtime)
      default_config order_qty_one scenario_catalog.
Proof.
  apply (matchers_agree (R := reference_runtime) default_config
           order_qty_one scenario_catalog reference_iter_enumerates).
  - reflexivity.
  - discriminate.
  - repeat constructor.
  - repeat constructor.
  - repeat constructor; vm_compute; lia.
Defined.

(** ** Subscripts never fail *)

Lemma allocate_checked_eq r_idx results remain st :
  is_Some (receipt_qty st !! r_idx) →
  Forall (λ x : scored_candidate, is_Some (matched_qty st !! x.1.1)) results →
  allocate_checked r_idx results remain st
  = Some (allocate r_idx results remain st).
Proof.
  revert remain st.
  induction results as [|[[m_idx conf] det] rest IH]; intros remain st Hr Hm;
    [done|].
  apply Forall_cons in Hm as [[m_left Hleft] Hrest]. cbn in Hleft.
  destruct Hr as [r_left Hrl].
  cbn [allocate allocate_checked]. destruct (remain <=? 0); [done|].
  rewrite !(getitem_Some _ _ _ Hleft), !(getitem_Some _ _ _ Hrl).
  rewrite Hleft, Hrl. cbn [mbind option_bind].
  destruct (m_left <=? 0); [by apply IH; eauto|].
  apply IH; cbn.
  - rewrite lookup_insert_eq. eauto.
  - eapply Forall_impl; [exact Hrest|]. intros x [q Hq]. cbn.
    destruct (decide (m_idx = x.1.1)) as [->|Hne].
    + rewrite lookup_insert_eq. eauto.
    + rewrite lookup_insert_ne by done. eauto.
Qed.

Lemma in_stock_key (mq : gmap nat Z) j :
  0 < default 0 (mq !! j) → is_Some (mq !! j).
Proof. destruct (mq !! j); [eauto | cbn; lia]. Qed.

Section Subscripts.
Context {R : Runtime}.
Variable cfg : config.

Lemma sequential_candidates_keys M mq r_row :
  Forall (λ x : scored_candidate, is_Some (mq !! x.1.1))
    (sequential_candidates cfg M mq r_row).
Proof.
  apply Forall_forall. intros x Hx. unfold sequential_candidates in Hx.
  apply list_elem_of_omap in Hx as (e & _ & He).
  destruct (calculate_match_confidence_perfect _ _ _) as [[ok c] d].
  destruct ok; [|done]. cbn in He.
  destruct (bool_decide (0 < default 0 (mq !! e.1))) eqn:Hs; [|done].
  injection He as <-. apply bool_decide_eq_true_1 in Hs.
  by apply in_stock_key.
Qed.

Lemma blocked_results_keys M ix mq b c sizes r_row scored :
  Forall (λ x : scored_candidate, is_Some (mq !! x.1.1))
    (blocked_results cfg M (retrieve_candidates ix mq b c sizes) r_row scored).
Proof.
  apply Forall_forall. intros x Hx. unfold blocked_results in Hx.
  apply list_elem_of_omap in Hx as (t & _ & Ht).
  destruct (retrieve_candidates ix mq b c sizes !! t.2) as [j|] eqn:Hj;
    [|done].
  cbn in Ht. destruct (M !! j) as [m_row|]; [|done]. cbn in Ht.
  destruct (calculate_match_confidence_perfect _ _ _) as [[ok cf] d].
  destruct ok; [|done]. injection Ht as <-. cbn.
  apply list_elem_of_lookup_2 in Hj. unfold retrieve_candidates in Hj.
  apply list_elem_of_filter in Hj as [Hj _]. by apply in_stock_key.
Qed.

(** In both matchers the allocation loop only subscripts the quantity
    dicts at keys they hold. *)
Lemma sequential_allocation_checked M st r_idx r_row remain :
  is_Some (receipt_qty st !! r_idx) →
  allocate_checked r_idx
    (sort_desc conf_of (sequential_candidates cfg M (matched_qty st) r_row))
    remain st
  = Some (allocate r_idx
            (sort_desc conf_of
               (sequential_candidates cfg M (matched_qty st) r_row))
            remain st).
Proof.
  intros Hr. apply allocate_checked_eq; [done|].
  rewrite sort_desc_perm. apply sequential_candidates_keys.
Qed.

Lemma blocked_allocation_checked M ix st r_idx b c sizes r_row scored remain :
  is_Some (receipt_qty st !! r_idx) →
  let results :=
    blocked_results cfg M (retrieve_candidates ix (matched_qty st) b c sizes)
      r_row scored in
  allocate_checked r_idx (sort_desc conf_of results) remain st
  = Some (allocate r_idx (sort_desc conf_of results) remain st).
Proof.
  intros Hr results. apply allocate_checked_eq; [done|].
  rewrite sort_desc_perm. apply blocked_results_keys.
Qed.

(** The labels retrieved from the index are labels of the catalogue. *)
Lemma retrieve_candidates_valid (M : list (raw_row * precomputed)) mq b c
    sizes j :
  enumerates_sets set_iter →
  j ∈ retrieve_candidates (_build_candidate_index M) mq b c sizes →
  is_Some (M !! j).
Proof.
  intros Hiter Hj. rewrite retrieve_candidates_eq in Hj by done.
  unfold in_stock in Hj. apply list_elem_of_filter in Hj as [_ Hj].
  cbv zeta in Hj.
  assert (∀ s, j ∈ tier_bcs M b c s → is_Some (M !! j)) as H1.
  { intros s Hs. apply elem_of_positions in Hs as (x & -> & _). eauto. }
  destruct (flat_map _ _) as [|j0 t1] eqn:Ht1; cbn [nonempty] in Hj.
  - destruct (tier_bc M b c) as [|j1 t2] eqn:Ht2; cbn [nonempty] in Hj.
    + apply elem_of_positions in Hj as (x & -> & _). eauto.
    + rewrite <- Ht2 in Hj. apply elem_of_positions in Hj as (x & -> & _).
      eauto.
  - rewrite <- Ht1 in Hj. apply list_elem_of_In, in_flat_map in Hj
      as (s & _ & Hs). apply list_elem_of_In in Hs. by eapply H1.
Qed.

End Subscripts.

(** ** The theorems at concrete sheets *)

Lemma scorer_gates_and_weighted_sum_witness :
  let r := text_row "A" "shirt" "black" "7(M)" (QInt 2) in
  let m := text_row "A" "shirt" "black" "M" (QInt 1) in
  ∃ conf det,
    calculate_match_confidence_perfect (R := reference_runtime)
      default_config (bare r) (bare m) = (true, conf, Some det)
    ∧ (conf == weighted_sum default_config 100)%Q
    ∧ brand_score det = 100%Q ∧ color_score det = 100%Q
    ∧ size_score det = 100%Q ∧ (name_score det == 100)%Q.
Proof.
  intros r m.
  destruct (scorer_gates_and_weighted_sum (R := reference_runtime)
              default_config false r m) as [_ H].
  destruct H as (conf & det & H1 & H2 & Hb & Hc & Hs & Hn).
  - vm_compute. discriminate.
  - vm_compute. reflexivity.
  - vm_compute. reflexivity.
  - vm_compute. discriminate.
  - exists conf, det. split_and!; [exact H1 | | done.. |].
    + rewrite H2. vm_compute. reflexivity.
    + rewrite Hn. vm_compute. reflexivity.
Defined.

Lemma quantity_default_and_failure_witness :
  is_Some (quantities (R := reference_runtime)
             {| has_qty := false; rows := rows order_missing_qty |})
  ∧ ¬ is_Some (fuzzy_match_orders_blocked (R := reference_runtime)
                 default_config order_missing_qty catalog_one_line).
Proof.
  destruct (quantity_default_and_failure (R := reference_runtime)
              default_config order_missing_qty catalog_one_line)
    as (_ & Hno & _ & Hcol & Hrun & _).
  split.
  - by apply Hno.
  - intros Hs. apply Hrun in Hs as [Hs _].
    apply (Hcol order_missing_qty eq_refl) in Hs.
    apply Forall_cons in Hs as [[z Hz] _]. discriminate Hz.
Defined.

(** ** Shape of normalized text, colours, size tokens, synonyms *)

Lemma join_split_from (s : ustr) : ∀ cur,
  spaced false s = true → rstrip s = s →
  (cur ≠ [] ∨ match s with [] => True | c :: _ => is_space c = false end) →
  join_sp (split_from cur s) = cur ++ s
  ∧ (split_from cur s = [] → cur = [] ∧ s = []).
Proof.
  induction s as [|c s IH]; intros cur Hsp Hr Hc.
  - cbn. destruct cur; cbn; [done|]. by rewrite app_nil_r.
  - cbn [split_from]. destruct (is_space c) eqn:Hs.
    + destruct Hc as [Hcur|Hc]; [|congruence].
      cbn in Hsp. destruct (is_keep c) eqn:Hk.
      { by rewrite (keep_not_space _ Hk) in Hs. }
      apply andb_true_iff in Hsp as [Hc32 Hsp].
      apply andb_true_iff in Hc32 as [Hc32 _]. apply N.eqb_eq in Hc32 as ->.
      cbn [rstrip] in Hr. change (is_space 32) with true in Hr.
      destruct (rstrip s) as [|c' r'] eqn:Hrs; cbn in Hr; [done|].
      injection Hr as Hr. subst s.
      assert (is_space c' = false) as Hc'.
      { cbn in Hsp. destruct (is_keep c') eqn:Hk'.
        - by apply keep_not_space.
        - by rewrite andb_false_r in Hsp. }
      destruct (IH [] (spaced_weaken _ _ Hsp) eq_refl (or_intror Hc'))
        as [Hj Hne].
      destruct cur as [|a cur]; [done|]. cbn [nonempty app].
      destruct (split_from [] (c' :: r')) as [|w L] eqn:Hsf.
      { by destruct Hne. }
      split; [|done]. cbn [join_sp]. cbn in Hj. by rewrite Hj.
    + assert (spaced false s = true) as Hsp'.
      { cbn in Hsp. destruct (is_keep c); [done|].
        apply andb_true_iff in Hsp as [Hc32 _].
        apply andb_true_iff in Hc32 as [Hc32 _]. apply N.eqb_eq in Hc32 as ->.
        done. }
      assert (rstrip s = s) as Hr'.
      { cbn [rstrip] in Hr. rewrite Hs in Hr. cbn in Hr. by injection Hr. }
      assert (cur ++ [c] ≠ []) as Hcur by (by destruct cur).
      destruct (IH (cur ++ [c]) Hsp' Hr' (or_introl Hcur)) as [Hj Hne].
      split.
      * by rewrite Hj, <- app_assoc.
      * intros E. destruct (Hne E) as [E' _]. by destruct cur.
Qed.

Lemma strip_fixed_rstrip s : strip s = s → rstrip s = s.
Proof. intros H. rewrite <- H. unfold strip. apply rstrip_idem. Qed.

Lemma strip_fixed_head s :
  strip s = s → match s with [] => True | c :: _ => is_space c = false end.
Proof.
  intros H. pose proof (lstrip_head s) as Hh. unfold strip in H.
  destruct (lstrip s) as [|c l] eqn:E.
  - cbn in H. by subst.
  - cbn [rstrip] in H. rewrite Hh in H. cbn in H. by subst.
Qed.

Lemma join_split_spaced s :
  spaced false s = true → strip s = s → join_sp (split_ws s) = s.
Proof.
  intros Hsp Hst. unfold split_ws.
  destruct (join_split_from s [] Hsp (strip_fixed_rstrip _ Hst)) as [H _].
  - right. by apply strip_fixed_head.
  - done.
Qed.

(** X1. Whatever the cell and whatever NFKC normalization and lower-casing
    do, the result of [normalize_text_ultra] consists of digits, the letters
    a-z, Hangul syllables and spaces only, has no two adjacent spaces and no
    space at either end; splitting it on whitespace and joining the words
    with single spaces gives it back. *)
Theorem normalized_text_is_spaced_words {R : Runtime} (x : cell) :
  forallb is_normal_char (normalize_text_ultra x) = true
  ∧ spaced false (normalize_text_ultra x) = true
  ∧ strip (normalize_text_ultra x) = normalize_text_ultra x
  ∧ join_sp (split_ws (normalize_text_ultra x)) = normalize_text_ultra x.
Proof.
  destruct (normalize_text_shape x) as [Hsp Hst]. split_and!.
  - by eapply spaced_normal.
  - done.
  - done.
  - by apply join_split_spaced.
Qed.

(** X2. A colour none of whose words is a key of [COLOR_ALIASES] is
    normalized like any other text: [normalize_color_ultra] returns what
    [normalize_text_ultra] returns. *)
Theorem color_without_alias (R : Runtime) (cfg : config) (x : cell) :
  Forall (λ w, COLOR_ALIASES cfg !! w = None)
    (split_ws (normalize_text_ultra x)) →
  normalize_color_ultra cfg x = normalize_text_ultra x.
Proof.
  intros Hnone. unfold normalize_color_ultra. cbv zeta.
  destruct (normalize_text_shape x) as [Hsp Hst].
  rewrite <- (join_split_spaced _ Hsp Hst) at 2. f_equal.
  induction Hnone as [|w l Hw _ IH]; [done|].
  cbn. rewrite Hw. cbn. by f_equal.
Qed.

Lemma color_without_alias_witness :
  normalize_color_ultra (R := reference_runtime) default_config
    (CStr (u " Navy-Blue "))
  = normalize_text_ultra (R := reference_runtime) (CStr (u " Navy-Blue ")).
Proof.
  apply (color_without_alias reference_runtime default_config).
  vm_compute. repeat constructor.
Defined.

Lemma size_canon_cases (syn : list (ustr * list ustr)) (t : ustr) :
  size_canon syn t = t ∨ size_canon syn t ∈ syn.*1.
Proof.
  induction syn as [|[canon variants] syn IH]; [by left|]. cbn.
  destruct (_ || _).
  - right. by left.
  - destruct IH as [IH|IH]; [by left|]. right. by right.
Qed.

Lemma size_canon_not_mentioned (syn : list (ustr * list ustr)) (t : ustr) :
  Forall (not_mentioned t) syn → size_canon syn t = t.
Proof.
  induction 1 as [|[canon variants] syn [H1 H2] _ IH]; [done|]. cbn in *.
  by rewrite (bool_decide_eq_false_2 _ H1), (bool_decide_eq_false_2 _ H2).
Qed.

Lemma size_canon_first (pre post : list (ustr * list ustr)) canon variants t :
  Forall (not_mentioned t) pre → t = canon ∨ t ∈ variants →
  size_canon (pre ++ (canon, variants) :: post) t = canon.
Proof.
  induction 1 as [|[canon' variants'] syn [H1 H2] _ IH]; intros Ht.
  - cbn. destruct Ht as [Ht|Ht].
    + by rewrite (bool_decide_eq_true_2 _ Ht).
    + rewrite (bool_decide_eq_true_2 _ Ht). by rewrite orb_true_r.
  - cbn in *.
    rewrite (bool_decide_eq_false_2 _ H1), (bool_decide_eq_false_2 _ H2).
    by apply IH.
Qed.

(** X3. [_normalize_size_token] lower-cases the token and returns the
    canonical label of the first group of [SIZE_SYNONYMS], in the order of
    the table, whose label or variants contain it; a token that no group
    mentions is returned lower-cased. *)
Theorem size_token_first_group_wins {R : Runtime} (cfg : config)
    (tok : ustr) :
  (Forall (not_mentioned (lower tok)) (SIZE_SYNONYMS cfg) →
   _normalize_size_token cfg tok = lower tok)
  ∧ (∀ pre canon variants post,
       SIZE_SYNONYMS cfg = pre ++ (canon, variants) :: post →
       Forall (not_mentioned (lower tok)) pre →
       lower tok = canon ∨ lower tok ∈ variants →
       _normalize_size_token cfg tok = canon)
  ∧ (_normalize_size_token cfg tok = lower tok
     ∨ _normalize_size_token cfg tok ∈ (SIZE_SYNONYMS cfg).*1).
Proof.
  unfold _normalize_size_token. split_and!.
  - apply size_canon_not_mentioned.
  - intros pre canon variants post ->. apply size_canon_first.
  - apply size_canon_cases.
Qed.

Lemma size_token_first_group_wins_witness :
  _normalize_size_token (R := reference_runtime) default_config (u "2XL")
  = u "xxl".
Proof.
  apply (proj1 (proj2 (size_token_first_group_wins (R := reference_runtime)
                         default_config (u "2XL")))
           [] (u "xxl") [u "2xl"] []).
  - reflexivity.
  - constructor.
  - right. vm_compute. by left.
Defined.

Section Synonyms.
Context {R : Runtime}.
Variable cfg : config.

Lemma sub_literal_no_occurrence (v canon s : ustr) :
  occurs_ci v s = false → sub_literal_ci v canon 0 s = s.
Proof.
  induction s as [|c s IH]; [done|]. intros H.
  cbn [occurs_ci] in H. apply orb_false_iff in H as [Hp Ho].
  cbn [sub_literal_ci]. rewrite Hp. f_equal. by apply IH.
Qed.

Lemma re_sub_no_occurrence (v canon s : ustr) :
  occurs_ci v s = false → re_sub_ci v canon s = s.
Proof.
  intros H. destruct v as [|a v].
  - by destruct s.
  - by apply sub_literal_no_occurrence.
Qed.

(** X4. A name in which no variant of [NAME_SYNONYM_GROUPS] occurs (up to
    case) is returned unchanged by [apply_bidir_synonyms_text]. *)
Theorem synonyms_leave_other_names (text : ustr) :
  no_variant_occurs cfg text → apply_bidir_synonyms_text cfg text = text.
Proof.
  unfold no_variant_occurs, apply_bidir_synonyms_text. intros Hno.
  destruct (nonempty text); [|done].
  induction Hno as [|[canon variants] groups Hg _ IH]; [done|].
  cbn [foldl]. cbn in Hg.
  replace (foldl (λ s v, re_sub_ci v canon s) text variants) with text;
    [exact IH|].
  clear IH. induction Hg as [|v variants Hv _ IH]; [done|].
  cbn [foldl]. by rewrite re_sub_no_occurrence.
Qed.

End Synonyms.

Lemma synonyms_leave_other_names_witness :
  apply_bidir_synonyms_text (R := reference_runtime) default_config
    (u "blue shirt")
  = u "blue shirt".
Proof.
  apply (synonyms_leave_other_names (R := reference_runtime)).
  unfold no_variant_occurs. vm_compute. repeat constructor.
Defined.

Section TokenShape.
Context {R : Runtime}.
Variable cfg : config.
Hypothesis Hlower : fixes_normal_text lower.

Abbreviation token_ok :=
  (λ t : ustr, t ∈ (SIZE_SYNONYMS cfg).*1 ∨ is_word t).

Lemma keep_is_normal (s : ustr) :
  forallb is_keep s = true → forallb is_normal_char s = true.
Proof.
  induction s as [|c s IH]; [done|]. cbn. rewrite !andb_true_iff.
  intros [Hc Hs]. split; [|by apply IH]. unfold is_normal_char. by rewrite Hc.
Qed.

Lemma forallb_filter_keep (s : list N) :
  forallb is_keep (filter (λ c, is_keep c = true) s) = true.
Proof.
  induction s as [|c s IH]; [done|]. rewrite filter_cons.
  destruct (decide (is_keep c = true)) as [Hc|Hc]; [|done].
  cbn. by rewrite Hc.
Qed.

Lemma add_value_ok (tokens : gset ustr) (value : ustr) :
  set_Forall token_ok tokens → set_Forall token_ok (add_value cfg tokens value).
Proof.
  intros Hok. unfold add_value. cbv zeta.
  destruct (filter _ value) as [|c cleaned] eqn:E; [done|]. cbn [nonempty].
  apply set_Forall_union; [|done]. apply set_Forall_singleton.
  assert (forallb is_keep (c :: cleaned) = true) as Hk
    by (rewrite <- E; apply forallb_filter_keep).
  unfold _normalize_size_token. rewrite Hlower by (by apply keep_is_normal).
  destruct (size_canon_cases (SIZE_SYNONYMS cfg) (c :: cleaned)) as [->|H].
  - right. by split.
  - by left.
Qed.

Lemma add_token_ok (tokens : gset ustr) (tok : ustr) :
  set_Forall token_ok tokens → set_Forall token_ok (add_token cfg tokens tok).
Proof.
  intros Hok. unfold add_token. cbv zeta. destruct (nonempty _); [|done].
  apply foldl_invariant; [|done]. intros a x _. apply add_value_ok.
Qed.


End TokenShape.


(** X6. The token set of a size cell does not depend on the order in which
    Python visits the intermediate set of bracket values: two environments
    that differ only in the iteration order of sets give the same
    tokens. *)
Theorem size_tokens_independent_of_iteration_order (R : Runtime)
    (cfg : config) (iter' : gset ustr → list ustr) (x : cell) :
  enumerates_sets set_iter → enumerates_sets iter' →
  extract_size_parts_ultra (R := with_iter R iter') cfg x
  = extract_size_parts_ultra cfg x.
Proof.
  intros Hiter Hiter'. unfold extract_size_parts_ultra. cbv zeta.
  apply foldl_ext_in. intros acc tok _.
  by apply add_token_with_iter.
Qed.

Lemma size_tokens_independent_of_iteration_order_witness :
  extract_size_parts_ultra
    (R := with_iter reference_runtime (λ X, reverse (elements X)))
    default_config (CStr (u "7(M), 2XL"))
  = extract_size_parts_ultra (R := reference_runtime) default_config
      (CStr (u "7(M), 2XL")).
Proof.
  apply (size_tokens_independent_of_iteration_order reference_runtime).
  - apply reference_iter_enumerates.
  - apply reversed_iter_enumerates.
Defined.

(** ** Records and the lines they pair *)

Section Records.
Context {R : Runtime}.
Variable cfg : config.

Lemma sequential_step_scored receipt_df matched_df st r_idx r_row :
  rows receipt_df !! r_idx = Some r_row →
  Forall (scored_pair cfg bare receipt_df matched_df) (matched_results st) →
  Forall (scored_pair cfg bare receipt_df matched_df)
    (matched_results
       (sequential_step cfg (rows matched_df) st (r_idx, r_row))).
Proof.
  intros Hr Hst. unfold sequential_step. cbv zeta.
  destruct (_ <=? 0); [done|].
  apply allocate_results; [done|].
  intros j conf det Hin. apply elem_of_sort_desc in Hin.
  unfold sequential_candidates in Hin.
  apply list_elem_of_omap in Hin as ([j' m] & Hin & Ht).
  apply elem_of_enumerate in Hin. cbn in Ht.
  destruct (calculate_match_confidence_perfect _ _ _) as [[ok c] d] eqn:E.
  destruct ok; [|done]. cbn in Ht. destruct (bool_decide _); [|done].
  injection Ht as <- <- <-.
  by exists r_row, m.
Qed.

Lemma blocked_step_scored receipt_df matched_df ix st r_idx r :
  rows receipt_df !! r_idx = Some r →
  Forall (scored_pair cfg (precomputed_series cfg) receipt_df matched_df)
    (matched_results st) →
  Forall (scored_pair cfg (precomputed_series cfg) receipt_df matched_df)
    (matched_results
       (blocked_step cfg (_precompute_normalized_columns cfg matched_df) ix
          st (r_idx, (r, precompute_row cfg r)))).
Proof.
  intros Hr Hst. rewrite blocked_step_alt. cbv zeta.
  destruct (_ <=? 0); [done|].
  apply allocate_results; [done|].
  intros j conf det Hin. apply elem_of_sort_desc in Hin.
  unfold blocked_results in Hin.
  apply list_elem_of_omap in Hin as (t & _ & Ht).
  destruct (_ !! t.2) as [m_idx|]; [|done]. cbn in Ht.
  unfold _precompute_normalized_columns in Ht.
  rewrite list_lookup_fmap in Ht.
  destruct (rows matched_df !! m_idx) as [m|] eqn:Hm; [|done]. cbn in Ht.
  destruct (calculate_match_confidence_perfect _ _ _) as [[ok c] d] eqn:E.
  destruct ok; [|done]. injection Ht as <- <- <-.
  by exists r, m.
Qed.

Lemma sequential_scored receipt_df matched_df results :
  fuzzy_match_orders_perfect_sequential cfg receipt_df matched_df
  = Some results →
  Forall (scored_pair cfg bare receipt_df matched_df) results.
Proof.
  unfold fuzzy_match_orders_perfect_sequential. intros H.
  destruct (quantities receipt_df), (quantities matched_df); try done.
  cbn in H. injection H as <-.
  apply (foldl_invariant
           (λ st, Forall (scored_pair cfg bare receipt_df matched_df)
                    (matched_results st))); [|by cbn].
  intros st [i r] Hin. apply elem_of_enumerate in Hin.
  by apply sequential_step_scored.
Qed.

Lemma blocked_scored_pairs receipt_df matched_df results :
  fuzzy_match_orders_blocked cfg receipt_df matched_df = Some results →
  Forall (scored_pair cfg (precomputed_series cfg) receipt_df matched_df)
    results.
Proof.
  unfold fuzzy_match_orders_blocked. intros H.
  destruct (quantities receipt_df), (quantities matched_df); try done.
  cbn in H. injection H as <-.
  apply (foldl_invariant
           (λ st, Forall (scored_pair cfg (precomputed_series cfg)
                            receipt_df matched_df) (matched_results st)));
    [|by cbn].
  intros st [i row] Hin. apply elem_of_enumerate in Hin.
  unfold _precompute_normalized_columns in Hin.
  rewrite list_lookup_fmap in Hin.
  destruct (rows receipt_df !! i) as [r|] eqn:Hr; [|done].
  injection Hin as <-. by apply blocked_step_scored.
Qed.

(** X7. Every record of a run pairs an order line and a catalogue line
    that exist in the two sheets, and its confidence and details are
    exactly what [calculate_match_confidence_perfect] returns, with
    [accepted = True], for those two rows: the rows with their precomputed
    columns in the fast matcher, the raw rows in the slow one. *)
Theorem records_carry_the_score_of_their_lines receipt_df matched_df
    results :
  (fuzzy_match_orders_blocked cfg receipt_df matched_df = Some results →
   Forall (scored_pair cfg (precomputed_series cfg) receipt_df matched_df)
     results)
  ∧ (fuzzy_match_orders_perfect_sequential cfg receipt_df matched_df
     = Some results →
     Forall (scored_pair cfg bare receipt_df matched_df) results).
Proof.
  split; [apply blocked_scored_pairs | apply sequential_scored].
Qed.

Lemma accepted_same_lines (r m : raw_row) conf det :
  calculate_match_confidence_perfect cfg (bare r) (bare m)
  = (true, conf, det)
  ∨ calculate_match_confidence_perfect cfg (precomputed_series cfg r)
      (precomputed_series cfg m)
    = (true, conf, det) →
  same_brand_colour_size cfg r m.
Proof.
  intros [H|H]; apply accepted_confidence in H as (_ & _ & Hs & Hb & Hc).
  - done.
  - unfold precomputed_series in *.
    by rewrite !row_brand_pre in Hb; rewrite !row_color_pre in Hc;
      rewrite !row_sizes_pre in Hs.
Qed.

(** X8. Neither matcher pairs lines of different brands or colours, or
    lines without a common size token: the two lines of every record have
    the same normalized brand, the same normalized colour and a size token
    in common. *)
Theorem records_pair_like_lines receipt_df matched_df results :
  fuzzy_match_orders_blocked cfg receipt_df matched_df = Some results
  ∨ fuzzy_match_orders_perfect_sequential cfg receipt_df matched_df
    = Some results →
  Forall (pairs_like_lines cfg receipt_df matched_df) results.
Proof.
  intros [H|H].
  - apply blocked_scored_pairs in H. eapply Forall_impl; [exact H|].
    intros mr (r & m & Hr & Hm & Hs). exists r, m. split_and!; [done..|].
    eapply accepted_same_lines. by right.
  - apply sequential_scored in H. eapply Forall_impl; [exact H|].
    intros mr (r & m & Hr & Hm & Hs). exists r, m. split_and!; [done..|].
    eapply accepted_same_lines. by left.
Qed.

(** *** Records come grouped by order line *)

Lemma allocate_appends r_idx results remain st :
  ∃ new,
    matched_results (allocate r_idx results remain st)
    = matched_results st ++ new
    ∧ Forall (λ mr, receipt_idx mr = r_idx) new.
Proof.
  revert remain st.
  induction results as [|[[m_idx conf] det] rest IH]; intros remain st.
  - exists []. by rewrite app_nil_r.
  - cbn [allocate]. destruct (remain <=? 0).
    { exists []. by rewrite app_nil_r. }
    destruct (_ <=? 0); [apply IH|].
    edestruct IH as (new & -> & Hnew). cbn [matched_results].
    eexists. rewrite <- app_assoc. split; [done|].
    apply Forall_app. split; [|done]. by apply Forall_replicate.
Qed.

Lemma sequential_step_appends M st i r_row :
  ∃ new,
    matched_results (sequential_step cfg M st (i, r_row))
    = matched_results st ++ new
    ∧ Forall (λ mr, receipt_idx mr = i) new.
Proof.
  unfold sequential_step. cbv zeta. destruct (_ <=? 0).
  - exists []. by rewrite app_nil_r.
  - apply allocate_appends.
Qed.

Lemma blocked_step_appends M ix st i r_row :
  ∃ new,
    matched_results (blocked_step cfg M ix st (i, r_row))
    = matched_results st ++ new
    ∧ Forall (λ mr, receipt_idx mr = i) new.
Proof.
  rewrite blocked_step_alt. cbv zeta. destruct (_ <=? 0).
  - exists []. by rewrite app_nil_r.
  - apply allocate_appends.
Qed.

End Records.

Lemma foldl_enumerate_grouped {A} (step : run_state → nat * A → run_state)
    (l : list A) (st0 : run_state) :
  (∀ st i x, ∃ new,
     matched_results (step st (i, x)) = matched_results st ++ new
     ∧ Forall (λ mr, receipt_idx mr = i) new) →
  matched_results st0 = [] →
  StronglySorted le
    (receipt_idx <$> matched_results (foldl step st0 (enumerate l)))
  ∧ Forall (λ mr, (receipt_idx mr < length l)%nat)
      (matched_results (foldl step st0 (enumerate l))).
Proof.
  intros Hstep H0. induction l as [|x l IH] using rev_ind.
  - cbn. rewrite H0. split; constructor.
  - rewrite enumerate_snoc, foldl_snoc.
    destruct (Hstep (foldl step st0 (enumerate l)) (length l) x)
      as (new & -> & Hnew).
    destruct IH as [Hs Hb]. rewrite length_app. cbn. split.
    + rewrite fmap_app. apply StronglySorted_app_2.
      * intros a b Ha Hb'. apply list_elem_of_fmap in Ha as (mr & -> & Ha).
        apply list_elem_of_fmap in Hb' as (mr' & -> & Hb').
        rewrite Forall_forall in Hb, Hnew.
        specialize (Hb _ Ha). specialize (Hnew _ Hb'). lia.
      * done.
      * clear -Hnew. induction Hnew as [|mr new Hmr Hnew IH]; cbn.
        { constructor. }
        constructor; [done|]. apply Forall_fmap.
        eapply Forall_impl; [exact Hnew|]. cbn. intros mr' ->. lia.
    + apply Forall_app. split.
      * eapply Forall_impl; [exact Hb|]. cbn. lia.
      * eapply Forall_impl; [exact Hnew|]. cbn. lia.
Qed.

Lemma StronglySorted_lookup_le (l : list nat) k1 k2 a b :
  StronglySorted le l → (k1 ≤ k2)%nat → l !! k1 = Some a → l !! k2 = Some b →
  (a ≤ b)%nat.
Proof.
  intros Hs. revert k1 k2. induction Hs as [|x l Hs IH Hx]; intros k1 k2;
    [done|].
  destruct k1 as [|k1], k2 as [|k2]; cbn; intros Hle H1 H2.
  - injection H1 as <-. by injection H2 as <-.
  - injection H1 as <-. rewrite Forall_forall in Hx. apply Hx.
    by eapply list_elem_of_lookup_2.
  - lia.
  - eapply IH; [|done..]. lia.
Qed.

(** X9. Both matchers emit their records grouped by order line, in the
    order of the order sheet: the order-line labels never decrease along
    the list of records. *)
Theorem records_follow_the_order_sheet {R : Runtime} (cfg : config)
    receipt_df matched_df results k1 k2 mr1 mr2 :
  fuzzy_match_orders_blocked cfg receipt_df matched_df = Some results
  ∨ fuzzy_match_orders_perfect_sequential cfg receipt_df matched_df
    = Some results →
  (k1 ≤ k2)%nat → results !! k1 = Some mr1 → results !! k2 = Some mr2 →
  (receipt_idx mr1 ≤ receipt_idx mr2)%nat.
Proof.
  intros Hrun Hle H1 H2.
  assert (StronglySorted le (receipt_idx <$> results)) as Hs.
  { destruct Hrun as [H|H].
    - unfold fuzzy_match_orders_blocked in H.
      destruct (quantities receipt_df), (quantities matched_df); try done.
      cbn in H. injection H as <-.
      apply foldl_enumerate_grouped; [|done].
      intros st i x. apply blocked_step_appends.
    - unfold fuzzy_match_orders_perfect_sequential in H.
      destruct (quantities receipt_df), (quantities matched_df); try done.
      cbn in H. injection H as <-.
      apply foldl_enumerate_grouped; [|done].
      intros st i x. apply sequential_step_appends. }
  eapply (StronglySorted_lookup_le _ k1 k2); [exact Hs | done | |];
    rewrite list_lookup_fmap.
  - by rewrite H1.
  - by rewrite H2.
Qed.

(** *** The slow matcher serves an order while matching stock lasts *)

Lemma allocate_done r_idx results remain st :
  remain ≤ 0 → allocate r_idx results remain st = st.
Proof.
  intros H. destruct results as [|[[m c] d] rest]; [done|]. cbn.
  by rewrite (proj2 (Z.leb_le _ _) H).
Qed.

Lemma allocate_stock_decreases r_idx results remain st j :
  getitem (matched_qty (allocate r_idx results remain st)) j
  ≤ getitem (matched_qty st) j.
Proof.
  revert remain st.
  induction results as [|[[m_idx conf] det] rest IH]; intros remain st;
    [done|].
  cbn [allocate]. destruct (remain <=? 0) eqn:Hrem; [done|].
  destruct (getitem (matched_qty st) m_idx <=? 0) eqn:Hm; [apply IH|].
  apply Z.leb_gt in Hrem, Hm. etrans; [apply IH|]. cbn.
  rewrite getitem_insert. destruct (decide (m_idx = j)) as [->|]; lia.
Qed.

Lemma allocate_other_orders r_idx results remain st i :
  i ≠ r_idx →
  getitem (receipt_qty (allocate r_idx results remain st)) i
  = getitem (receipt_qty st) i.
Proof.
  intros Hne. revert remain st.
  induction results as [|[[m_idx conf] det] rest IH]; intros remain st;
    [done|].
  cbn [allocate]. destruct (remain <=? 0); [done|].
  destruct (_ <=? 0); [apply IH|]. rewrite IH. cbn.
  rewrite getitem_insert. by rewrite decide_False.
Qed.

Lemma allocate_exhausts r_idx results remain st :
  getitem (receipt_qty st) r_idx = remain →
  getitem (receipt_qty (allocate r_idx results remain st)) r_idx ≤ 0
  ∨ Forall (λ x : scored_candidate,
              getitem (matched_qty (allocate r_idx results remain st)) x.1.1
              ≤ 0) results.
Proof.
  revert remain st.
  induction results as [|[[m_idx conf] det] rest IH]; intros remain st Hr.
  - right. constructor.
  - cbn [allocate]. destruct (remain <=? 0) eqn:Hrem.
    { left. apply Z.leb_le in Hrem. lia. }
    apply Z.leb_gt in Hrem.
    destruct (getitem (matched_qty st) m_idx <=? 0) eqn:Hm.
    + apply Z.leb_le in Hm. destruct (IH remain st Hr) as [H|H]; [by left|].
      right. constructor; [|done]. cbn.
      etrans; [apply allocate_stock_decreases | done].
    + apply Z.leb_gt in Hm.
      set (q := Z.min remain (getitem (matched_qty st) m_idx)).
      set (st1 := {| matched_results := _; receipt_qty := _;
                     matched_qty := _ |}).
      assert (getitem (receipt_qty st1) r_idx = remain - q) as Hr1.
      { unfold st1. cbn. rewrite getitem_insert, decide_True by done. lia. }
      destruct (decide (remain - q ≤ 0)) as [Hz|Hz].
      * left. rewrite allocate_done by done. lia.
      * destruct (IH (remain - q) st1 Hr1) as [H|H]; [by left|].
        right. constructor; [|done]. cbn.
        etrans; [apply allocate_stock_decreases|].
        unfold st1. cbn. rewrite getitem_insert, decide_True by done.
        unfold q in *. lia.
Qed.

Lemma served_or_sold_out_later (M : list raw_row) acceptable st st' i r :
  served_or_sold_out M acceptable st i r →
  getitem (receipt_qty st') i = getitem (receipt_qty st) i →
  (∀ j, getitem (matched_qty st') j ≤ getitem (matched_qty st) j) →
  served_or_sold_out M acceptable st' i r.
Proof.
  intros [H|H] Hr Hm; [left; lia|]. right. intros j m Hj Hacc.
  etrans; [apply Hm|]. by eapply H.
Qed.

Lemma fold_serves {A} (step : run_state → nat * A → run_state)
    (row_of : A → raw_row) (ok : A → Prop) (M : list raw_row) acceptable
    (rq mq : gmap nat Z) (l : list A) :
  (∀ st i x, conserves rq mq st → is_Some (rq !! i) →
             conserves rq mq (step st (i, x))) →
  (∀ st e j, getitem (matched_qty (step st e)) j
             ≤ getitem (matched_qty st) j) →
  (∀ st i' x i, i ≠ i' →
     getitem (receipt_qty (step st (i', x))) i = getitem (receipt_qty st) i) →
  (∀ st i x, ok x → is_Some (receipt_qty st !! i) →
     served_or_sold_out M acceptable (step st (i, x)) i (row_of x)) →
  Forall ok l →
  (∀ i, (i < length l)%nat → is_Some (rq !! i)) →
  let st := foldl step {| matched_results := []; receipt_qty := rq;
                          matched_qty := mq |} (enumerate l) in
  conserves rq mq st
  ∧ ∀ i x, l !! i = Some x →
           served_or_sold_out M acceptable st i (row_of x).
Proof.
  intros Hcons Hdec Hother Hserve Hok Hdom. cbv zeta.
  induction l as [|x l IH] using rev_ind.
  - split; [apply conserves_init|]. intros i x. by rewrite lookup_nil.
  - apply Forall_app in Hok as [Hok Hx]. rewrite Forall_singleton in Hx.
    rewrite length_app in Hdom. cbn in Hdom.
    destruct (IH Hok) as [Hc Hs]. { intros i Hi. apply Hdom. lia. }
    rewrite enumerate_snoc, foldl_snoc.
    set (st := foldl step _ (enumerate l)) in *.
    assert (is_Some (rq !! length l)) as Hl by (apply Hdom; lia).
    split; [by apply Hcons|].
    intros i y Hy. destruct (decide (i = length l)) as [->|Hne].
    + rewrite lookup_app_r, Nat.sub_diag in Hy by lia. injection Hy as <-.
      apply Hserve; [done|]. destruct Hc as (_ & _ & Hd). by apply Hd.
    + assert (l !! i = Some y) as Hy'.
      { apply lookup_lt_Some in Hy as Hlt. rewrite length_app in Hlt.
        cbn in Hlt. rewrite lookup_app_l in Hy by lia. done. }
      eapply served_or_sold_out_later; [by apply Hs | | apply Hdec].
      by apply Hother.
Qed.

Lemma short_order_sold_out (M : list raw_row) acceptable rq mq st results
    i r j m :
  conserves rq mq st → matched_results st = results →
  served_or_sold_out M acceptable st i r →
  M !! j = Some m → acceptable r m →
  units_of_order i results < getitem rq i →
  units_of_catalog_line j results = Z.max 0 (getitem mq j).
Proof.
  intros (Ho & Hc & _) <- Hs Hj Hacc Hshort.
  specialize (Ho i). specialize (Hc j).
  destruct Hs as [Hs|Hs]; [lia|]. specialize (Hs j m Hj Hacc). lia.
Qed.

Section Service.
Context {R : Runtime}.
Variable cfg : config.

Lemma sequential_step_stock_decreases M st e j :
  getitem (matched_qty (sequential_step cfg M st e)) j
  ≤ getitem (matched_qty st) j.
Proof.
  destruct e as [i r]. unfold sequential_step. cbv zeta.
  destruct (_ <=? 0); [done|]. apply allocate_stock_decreases.
Qed.

Lemma sequential_step_other_orders M st i' r i :
  i ≠ i' →
  getitem (receipt_qty (sequential_step cfg M st (i', r))) i
  = getitem (receipt_qty st) i.
Proof.
  intros Hne. unfold sequential_step. cbv zeta.
  destruct (_ <=? 0); [done|]. by apply allocate_other_orders.
Qed.

Lemma sequential_step_serves M st i r :
  is_Some (receipt_qty st !! i) →
  served_or_sold_out M (λ r m, accepts cfg r m = true)
    (sequential_step cfg M st (i, r)) i r.
Proof.
  intros [v Hv]. unfold sequential_step. cbv zeta. rewrite Hv. cbn.
  destruct (v <=? 0) eqn:Hz.
  { left. apply Z.leb_le in Hz. by rewrite (getitem_Some _ _ _ Hv). }
  set (cands := sort_desc conf_of _).
  destruct (allocate_exhausts i cands v st (getitem_Some _ _ _ Hv))
    as [H|H]; [by left|].
  right. intros j m Hj Hacc.
  destruct (decide (0 < default 0 (matched_qty st !! j))) as [Hs|Hs].
  - unfold accepts in Hacc.
    destruct (calculate_match_confidence_perfect cfg (bare r) (bare m))
      as [[ok conf] det] eqn:E. cbn in Hacc. subst ok.
    rewrite Forall_forall in H. apply (H (j, conf, det)).
    unfold cands. apply elem_of_sort_desc. unfold sequential_candidates.
    apply list_elem_of_omap. exists (j, m). split.
    + by apply elem_of_enumerate.
    + cbn. rewrite E. cbn. by rewrite bool_decide_eq_true_2.
  - etrans; [apply allocate_stock_decreases|]. unfold getitem. lia.
Qed.

(** X10. The slow matcher leaves no order line short while acceptable
    stock remains: if a run emits fewer records for an order line than its
    quantity, then every catalogue line that the scorer accepts for that
    order line is used up, the records that reference it being as many as
    its stock. *)
Theorem slow_matcher_serves_while_stock_lasts receipt_df matched_df rq mq
    results i r j m :
  quantities receipt_df = Some rq → quantities matched_df = Some mq →
  fuzzy_match_orders_perfect_sequential cfg receipt_df matched_df
  = Some results →
  rows receipt_df !! i = Some r → rows matched_df !! j = Some m →
  accepts cfg r m = true →
  units_of_order i results < getitem rq i →
  units_of_catalog_line j results = Z.max 0 (getitem mq j).
Proof.
  intros Hrq Hmq Hrun Hi Hj Hacc Hshort.
  unfold fuzzy_match_orders_perfect_sequential in Hrun.
  rewrite Hrq, Hmq in Hrun. cbn in Hrun. injection Hrun as Hrun.
  destruct (fold_serves (sequential_step cfg (rows matched_df)) id
              (λ _, True) (rows matched_df) (λ r m, accepts cfg r m = true)
              rq mq (rows receipt_df)) as [Hc Hs].
  - intros st i' x. apply sequential_step_conserves.
  - apply sequential_step_stock_decreases.
  - apply sequential_step_other_orders.
  - intros st i' x _. apply sequential_step_serves.
  - by apply Forall_forall.
  - intros i' Hi'. apply lookup_lt_is_Some_2 in Hi' as [x Hx].
    by eapply quantities_dom.
  - eapply short_order_sold_out; [exact Hc | exact Hrun | by apply Hs | ..];
      done.
Qed.

(** *** The blocking index loses no acceptable line *)

Hypothesis Hiter : enumerates_sets set_iter.

Lemma blocked_step_stock_decreases M ix st e j :
  getitem (matched_qty (blocked_step cfg M ix st e)) j
  ≤ getitem (matched_qty st) j.
Proof.
  destruct e as [i r]. rewrite blocked_step_alt. cbv zeta.
  destruct (_ <=? 0); [done|]. apply allocate_stock_decreases.
Qed.

Lemma blocked_step_other_orders M ix st i' r i :
  i ≠ i' →
  getitem (receipt_qty (blocked_step cfg M ix st (i', r))) i
  = getitem (receipt_qty st) i.
Proof.
  intros Hne. rewrite blocked_step_alt. cbv zeta.
  destruct (_ <=? 0); [done|]. by apply allocate_other_orders.
Qed.

Lemma or_else_nonempty (x y : ustr) : x ≠ [] → or_else (Some x) y = x.
Proof. by destruct x. Qed.

Lemma accepted_precomputed_facts (r m : raw_row) conf det :
  name_n (precompute_row cfg r) ≠ [] → name_n (precompute_row cfg m) ≠ [] →
  calculate_match_confidence_perfect cfg (precomputed_series cfg r)
    (precomputed_series cfg m) = (true, conf, det) →
  brand_n (precompute_row cfg r) = brand_n (precompute_row cfg m)
  ∧ color_n (precompute_row cfg r) = color_n (precompute_row cfg m)
  ∧ (∃ s, s ∈ sizes_s (precompute_row cfg r)
          ∧ s ∈ sizes_s (precompute_row cfg m))
  ∧ Qgeb (partial_ratio (name_n (precompute_row cfg r))
            (name_n (precompute_row cfg m))) (name_score_cutoff cfg) = true.
Proof.
  intros Hr Hm H. apply accepted_confidence in H as (Hn & _ & Hs & Hb & Hc).
  unfold precomputed_series in *.
  rewrite !row_brand_pre in Hb. rewrite !row_color_pre in Hc.
  split_and!.
  - cbn. by rewrite !normalize_text_fillna.
  - cbn. by rewrite !normalize_color_fillna.
  - apply set_choose_L in Hs as [s Hs]. apply elem_of_intersection in Hs.
    by exists s.
  - apply Qgeb_true. unfold row_name in Hn. cbn [pre with_pre fmap option_fmap
      option_map snd] in Hn.
    rewrite !or_else_nonempty in Hn by done.
    unfold fast_fuzzy_match in Hn.
    destruct (name_n (precompute_row cfg r)), (name_n (precompute_row cfg m));
      done.
Qed.

Lemma blocked_step_serves matched_df st i r :
  is_Some (receipt_qty st !! i) →
  served_or_sold_out (rows matched_df) (accepts_precomputed cfg)
    (blocked_step cfg (_precompute_normalized_columns cfg matched_df)
       (_build_candidate_index (_precompute_normalized_columns cfg matched_df))
       st (i, (r, precompute_row cfg r))) i r.
Proof.
  intros [v Hv]. rewrite blocked_step_alt. cbv zeta.
  replace (default 1 (receipt_qty st !! i)) with v by (by rewrite Hv).
  destruct (v <=? 0) eqn:Hz.
  { left. apply Z.leb_le in Hz. by rewrite (getitem_Some _ _ _ Hv). }
  set (Mp := _precompute_normalized_columns cfg matched_df).
  set (rp := (r, precompute_row cfg r)).
  set (ids := retrieve_candidates _ _ _ _ _).
  set (cands := sort_desc conf_of _).
  destruct (allocate_exhausts i cands v st (getitem_Some _ _ _ Hv))
    as [H|H]; [by left|].
  right. intros j m Hj (Hnr & Hnm & Hacc).
  destruct (decide (0 < default 0 (matched_qty st !! j))) as [Hs|Hs];
    [|etrans; [apply allocate_stock_decreases|]; unfold getitem; lia].
  destruct (calculate_match_confidence_perfect cfg (precomputed_series cfg r)
              (precomputed_series cfg m)) as [[ok conf] det] eqn:E.
  cbn in Hacc. subst ok.
  destruct (accepted_precomputed_facts r m conf det Hnr Hnm E)
    as (Hb & Hc & (s & Hsr & Hsm) & Hcut).
  assert (Mp !! j = Some (m, precompute_row cfg m)) as Hmp.
  { unfold Mp, _precompute_normalized_columns.
    by rewrite list_lookup_fmap, Hj. }
  assert (j ∈ ids) as Hin.
  { unfold ids. rewrite retrieve_candidates_eq by done.
    unfold in_stock. apply list_elem_of_filter. split; [done|]. cbv zeta.
    assert (j ∈ flat_map (tier_bcs Mp (brand_n rp.2) (color_n rp.2))
                  (set_iter (sizes_s rp.2))) as Ht1.
    { apply list_elem_of_In, in_flat_map. exists s. split.
      - apply list_elem_of_In. by apply elem_of_set_iter.
      - apply list_elem_of_In. apply elem_of_positions.
        exists (m, precompute_row cfg m). split; [done|].
        apply bool_decide_eq_true_2. by split_and!. }
    destruct (flat_map _ _); [by apply not_elem_of_nil in Ht1 | done]. }
  apply list_elem_of_lookup_1 in Hin as [k Hk].
  rewrite Forall_forall in H. apply (H (j, conf, det)).
  unfold cands. apply elem_of_sort_desc. unfold blocked_results.
  apply list_elem_of_omap.
  exists (name_n (precompute_row cfg m),
          partial_ratio (name_n (precompute_row cfg r))
            (name_n (precompute_row cfg m)), k).
  split.
  - unfold blocked_scored, extract. apply elem_of_sort_desc.
    apply list_elem_of_filter. split; [done|].
    apply elem_of_lookup_imap. exists k, (name_n (precompute_row cfg m)).
    split; [done|]. rewrite list_lookup_fmap, Hk. cbn. f_equal.
    unfold name_at. by rewrite Hmp.
  - cbn [snd]. rewrite Hk. cbn. rewrite Hmp. cbn.
    change (with_pre rp) with (precomputed_series cfg r).
    change (with_pre (m, precompute_row cfg m))
      with (precomputed_series cfg m).
    by rewrite E.
Qed.

(** X11. Blocking loses no acceptable line.  If a run of the fast matcher
    emits fewer records for an order line than its quantity, then every
    catalogue line that the scorer accepts for that order line, both lines
    having a name, is used up: the blocking index and the name filter never
    hide a line that the scorer would have accepted. *)
Theorem fast_matcher_serves_while_stock_lasts receipt_df matched_df rq mq
    results i r j m :
  quantities receipt_df = Some rq → quantities matched_df = Some mq →
  fuzzy_match_orders_blocked cfg receipt_df matched_df = Some results →
  rows receipt_df !! i = Some r → rows matched_df !! j = Some m →
  accepts_precomputed cfg r m →
  units_of_order i results < getitem rq i →
  units_of_catalog_line j results = Z.max 0 (getitem mq j).
Proof.
  intros Hrq Hmq Hrun Hi Hj Hacc Hshort.
  unfold fuzzy_match_orders_blocked in Hrun.
  rewrite Hrq, Hmq in Hrun. cbn in Hrun. injection Hrun as Hrun.
  set (Mp := _precompute_normalized_columns cfg matched_df) in *.
  destruct (fold_serves (blocked_step cfg Mp (_build_candidate_index Mp))
              fst (λ x, x.2 = precompute_row cfg x.1) (rows matched_df)
              (accepts_precomputed cfg) rq mq
              (_precompute_normalized_columns cfg receipt_df)) as [Hc Hs].
  - intros st i' x. apply blocked_step_conserves.
  - apply blocked_step_stock_decreases.
  - apply blocked_step_other_orders.
  - intros st i' [x p] Hp. cbn in Hp. subst p. cbn [fst].
    apply blocked_step_serves.
  - unfold _precompute_normalized_columns. apply Forall_fmap.
    by apply Forall_forall.
  - unfold _precompute_normalized_columns. rewrite length_fmap.
    intros i' Hi'. apply lookup_lt_is_Some_2 in Hi' as [x Hx].
    by eapply quantities_dom.
  - eapply (short_order_sold_out _ _ _ _ _ _ i r j m);
      [exact Hc | exact Hrun | | done..].
    apply (Hs i (r, precompute_row cfg r)).
    unfold _precompute_normalized_columns. by rewrite list_lookup_fmap, Hi.
Qed.

End Service.

Lemma slow_matcher_serves_while_stock_lasts_witness :
  let results :=
    default [] (fuzzy_match_orders_perfect_sequential (R := reference_runtime)
                  default_config short_order short_catalog) in
  units_of_catalog_line 2 results = Z.max 0 (getitem (stock_of [1; 4; 1]) 2).
Proof.
  apply (slow_matcher_serves_while_stock_lasts (R := reference_runtime)
           default_config short_order short_catalog (stock_of [3])
           (stock_of [1; 4; 1]) _ 0%nat
           (text_row "A" "shirt" "black" "M" (QInt 3)) 2%nat
           (text_row "A" "shirt" "black" "M, L" (QInt 1)));
    vm_compute; reflexivity.
Defined.

Lemma fast_matcher_serves_while_stock_lasts_witness :
  let results :=
    default [] (fuzzy_match_orders_blocked (R := reference_runtime)
                  default_config short_order short_catalog) in
  units_of_catalog_line 2 results = Z.max 0 (getitem (stock_of [1; 4; 1]) 2).
Proof.
  apply (fast_matcher_serves_while_stock_lasts (R := reference_runtime)
           default_config reference_iter_enumerates short_order short_catalog
           (stock_of [3]) (stock_of [1; 4; 1]) _ 0%nat
           (text_row "A" "shirt" "black" "M" (QInt 3)) 2%nat
           (text_row "A" "shirt" "black" "M, L" (QInt 1)));
    try (vm_compute; reflexivity).
  unfold accepts_precomputed. split_and!; vm_compute; congruence.
Defined.

Lemma records_carry_the_score_of_their_lines_witness :
  Forall (scored_pair (R := reference_runtime) default_config
            (precomputed_series (R := reference_runtime) default_config)
            scenario_order
            scenario_catalog)
    (default [] (fuzzy_match_orders_blocked (R := reference_runtime)
                   default_config scenario_order scenario_catalog)).
Proof.
  apply (proj1 (records_carry_the_score_of_their_lines
                  (R := reference_runtime) default_config scenario_order
                  scenario_catalog _)).
  vm_compute. reflexivity.
Defined.

Lemma records_pair_like_lines_witness :
  Forall (pairs_like_lines (R := reference_runtime) default_config
            scenario_order scenario_catalog)
    (default [] (fuzzy_match_orders_perfect_sequential
                   (R := reference_runtime) default_config scenario_order
                   scenario_catalog)).
Proof.
  apply (records_pair_like_lines (R := reference_runtime) default_config
           scenario_order scenario_catalog).
  right. vm_compute. reflexivity.
Defined.

Lemma records_follow_the_order_sheet_witness :
  let results :=
    default [] (fuzzy_match_orders_blocked (R := reference_runtime)
                  default_config two_orders two_orders_catalog) in
  ∃ mr1 mr2,
    results !! 1%nat = Some mr1 ∧ results !! 2%nat = Some mr2
    ∧ (receipt_idx mr1 ≤ receipt_idx mr2)%nat.
Proof.
  eexists _, _. split_and!; [vm_compute; reflexivity..|].
  eapply (records_follow_the_order_sheet (R := reference_runtime)
            default_config two_orders two_orders_catalog _ 1 2).
  - left. vm_compute. reflexivity.
  - lia.
  - vm_compute. reflexivity.
  - vm_compute. reflexivity.
Defined.

(** *** Lines without a name *)

Section Nameless.
Context {R : Runtime}.
Variable cfg : config.
Hypothesis Hcut : (0 < name_score_cutoff cfg)%Q.

Lemma accepted_names r m conf det :
  calculate_match_confidence_perfect cfg r m = (true, conf, det) →
  row_name r ≠ [] ∧ row_name m ≠ [].
Proof.
  intros H. apply accepted_confidence in H as (Hn & _).
  unfold fast_fuzzy_match in Hn.
  destruct (row_name r), (row_name m); cbn in Hn; try done; lra.
Qed.

Lemma row_name_precomputed r :
  row_name (precomputed_series cfg r) ≠ [] → has_name r.
Proof.
  unfold has_name, row_name, precomputed_series. cbn.
  rewrite normalize_text_fillna. intros H E. apply H. rewrite E.
  unfold apply_bidir_synonyms_text. done.
Qed.

(** X12. With a positive name cutoff a line without a name is never
    matched: in every record of either matcher both lines have a
    non-empty normalized name. *)
Theorem nameless_lines_are_never_matched receipt_df matched_df results :
  fuzzy_match_orders_blocked cfg receipt_df matched_df = Some results
  ∨ fuzzy_match_orders_perfect_sequential cfg receipt_df matched_df
    = Some results →
  Forall (pairs_named_lines receipt_df matched_df) results.
Proof.
  intros [H|H].
  - apply blocked_scored_pairs in H. eapply Forall_impl; [exact H|].
    intros mr (r & m & Hr & Hm & Hs). exists r, m. split_and!; [done..| |];
      apply accepted_names in Hs as [H1 H2]; by apply row_name_precomputed.
  - apply sequential_scored in H. eapply Forall_impl; [exact H|].
    intros mr (r & m & Hr & Hm & Hs). exists r, m.
    apply accepted_names in Hs as [H1 H2]. done.
Qed.

End Nameless.

Lemma nameless_lines_are_never_matched_witness :
  Forall (pairs_named_lines (R := reference_runtime) scenario_order
            scenario_catalog)
    (default [] (fuzzy_match_orders_blocked (R := reference_runtime)
                   default_config scenario_order scenario_catalog)).
Proof.
  apply (nameless_lines_are_never_matched (R := reference_runtime)
           default_config).
  - reflexivity.
  - left. vm_compute. reflexivity.
Defined.

(** ** Subscripts of a run *)

Lemma run_checked_eq {A} (Inv : run_state → Prop)
    (stepc : run_state → A → option run_state)
    (step : run_state → A → run_state) (l : list A) (st : run_state) :
  (∀ st e, e ∈ l → Inv st → stepc st e = Some (step st e) ∧ Inv (step st e)) →
  Inv st →
  run_checked stepc st l = Some (foldl step st l).
Proof.
  unfold run_checked. revert st.
  induction l as [|e l IH]; intros st Hstep Hinv; [done|].
  cbn [foldl mbind option_bind].
  destruct (Hstep st e) as [-> Hinv']; [by left | done |].
  apply IH; [|done]. intros st' e' He'. apply Hstep. by right.
Qed.

Lemma omap_mapM {A B C} (h : A → option B) (g : B → option C) (l : list A)
    (k : list B) :
  mapM h l = Some k → omap g k = omap (λ x, h x ≫= g) l.
Proof.
  intros H. apply mapM_Some_1 in H.
  induction H as [|x y l k Hxy _ IH]; [done|].
  cbn. rewrite Hxy. cbn. by rewrite IH.
Qed.

Section Checked.
Context {R : Runtime}.
Variable cfg : config.

Lemma sequential_step_checked_eq M st e :
  is_Some (receipt_qty st !! e.1) →
  sequential_step_checked cfg M st e = Some (sequential_step cfg M st e).
Proof.
  destruct e as [i r]. intros Hi.
  unfold sequential_step_checked, sequential_step. cbv zeta.
  destruct (_ <=? 0); [done|]. by apply sequential_allocation_checked.
Qed.

Hypothesis Hiter : enumerates_sets set_iter.

Lemma cand_names_checked_eq (M : list (raw_row * precomputed)) mq b c sizes :
  cand_names_checked M
    (retrieve_candidates (_build_candidate_index M) mq b c sizes)
  = Some (name_at M
          <$> retrieve_candidates (_build_candidate_index M) mq b c sizes).
Proof.
  unfold cand_names_checked.
  apply mapM_Some_2, Forall2_fmap_r, Forall_Forall2_diag.
  apply Forall_forall. intros j Hj.
  destruct (retrieve_candidates_valid M mq b c sizes j Hiter Hj)
    as [row Hrow].
  unfold name_at. cbn. by rewrite Hrow.
Qed.

Lemma extract_index_valid (query : ustr) (choices : list ustr) cutoff t :
  t ∈ extract query choices cutoff → is_Some (choices !! t.2).
Proof.
  unfold extract. intros Ht. apply elem_of_sort_desc in Ht.
  apply list_elem_of_filter in Ht as [_ Ht].
  apply elem_of_lookup_imap in Ht as (i & x & -> & Hx). cbn. eauto.
Qed.

Lemma blocked_results_checked_eq (M : list (raw_row * precomputed)) mq b c
    sizes r_row query cutoff :
  let ids := retrieve_candidates (_build_candidate_index M) mq b c sizes in
  let scored := extract query (name_at M <$> ids) cutoff in
  blocked_results_checked cfg M ids r_row scored
  = Some (blocked_results cfg M ids r_row scored).
Proof.
  intros ids scored. unfold blocked_results_checked.
  destruct (mapM _ scored) as [looked_up|] eqn:E.
  - cbn. f_equal. rewrite (omap_mapM _ _ _ _ E). unfold blocked_results.
    apply omap_ext_in. intros t _. destruct (ids !! t.2) as [j|]; [|done].
    cbn. by destruct (M !! j).
  - exfalso. apply mapM_None_1, Exists_exists in E as (t & Ht & Hnone).
    apply extract_index_valid in Ht as [x Hx].
    rewrite list_lookup_fmap in Hx.
    destruct (ids !! t.2) as [j|] eqn:Hj; [|done]. cbn in Hnone.
    apply list_elem_of_lookup_2 in Hj.
    destruct (retrieve_candidates_valid M mq b c sizes j Hiter Hj)
      as [row Hrow].
    by rewrite Hrow in Hnone.
Qed.

Lemma blocked_step_checked_eq (M : list (raw_row * precomputed)) st e :
  is_Some (receipt_qty st !! e.1) →
  blocked_step_checked cfg M (_build_candidate_index M) st e
  = Some (blocked_step cfg M (_build_candidate_index M) st e).
Proof.
  destruct e as [i r]. intros Hi.
  unfold blocked_step_checked, blocked_step. cbv zeta.
  destruct (_ <=? 0); [done|].
  destruct (negb (nonempty (retrieve_candidates _ _ _ _ _))); [done|].
  rewrite cand_names_checked_eq. cbn [mbind option_bind].
  unfold blocked_scored.
  destruct (negb (nonempty (extract _ _ _))); [done|].
  rewrite blocked_results_checked_eq. cbn [mbind option_bind].
  destruct (nonempty _); [|done].
  by apply blocked_allocation_checked.
Qed.

(** X13. No subscript raises in a run of either matcher.  Run with
    Python's raising subscripts ([matched_qty[m_idx]], [receipt_qty[r_idx]],
    [candidate_ids[local_idx]], [matched_df.at] and [matched_df.loc] on a
    catalogue label), both matchers return exactly what they return with
    the lenient reads of the model: once the quantity columns have been
    read, no [KeyError] or [IndexError] ends a run. *)
Theorem matchers_raise_on_no_subscript receipt_df matched_df :
  fuzzy_match_orders_blocked_checked cfg receipt_df matched_df
  = fuzzy_match_orders_blocked cfg receipt_df matched_df
  ∧ fuzzy_match_orders_perfect_sequential_checked cfg receipt_df matched_df
    = fuzzy_match_orders_perfect_sequential cfg receipt_df matched_df.
Proof.
  unfold fuzzy_match_orders_blocked_checked, fuzzy_match_orders_blocked,
    fuzzy_match_orders_perfect_sequential_checked,
    fuzzy_match_orders_perfect_sequential.
  destruct (quantities receipt_df) as [rq|] eqn:Hrq; [|done].
  destruct (quantities matched_df) as [mq|] eqn:Hmq; [|done]. cbn.
  split.
  - erewrite (run_checked_eq (conserves rq mq)); [done| |apply conserves_init].
    intros st [i row] Hin Hc. apply elem_of_enumerate in Hin.
    unfold _precompute_normalized_columns in Hin.
    rewrite list_lookup_fmap in Hin.
    destruct (rows receipt_df !! i) as [x|] eqn:Hx; [|done].
    pose proof (quantities_dom _ _ _ _ Hrq Hx) as Hi. split.
    + apply blocked_step_checked_eq. cbn. destruct Hc as (_ & _ & Hd).
      by apply Hd.
    + by apply blocked_step_conserves.
  - erewrite (run_checked_eq (conserves rq mq)); [done| |apply conserves_init].
    intros st [i row] Hin Hc. apply elem_of_enumerate in Hin.
    pose proof (quantities_dom _ _ _ _ Hrq Hin) as Hi. split.
    + apply sequential_step_checked_eq. cbn. destruct Hc as (_ & _ & Hd).
      by apply Hd.
    + by apply sequential_step_conserves.
Qed.

(** *** What the blocking index holds *)

Lemma positions_increasing {A} (P : A → bool) (l : list A) :
  StronglySorted lt (positions P l).
Proof.
  induction l as [|x l IH] using rev_ind; [constructor|].
  rewrite positions_snoc. apply StronglySorted_app_2; [|done|].
  - intros a b Ha Hb. apply elem_of_positions in Ha as (y & Hy & _).
    apply lookup_lt_Some in Hy.
    destruct (P x); [|by apply not_elem_of_nil in Hb].
    apply list_elem_of_singleton in Hb as ->. done.
  - destruct (P x); repeat constructor.
Qed.

(** X14. What [_build_candidate_index] returns.  Each of the three
    dictionaries lists, under a key, exactly the catalogue lines with that
    normalized brand (and colour, and size token): every line is found
    under its brand, under its brand and colour, and under each of its size
    tokens, nowhere else, and each list is in strictly increasing label
    order, so without repetition. *)
Theorem candidate_index_contents (M : list (raw_row * precomputed))
    (b c s : ustr) (j : nat) :
  let ix := _build_candidate_index M in
  (j ∈ default [] (idx_b ix !! b)
   ↔ ∃ row, M !! j = Some row ∧ brand_n row.2 = b)
  ∧ (j ∈ default [] (idx_bc ix !! (b, c))
     ↔ ∃ row, M !! j = Some row ∧ brand_n row.2 = b ∧ color_n row.2 = c)
  ∧ (j ∈ default [] (idx_bcs ix !! (b, c, s))
     ↔ ∃ row, M !! j = Some row ∧ brand_n row.2 = b ∧ color_n row.2 = c
              ∧ s ∈ sizes_s row.2)
  ∧ StronglySorted lt (default [] (idx_b ix !! b))
  ∧ StronglySorted lt (default [] (idx_bc ix !! (b, c)))
  ∧ StronglySorted lt (default [] (idx_bcs ix !! (b, c, s))).
Proof.
  cbv zeta. rewrite idx_b_lookup, idx_bc_lookup, idx_bcs_lookup by done.
  unfold tier_b, tier_bc, tier_bcs. split_and!;
    try apply positions_increasing;
    rewrite elem_of_positions; split.
  - intros (row & Hrow & Hb). apply bool_decide_eq_true_1 in Hb. eauto.
  - intros (row & Hrow & Hb). exists row. split; [done|].
    by apply bool_decide_eq_true_2.
  - intros (row & Hrow & Hb). apply bool_decide_eq_true_1 in Hb.
    destruct Hb. eauto.
  - intros (row & Hrow & Hb & Hc). exists row. split; [done|].
    by apply bool_decide_eq_true_2.
  - intros (row & Hrow & Hb). apply bool_decide_eq_true_1 in Hb.
    destruct Hb as (? & ? & ?). eauto 6.
  - intros (row & Hrow & Hb & Hc & Hs). exists row. split; [done|].
    by apply bool_decide_eq_true_2.
Qed.

End Checked.

Lemma matchers_raise_on_no_subscript_witness :
  fuzzy_match_orders_blocked_checked (R := reference_runtime) default_config
    scenario_order scenario_catalog
  = fuzzy_match_orders_blocked (R := reference_runtime) default_config
      scenario_order scenario_catalog.
Proof.
  exact (proj1 (matchers_raise_on_no_subscript (R := reference_runtime)
                  default_config reference_iter_enumerates
                  scenario_order scenario_catalog)).
Defined.

Lemma candidate_index_contents_witness :
  let M := _precompute_normalized_columns (R := reference_runtime)
             default_config scenario_catalog in
  (1%nat ∈ default [] (idx_bcs (_build_candidate_index
                                  (R := reference_runtime) M)
                         !! (u "a", [44160; 51221]%N, u "7"))
   ↔ ∃ row, M !! 1%nat = Some row ∧ brand_n row.2 = u "a"
            ∧ color_n row.2 = [44160; 51221]%N ∧ u "7" ∈ sizes_s row.2).
Proof.
  apply (candidate_index_contents (R := reference_runtime)
           reference_iter_enumerates).
Defined.

(** ** Report *)

Lemma count_if_length (l : list MatchResult) :
  (count_if is_high l + count_if is_medium l + count_if is_low l)%nat
  = length l.
Proof.
  unfold count_if. induction l as [|mr l IH]; [done|].
  rewrite !filter_cons. unfold is_high, is_medium, is_low in *.
  destruct (Qgeb (confidence_score mr) 90) eqn:H90;
    destruct (Qgeb (confidence_score mr) 70) eqn:H70; cbn [andb negb];
    repeat case_decide; try done; cbn [length]; try lia.
  apply Qgeb_true in H90. apply Qgeb_false in H70. lra.
Qed.

(** X15. In the report of a non-empty list of records every record is
    counted in exactly one of the three buckets: the counters of high,
    medium and low confidence are present and add up to [total_matches],
    which is the number of records. *)
Theorem report_buckets_partition (mr : MatchResult) (l : list MatchResult) :
  ∃ h m lo,
    buckets (generate_match_report (mr :: l)) = Some (h, m, lo)
    ∧ (h + m + lo)%nat = total_matches (generate_match_report (mr :: l))
    ∧ total_matches (generate_match_report (mr :: l)) = length (mr :: l).
Proof.
  exists (count_if is_high (mr :: l)), (count_if is_medium (mr :: l)),
    (count_if is_low (mr :: l)).
  split_and!; [done | | done].
  cbn [generate_match_report nonempty negb total_matches].
  apply count_if_length.
Qed.

(** ** Worksheets *)

Lemma cell_at_insert (ws : worksheet) r c x r' c' :
  cell_at (<[ (r, c) := x ]> ws) r' c'
  = if decide ((r, c) = (r', c')) then x else cell_at ws r' c'.
Proof.
  unfold cell_at. destruct (decide _) as [[= <- <-]|Hne].
  - by rewrite lookup_insert_eq.
  - by rewrite lookup_insert_ne.
Qed.

Lemma value_at_set_value ws r c v r' c' :
  value_at (set_value r c v ws) r' c'
  = if decide ((r, c) = (r', c')) then v else value_at ws r' c'.
Proof.
  unfold value_at, set_value. rewrite cell_at_insert.
  by destruct (decide _).
Qed.

Lemma fill_at_set_value ws r c v r' c' :
  fill_at (set_value r c v ws) r' c' = fill_at ws r' c'.
Proof.
  unfold fill_at at 1, set_value. rewrite cell_at_insert.
  by destruct (decide _) as [[= <- <-]|].
Qed.

Lemma value_at_set_fill ws r c f r' c' :
  value_at (set_fill r c f ws) r' c' = value_at ws r' c'.
Proof.
  unfold value_at at 1, set_fill. rewrite cell_at_insert.
  by destruct (decide _) as [[= <- <-]|].
Qed.

Lemma fill_at_set_fill ws r c f r' c' :
  fill_at (set_fill r c f ws) r' c'
  = if decide ((r, c) = (r', c')) then f else fill_at ws r' c'.
Proof.
  unfold fill_at, set_fill. rewrite cell_at_insert.
  by destruct (decide _).
Qed.

Lemma cell_at_touch ws r c r' c' :
  cell_at (touch r c ws) r' c' = cell_at ws r' c'.
Proof.
  unfold touch. rewrite cell_at_insert.
  by destruct (decide _) as [[= <- <-]|].
Qed.

Lemma max_row_bound (ws : worksheet) r c :
  is_Some (ws !! (r, c)) → (r ≤ max_row ws)%nat.
Proof.
  intros H. unfold max_row.
  etrans; [|apply Nat.le_max_r].
  apply max_list_elem_of_le, list_elem_of_fmap. exists (r, c).
  split; [done|]. by apply elem_of_elements, elem_of_dom.
Qed.

Lemma beyond_max_row (ws : worksheet) r c :
  (max_row ws < r)%nat → cell_at ws r c = blank.
Proof.
  intros H. unfold cell_at. destruct (ws !! (r, c)) eqn:E; [|done].
  assert (r ≤ max_row ws)%nat by (eapply max_row_bound; eauto). lia.
Qed.

(** *** Emptying a block of cells *)

Lemma value_at_fill_columns ws row cols v r c :
  value_at (foldl (λ ws col, set_value row col v ws) ws cols) r c
  = if decide (r = row ∧ c ∈ cols) then v else value_at ws r c.
Proof.
  revert ws. induction cols as [|col cols IH]; intros ws; cbn [foldl].
  - rewrite decide_False; [done|]. intros [_ H]. by apply not_elem_of_nil in H.
  - rewrite IH, value_at_set_value.
    destruct (decide (r = row ∧ c ∈ cols)) as [[-> Hc]|Hn].
    { rewrite decide_True; [done|]. split; [done|]. by right. }
    destruct (decide ((row, col) = (r, c))) as [[= -> ->]|Hne].
    + rewrite decide_True; [done|]. split; [done|]. by left.
    + rewrite decide_False; [done|]. intros [-> Hc].
      apply elem_of_cons in Hc as [->|Hc]; [done|]. by apply Hn.
Qed.

Lemma fill_at_fill_columns ws row cols v r c :
  fill_at (foldl (λ ws col, set_value row col v ws) ws cols) r c
  = fill_at ws r c.
Proof.
  revert ws. induction cols as [|col cols IH]; intros ws; cbn [foldl];
    [done|].
  by rewrite IH, fill_at_set_value.
Qed.

Lemma value_at_fill_block ws rws cols v r c :
  value_at
    (foldl (λ ws row, foldl (λ ws col, set_value row col v ws) ws cols)
       ws rws) r c
  = if decide (r ∈ rws ∧ c ∈ cols) then v else value_at ws r c.
Proof.
  revert ws. induction rws as [|row rws IH]; intros ws; cbn [foldl].
  - rewrite decide_False; [done|]. intros [H _]. by apply not_elem_of_nil in H.
  - rewrite IH, value_at_fill_columns.
    destruct (decide (r ∈ rws ∧ c ∈ cols)) as [[Hr Hc]|Hn].
    { rewrite decide_True; [done|]. split; [by right | done]. }
    destruct (decide (r = row ∧ c ∈ cols)) as [[-> Hc]|Hn'].
    + rewrite decide_True; [done|]. split; [by left | done].
    + rewrite decide_False; [done|]. intros [Hr Hc].
      apply elem_of_cons in Hr as [->|Hr]; [by apply Hn' | by apply Hn].
Qed.

Lemma fill_at_fill_block ws rws cols v r c :
  fill_at
    (foldl (λ ws row, foldl (λ ws col, set_value row col v ws) ws cols)
       ws rws) r c
  = fill_at ws r c.
Proof.
  revert ws. induction rws as [|row rws IH]; intros ws; cbn [foldl];
    [done|].
  by rewrite IH, fill_at_fill_columns.
Qed.

Lemma value_at_clear_info ws r c :
  value_at (clear_info ws) r c
  = if decide (2 ≤ r ∧ 8 ≤ c ≤ 14)%nat then XNone else value_at ws r c.
Proof.
  unfold clear_info. rewrite value_at_fill_block.
  destruct (decide (2 ≤ r ∧ 8 ≤ c ≤ 14)%nat) as [[Hr Hc]|Hn].
  - destruct (decide (r ≤ max_row ws)%nat) as [Hle|Hgt].
    + rewrite decide_True; [done|]. rewrite !elem_of_seq. lia.
    + rewrite decide_False by (rewrite !elem_of_seq; lia).
      unfold value_at. rewrite beyond_max_row by lia. done.
  - rewrite decide_False; [done|]. rewrite !elem_of_seq. lia.
Qed.

Lemma fill_at_clear_info ws r c : fill_at (clear_info ws) r c = fill_at ws r c.
Proof. unfold clear_info. apply fill_at_fill_block. Qed.

(** *** Recording the pairs *)

Lemma lines_of_snoc pairs p i :
  lines_of (pairs ++ [p]) i
  = lines_of pairs i ++ (if decide (p.1 = i) then [p.2] else []).
Proof.
  unfold lines_of. rewrite omap_app. cbn. by destruct (decide _).
Qed.

Lemma recorded_init M ws0 : recorded M ws0 [] (clear_info ws0, ∅).
Proof.
  split; [done|]. cbn [fst]. split_and!.
  - intros i. rewrite value_at_clear_info, decide_True by lia. done.
  - intros i k Hk. rewrite value_at_clear_info, decide_True by lia. done.
  - intros r c. apply fill_at_clear_info.
  - intros r c Hout. rewrite value_at_clear_info, decide_False by lia. done.
Qed.

Lemma row_number_cell_snoc lines j k :
  row_number_cell (lines ++ [j]) k
  = if decide (k = length lines) then XInt (Z.of_nat j + 2)
    else row_number_cell lines k.
Proof.
  unfold row_number_cell. destruct (decide (k = length lines)) as [->|Hne].
  - by rewrite lookup_app_r, Nat.sub_diag by lia.
  - destruct (decide (k < length lines)%nat) as [Hlt|Hge].
    + by rewrite lookup_app_l by lia.
    + rewrite lookup_app_r by lia.
      rewrite (lookup_ge_None_2 lines) by lia.
      destruct (k - length lines)%nat as [|d] eqn:E; [lia|]. done.
Qed.

Lemma summary_cell_snoc M lines j :
  summary_cell M (lines ++ [j])
  = match lines with [] => summary M j | _ => summary_cell M lines end.
Proof. by destruct lines. Qed.

Lemma record_pair_recorded M ws0 seen st p :
  recorded M ws0 seen st → recordable M p →
  ∃ st', record_pair M st p = inl st' ∧ recorded M ws0 (seen ++ [p]) st'.
Proof.
  destruct st as [ws mc], p as [i j].
  intros (Hcount & Hh & Hn & Hfill & Hout) (m & Hm & s & Hs).
  cbn [fst snd] in *. unfold record_pair. rewrite Hm, Hs, (Hcount i).
  set (lines := lines_of seen i) in *. set (n := length lines).
  exists (if (9 + n <=? 14)%nat
          then set_value (i + 2) (9 + n) (XInt (Z.of_nat j + 2))
                 (if (n =? 0)%nat then set_value (i + 2) 8 (XStr s) ws
                  else ws)
          else if (n =? 0)%nat then set_value (i + 2) 8 (XStr s) ws else ws,
          <[ i := S n ]> mc).
  split.
  { destruct (n =? 0)%nat; reflexivity. }
  split; cbn [fst snd].
  - intros i'. rewrite lines_of_snoc, length_app. cbn [fst snd].
    destruct (decide (i = i')) as [<-|Hne].
    + rewrite lookup_insert_eq. cbn. unfold n, lines. lia.
    + rewrite lookup_insert_ne by done. rewrite Hcount. cbn. lia.
  - assert (∀ r c,
      value_at
        (if (9 + n <=? 14)%nat
         then set_value (i + 2) (9 + n) (XInt (Z.of_nat j + 2))
                (if (n =? 0)%nat then set_value (i + 2) 8 (XStr s) ws
                 else ws)
         else if (n =? 0)%nat then set_value (i + 2) 8 (XStr s) ws else ws)
        r c
      = if decide (r = (i + 2)%nat ∧ c = (9 + n)%nat ∧ (n < 6)%nat)
        then XInt (Z.of_nat j + 2)
        else if decide (r = (i + 2)%nat ∧ c = 8%nat ∧ n = 0%nat)
             then XStr s else value_at ws r c) as Hval.
    { intros r c.
      destruct (9 + n <=? 14)%nat eqn:E1; [apply Nat.leb_le in E1
                                          | apply Nat.leb_gt in E1];
        destruct (n =? 0)%nat eqn:E2; [apply Nat.eqb_eq in E2
                                      | apply Nat.eqb_neq in E2
                                      | apply Nat.eqb_eq in E2
                                      | apply Nat.eqb_neq in E2];
        rewrite ?value_at_set_value;
        repeat (destruct (decide _) as [?|?]); try done;
        try (exfalso; simplify_eq; lia);
        try (exfalso; intuition (simplify_eq; lia)). }
    assert (∀ r c,
      fill_at
        (if (9 + n <=? 14)%nat
         then set_value (i + 2) (9 + n) (XInt (Z.of_nat j + 2))
                (if (n =? 0)%nat then set_value (i + 2) 8 (XStr s) ws
                 else ws)
         else if (n =? 0)%nat then set_value (i + 2) 8 (XStr s) ws else ws)
        r c
      = fill_at ws r c) as Hfl.
    { intros r c. destruct (9 + n <=? 14)%nat, (n =? 0)%nat;
        by rewrite ?fill_at_set_value. }
    destruct (n =? 0)%nat eqn:E0;
      (split_and!;
       [ intros i'; rewrite Hval, lines_of_snoc; cbn [fst snd]
       | intros i' k Hk; rewrite Hval, lines_of_snoc; cbn [fst snd]
       | intros r c; rewrite Hfl; apply Hfill
       | intros r c Ho; rewrite Hval, !decide_False by lia; by apply Hout ]).
    + apply Nat.eqb_eq in E0. rewrite decide_False by lia.
      destruct (decide (i = i')) as [<-|Hne].
      * rewrite decide_True by lia. fold lines.
        destruct lines; [|done]. cbn. unfold summary. by rewrite Hm; cbn; rewrite Hs.
      * rewrite decide_False by lia. by rewrite app_nil_r.
    + apply Nat.eqb_eq in E0.
      destruct (decide (i = i')) as [<-|Hne].
      * fold lines. rewrite row_number_cell_snoc. fold n.
        destruct (decide (k = n)) as [->|Hkn].
        -- by rewrite decide_True by lia.
        -- rewrite !decide_False by lia. apply Hn. lia.
      * rewrite !decide_False by lia. rewrite app_nil_r. by apply Hn.
    + apply Nat.eqb_neq in E0. rewrite !decide_False by lia.
      destruct (decide (i = i')) as [<-|Hne].
      * fold lines. rewrite summary_cell_snoc. rewrite Hh. fold lines.
        destruct lines; [done|]. done.
      * by rewrite app_nil_r.
    + apply Nat.eqb_neq in E0.
      destruct (decide (i = i')) as [<-|Hne].
      * fold lines. rewrite row_number_cell_snoc. fold n.
        destruct (decide (k = n)) as [->|Hkn].
        -- by rewrite decide_True by lia.
        -- rewrite !decide_False by lia. apply Hn. lia.
      * rewrite !decide_False by lia. rewrite app_nil_r. by apply Hn.
Qed.

Lemma record_pairs_recorded M ws0 good :
  Forall (recordable M) good →
  ∀ seen st, recorded M ws0 seen st →
    ∃ st', recorded M ws0 (seen ++ good) st'
           ∧ ∀ rest, record_pairs M (good ++ rest) st
                     = record_pairs M rest st'.
Proof.
  induction 1 as [|p good Hp _ IH]; intros seen st Hst.
  - exists st. rewrite app_nil_r. done.
  - destruct (record_pair_recorded M ws0 seen st p Hst Hp) as (st1 & E & H1).
    destruct (IH (seen ++ [p]) st1 H1) as (st' & H' & Hrest).
    exists st'. rewrite <- app_assoc in H'. split; [done|].
    intros rest. cbn [app record_pairs]. rewrite E. apply Hrest.
Qed.

Lemma update_match_info_recorded (receipt_ws : worksheet)
    (matched_pairs : list (nat * nat)) (matched_df : dataframe) :
  Forall (recordable (rows matched_df)) matched_pairs →
  shows_matches (rows matched_df) receipt_ws matched_pairs
    (_update_match_info receipt_ws matched_pairs matched_df).
Proof.
  intros Hall. unfold _update_match_info.
  destruct (record_pairs_recorded (rows matched_df) receipt_ws matched_pairs
              Hall [] _ (recorded_init _ _)) as (st' & [_ H'] & Hrest).
  specialize (Hrest []). rewrite app_nil_r in Hrest. rewrite Hrest. done.
Qed.

(** X17. What [_update_match_info] writes.  When every pair names a
    catalogue line and the summaries hold no control character, the sheet
    it leaves shows, in the row of each order line, the summary
    [name / size] of the first catalogue line paired with it in column H
    and the sheet rows of its first six catalogue lines in the columns I to
    N, in the order of the pairs; a seventh and later pairs of an order
    line are not recorded; every other cell of H to N from row 2 down is
    empty; no fill changes, nor any value outside H to N or in row 1. *)
Theorem update_match_info_shows (receipt_ws : worksheet)
    (matched_pairs : list (nat * nat)) (matched_df : dataframe) :
  Forall (recordable (rows matched_df)) matched_pairs →
  shows_matches (rows matched_df) receipt_ws matched_pairs
    (_update_match_info receipt_ws matched_pairs matched_df).
Proof. apply update_match_info_recorded. Qed.

Lemma update_match_info_shows_witness :
  shows_matches (rows scenario_catalog) noted_sheet noted_pairs
    (_update_match_info noted_sheet noted_pairs scenario_catalog).
Proof.
  apply update_match_info_shows.
  repeat constructor; eexists; (split; [reflexivity|]); vm_compute; eauto.
Defined.

(** X18. A pair whose catalogue label is not in the catalogue ends the
    recording: [_update_match_info] swallows the [KeyError], and the sheet
    is the one the pairs before it give; the pairs after it are not
    recorded. *)
Theorem update_match_info_stops_at_unknown_label (receipt_ws : worksheet)
    (good rest : list (nat * nat)) (bad : nat * nat)
    (matched_df : dataframe) :
  Forall (recordable (rows matched_df)) good →
  rows matched_df !! bad.2 = None →
  _update_match_info receipt_ws (good ++ bad :: rest) matched_df
  = _update_match_info receipt_ws good matched_df.
Proof.
  intros Hgood Hbad. unfold _update_match_info.
  destruct (record_pairs_recorded (rows matched_df) receipt_ws good
              Hgood [] _ (recorded_init _ _)) as (st' & _ & Hrest).
  rewrite (Hrest (bad :: rest)). pose proof (Hrest []) as H0.
  rewrite app_nil_r in H0. rewrite H0. destruct st' as [ws mc], bad as [i j].
  cbn [record_pairs record_pair snd] in *. by rewrite Hbad.
Qed.

Lemma update_match_info_stops_at_unknown_label_witness :
  _update_match_info noted_sheet ([(0, 1)] ++ (1, 7) :: [(1, 0)])%nat
    scenario_catalog
  = _update_match_info noted_sheet [(0, 1)]%nat scenario_catalog.
Proof.
  apply update_match_info_stops_at_unknown_label; [|reflexivity].
  repeat constructor; eexists; (split; [reflexivity|]); vm_compute; eauto.
Defined.

(** *** What the recording never touches *)

Lemma record_pair_frame M st p r c :
  let ws' := match record_pair M st p with
             | inl st' => st'.1
             | inr ws => ws
             end in
  fill_at ws' r c = fill_at st.1 r c
  ∧ ((r < 2 ∨ c < 8 ∨ 14 < c ∨ r ≠ p.1 + 2)%nat →
     value_at ws' r c = value_at st.1 r c).
Proof.
  destruct st as [ws mc], p as [i j]. unfold record_pair. cbn [fst snd].
  destruct (M !! j) as [m|]; [|done].
  set (n := default 0%nat (mc !! i)).
  destruct (n =? 0)%nat eqn:E0.
  - destruct (check_string (matched_info m)) as [s|].
    + destruct (9 + n <=? 14)%nat eqn:E1; cbn [fst].
      * apply Nat.leb_le in E1. rewrite !fill_at_set_value. split; [done|].
        intros Ho. rewrite !value_at_set_value.
        rewrite !decide_False; [done|intros [= ]; lia..].
      * rewrite !fill_at_set_value. split; [done|].
        intros Ho. rewrite !value_at_set_value.
        rewrite !decide_False; [done|intros [= ]; lia..].
    + unfold fill_at, value_at. by rewrite cell_at_touch.
  - destruct (9 + n <=? 14)%nat eqn:E1; cbn [fst]; [|done].
    apply Nat.leb_le in E1. rewrite !fill_at_set_value. split; [done|].
    intros Ho. rewrite !value_at_set_value.
    rewrite !decide_False; [done|intros [= ]; lia..].
Qed.

Lemma record_pairs_frame M pairs st r c :
  fill_at (record_pairs M pairs st) r c = fill_at st.1 r c
  ∧ ((r < 2 ∨ c < 8 ∨ 14 < c ∨ ∀ p, p ∈ pairs → r ≠ p.1 + 2)%nat →
     value_at (record_pairs M pairs st) r c = value_at st.1 r c).
Proof.
  revert st. induction pairs as [|p pairs IH]; intros st; [done|].
  cbn [record_pairs]. pose proof (record_pair_frame M st p r c) as Hp.
  cbv zeta in Hp.
  assert ((r < 2 ∨ c < 8 ∨ 14 < c ∨ ∀ q, q ∈ p :: pairs → r ≠ q.1 + 2)%nat →
          (r < 2 ∨ c < 8 ∨ 14 < c ∨ r ≠ p.1 + 2)%nat
          ∧ (r < 2 ∨ c < 8 ∨ 14 < c ∨ ∀ q, q ∈ pairs → r ≠ q.1 + 2)%nat)
    as Hsplit.
  { intros [?|[?|[?|H]]]; [split; auto..|]. split.
    - do 3 right. apply H. by left.
    - do 3 right. intros q Hq. apply H. by right. }
  destruct (record_pair M st p) as [st'|ws].
  - destruct (IH st') as [-> Hv]. destruct Hp as [-> Hp]. split; [done|].
    intros Ho. destruct (Hsplit Ho) as [H1 H2]. by rewrite Hv, Hp.
  - destruct Hp as [-> Hp]. split; [done|]. intros Ho.
    destruct (Hsplit Ho) as [H1 _]. by apply Hp.
Qed.

Lemma update_match_info_outside (receipt_ws : worksheet)
    (matched_pairs : list (nat * nat)) (matched_df : dataframe) (r c : nat) :
  fill_at (_update_match_info receipt_ws matched_pairs matched_df) r c
  = fill_at receipt_ws r c
  ∧ ((r < 2 ∨ c < 8 ∨ 14 < c)%nat →
     value_at (_update_match_info receipt_ws matched_pairs matched_df) r c
     = value_at receipt_ws r c).
Proof.
  unfold _update_match_info.
  destruct (record_pairs_frame (rows matched_df) matched_pairs
              (clear_info receipt_ws, ∅) r c) as [Hf Hv].
  cbn [fst] in *. split.
  - rewrite Hf. apply fill_at_clear_info.
  - intros Ho. rewrite Hv by tauto.
    rewrite value_at_clear_info, decide_False by lia. done.
Qed.

(** X19. Whatever the pairs, and also when the recording is cut short by
    an exception, [_update_match_info] changes no fill and no value
    outside the columns H to N or in row 1, and it leaves the columns H to
    N empty in every row from 2 down that is not the row of an order line
    of the pairs: what these cells held before is erased. *)
Theorem update_match_info_frame (receipt_ws : worksheet)
    (matched_pairs : list (nat * nat)) (matched_df : dataframe) (r c : nat) :
  fill_at (_update_match_info receipt_ws matched_pairs matched_df) r c
  = fill_at receipt_ws r c
  ∧ ((r < 2 ∨ c < 8 ∨ 14 < c)%nat →
     value_at (_update_match_info receipt_ws matched_pairs matched_df) r c
     = value_at receipt_ws r c)
  ∧ ((2 ≤ r ∧ 8 ≤ c ≤ 14)%nat →
     (∀ p, p ∈ matched_pairs → r ≠ (p.1 + 2)%nat) →
     value_at (_update_match_info receipt_ws matched_pairs matched_df) r c
     = XNone).
Proof.
  destruct (update_match_info_outside receipt_ws matched_pairs matched_df
              r c) as [Hfill Hout].
  split_and!; [done..|]. unfold _update_match_info.
  destruct (record_pairs_frame (rows matched_df) matched_pairs
              (clear_info receipt_ws, ∅) r c) as [_ Hv].
  cbn [fst] in *. intros Hin Hrow. rewrite Hv by auto.
  rewrite value_at_clear_info, decide_True by lia. done.
Qed.

Lemma update_match_info_frame_witness :
  value_at (_update_match_info noted_sheet noted_pairs scenario_catalog) 3 8
  = XNone.
Proof.
  apply (update_match_info_frame noted_sheet noted_pairs scenario_catalog 3 8).
  - lia.
  - intros p Hp. vm_compute in Hp.
    repeat (apply elem_of_cons in Hp as [->|Hp]; [cbn; lia|]).
    by apply not_elem_of_nil in Hp.
Defined.

(** ** Colouring *)

Lemma fill_at_touch ws r c r' c' : fill_at (touch r c ws) r' c' = fill_at ws r' c'.
Proof. unfold fill_at. by rewrite cell_at_touch. Qed.

Lemma value_at_touch ws r c r' c' :
  value_at (touch r c ws) r' c' = value_at ws r' c'.
Proof. unfold value_at. by rewrite cell_at_touch. Qed.

Lemma fill_at_paint ws row cols f r c :
  fill_at (foldl (λ ws col, set_fill row col f ws) ws cols) r c
  = if decide (r = row ∧ c ∈ cols) then f else fill_at ws r c.
Proof.
  revert ws. induction cols as [|col cols IH]; intros ws; cbn [foldl].
  - rewrite decide_False; [done|]. intros [_ H]. by apply not_elem_of_nil in H.
  - rewrite IH, fill_at_set_fill.
    destruct (decide (r = row ∧ c ∈ cols)) as [[-> Hc]|Hn].
    { rewrite decide_True; [done|]. split; [done|]. by right. }
    destruct (decide ((row, col) = (r, c))) as [[= -> ->]|Hne].
    + rewrite decide_True; [done|]. split; [done|]. by left.
    + rewrite decide_False; [done|]. intros [-> Hc].
      apply elem_of_cons in Hc as [->|Hc]; [done|]. by apply Hn.
Qed.

Lemma value_at_paint ws row cols f r c :
  value_at (foldl (λ ws col, set_fill row col f ws) ws cols) r c
  = value_at ws r c.
Proof.
  revert ws. induction cols as [|col cols IH]; intros ws; cbn [foldl];
    [done|].
  by rewrite IH, value_at_set_fill.
Qed.

Section Colouring.
Variable upper : ustr → ustr.
Variable prices_differ : nat → nat → option bool.
Variables cyan yellow red : xfill.

Abbreviation paint := (colour_pair upper prices_differ cyan yellow red).

(** Colouring changes no value. *)
Lemma colour_pair_values sheets p r c :
  value_at (paint sheets p).1 r c = value_at sheets.1 r c
  ∧ value_at (paint sheets p).2 r c = value_at sheets.2 r c.
Proof.
  destruct sheets as [rws mws], p as [i j]. unfold colour_pair.
  destruct (prices_differ i j) as [[|]|]; cbn [fst snd];
    rewrite ?value_at_set_fill, !value_at_paint, ?value_at_touch; done.
Qed.

Lemma colour_pairs_values pairs sheets r c :
  value_at (foldl paint sheets pairs).1 r c = value_at sheets.1 r c
  ∧ value_at (foldl paint sheets pairs).2 r c = value_at sheets.2 r c.
Proof.
  revert sheets. induction pairs as [|p pairs IH]; intros sheets; [done|].
  cbn [foldl]. destruct (IH (paint sheets p)) as [-> ->].
  apply colour_pair_values.
Qed.

(** The fills of the order sheet after one pair. *)
Lemma colour_pair_receipt_fill rws mws i j r c :
  fill_at (paint (rws, mws) (i, j)).1 r c
  = if decide (r = (i + 2)%nat ∧ (1 ≤ c ≤ 5)%nat)
    then order_colour upper cyan yellow rws i
    else if decide (r = (i + 2)%nat ∧ c = 6%nat)
         then match prices_differ i j with
              | Some true => red
              | Some false => order_colour upper cyan yellow rws i
              | None => fill_at rws r c
              end
         else fill_at rws r c.
Proof.
  unfold colour_pair, order_colour. rewrite value_at_touch.
  set (f := if reads_true upper _ then cyan else yellow).
  destruct (prices_differ i j) as [[|]|]; cbn [fst];
    rewrite ?fill_at_set_fill, fill_at_paint, fill_at_touch;
    repeat (destruct (decide _) as [?|?]); try done;
    try (exfalso; simplify_eq; rewrite ?elem_of_seq in *; lia);
    try (exfalso; rewrite ?elem_of_seq in *;
         intuition (simplify_eq; lia)).
Qed.

(** The fills of the catalogue sheet after one pair. *)
Lemma colour_pair_matched_fill rws mws i j r c :
  fill_at (paint (rws, mws) (i, j)).2 r c
  = if decide (r = (j + 2)%nat ∧ (8 ≤ c ≤ 13)%nat)
    then order_colour upper cyan yellow rws i
    else if decide (r = (j + 2)%nat ∧ c = 14%nat)
         then match prices_differ i j with
              | Some true => red
              | _ => order_colour upper cyan yellow rws i
              end
         else fill_at mws r c.
Proof.
  unfold colour_pair, order_colour. rewrite value_at_touch.
  set (f := if reads_true upper _ then cyan else yellow).
  destruct (prices_differ i j) as [[|]|]; cbn [snd];
    rewrite ?fill_at_set_fill, fill_at_paint;
    repeat (destruct (decide _) as [?|?]); try done;
    try (exfalso; simplify_eq; rewrite ?elem_of_seq in *; lia);
    try (exfalso; rewrite ?elem_of_seq in *;
         intuition (simplify_eq; lia)).
Qed.

Lemma order_colour_values rws rws' i :
  (∀ r c, value_at rws' r c = value_at rws r c) →
  order_colour upper cyan yellow rws' i = order_colour upper cyan yellow rws i.
Proof. intros H. unfold order_colour. by rewrite H. Qed.

(** The columns A to E of the order sheet and H to M of the catalogue
    sheet after the pairs. *)
Lemma colour_pairs_rows rws mws pairs :
  (∀ i c, (1 ≤ c ≤ 5)%nat →
     fill_at (foldl paint (rws, mws) pairs).1 (i + 2) c
     = if bool_decide (i ∈ pairs.*1)
       then order_colour upper cyan yellow rws i
       else fill_at rws (i + 2) c)
  ∧ (∀ j c, (8 ≤ c ≤ 13)%nat →
       fill_at (foldl paint (rws, mws) pairs).2 (j + 2) c
       = match last (filter (λ p, p.2 = j) pairs) with
         | Some p => order_colour upper cyan yellow rws p.1
         | None => fill_at mws (j + 2) c
         end).
Proof.
  induction pairs as [|[i0 j0] pairs [IH1 IH2]] using rev_ind; [done|].
  rewrite foldl_snoc.
  pose proof (colour_pairs_values pairs (rws, mws)) as Hval.
  destruct (foldl paint (rws, mws) pairs) as [rws' mws'] eqn:E.
  cbn [fst snd] in *.
  assert (order_colour upper cyan yellow rws' i0
          = order_colour upper cyan yellow rws i0) as Hcol.
  { apply order_colour_values. intros r c. apply Hval. }
  split.
  - intros i c Hc. rewrite colour_pair_receipt_fill, Hcol, fmap_app.
    cbn [fmap list_fmap fst].
    destruct (decide (i = i0)) as [->|Hne].
    + rewrite decide_True by done. rewrite bool_decide_eq_true_2; [done|].
      apply elem_of_app. right. by left.
    + rewrite !decide_False by lia. rewrite IH1 by done.
      apply (f_equal (λ b : bool, if b then _ else _)).
      apply bool_decide_ext. rewrite elem_of_app, list_elem_of_singleton.
      split; [by left | intros [?|?]; [done|congruence]].
  - intros j c Hc. rewrite colour_pair_matched_fill, Hcol, filter_app.
    rewrite filter_cons, filter_nil. cbn [snd].
    destruct (decide (j0 = j)) as [->|Hne].
    + rewrite decide_True by done. by rewrite last_snoc.
    + rewrite !decide_False by lia. rewrite app_nil_r. by apply IH2.
Qed.

(** Column F of the order sheet and column N of the catalogue sheet after
    the pairs. *)
Lemma colour_pairs_marks rws mws pairs :
  (∀ i,
     fill_at (foldl paint (rws, mws) pairs).1 (i + 2) 6
     = match last (filter (λ p, p.1 = i ∧ is_Some (prices_differ p.1 p.2))
                     pairs) with
       | Some p =>
           if bool_decide (prices_differ p.1 p.2 = Some true) then red
           else order_colour upper cyan yellow rws p.1
       | None => fill_at rws (i + 2) 6
       end)
  ∧ (∀ j,
       fill_at (foldl paint (rws, mws) pairs).2 (j + 2) 14
       = match last (filter (λ p, p.2 = j) pairs) with
         | Some p =>
             if bool_decide (prices_differ p.1 p.2 = Some true) then red
             else order_colour upper cyan yellow rws p.1
         | None => fill_at mws (j + 2) 14
         end).
Proof.
  induction pairs as [|[i0 j0] pairs [IH1 IH2]] using rev_ind; [done|].
  rewrite foldl_snoc.
  pose proof (colour_pairs_values pairs (rws, mws)) as Hval.
  destruct (foldl paint (rws, mws) pairs) as [rws' mws'] eqn:E.
  cbn [fst snd] in *.
  assert (order_colour upper cyan yellow rws' i0
          = order_colour upper cyan yellow rws i0) as Hcol.
  { apply order_colour_values. intros r c. apply Hval. }
  split.
  - intros i. rewrite colour_pair_receipt_fill, Hcol, filter_app.
    rewrite filter_cons, filter_nil. cbn [fst snd].
    rewrite decide_False by lia.
    destruct (decide (i0 = i ∧ is_Some (prices_differ i0 j0)))
      as [[-> [d Hd]]|Hn].
    + rewrite decide_True by done. rewrite last_snoc. cbn [fst snd].
      rewrite Hd. by destruct d.
    + rewrite app_nil_r.
      destruct (decide (i + 2 = i0 + 2 ∧ 6 = 6)%nat) as [[Hi _]|Hni];
        [|apply IH1].
      assert (i0 = i) as -> by lia.
      destruct (prices_differ i j0) as [d|] eqn:Hd; [|apply IH1].
      exfalso. apply Hn. eauto.
  - intros j. rewrite colour_pair_matched_fill, Hcol, filter_app.
    rewrite filter_cons, filter_nil. cbn [snd].
    rewrite decide_False by lia.
    destruct (decide (j0 = j)) as [->|Hne].
    + rewrite decide_True by done. rewrite last_snoc. cbn [fst snd].
      by destruct (prices_differ i0 j) as [[|]|].
    + rewrite decide_False by lia. rewrite app_nil_r. apply IH2.
Qed.

(** Where a fill can change. *)
Lemma colour_pairs_frame rws mws pairs r c :
  (fill_at (foldl paint (rws, mws) pairs).1 r c ≠ fill_at rws r c →
   (1 ≤ c ≤ 6)%nat ∧ ∃ p, p ∈ pairs ∧ r = (p.1 + 2)%nat)
  ∧ (fill_at (foldl paint (rws, mws) pairs).2 r c ≠ fill_at mws r c →
     (8 ≤ c ≤ 14)%nat ∧ ∃ p, p ∈ pairs ∧ r = (p.2 + 2)%nat).
Proof.
  induction pairs as [|[i j] pairs [IH1 IH2]] using rev_ind; [done|].
  rewrite foldl_snoc.
  destruct (foldl paint (rws, mws) pairs) as [rws' mws'] eqn:E.
  cbn [fst snd] in *.
  assert (∀ P : nat * nat → Prop,
            (∃ p, p ∈ pairs ∧ P p) → ∃ p, p ∈ pairs ++ [(i, j)] ∧ P p)
    as Hmono.
  { intros P (p & Hp & HP). exists p. split; [|done].
    apply elem_of_app. by left. }
  assert ((i, j) ∈ pairs ++ [(i, j)]) as Hlast.
  { apply elem_of_app. right. by left. }
  split.
  - rewrite colour_pair_receipt_fill.
    destruct (decide (r = (i + 2)%nat ∧ (1 ≤ c ≤ 5)%nat)) as [[-> Hc]|Hn1].
    { intros _. split; [lia|]. by exists (i, j). }
    destruct (decide (r = (i + 2)%nat ∧ c = 6%nat)) as [[-> ->]|Hn2].
    { intros _. split; [lia|]. by exists (i, j). }
    intros H. destruct (IH1 H) as [Hc Hp]. split; [done|].
    by apply (Hmono (λ p, r = (p.1 + 2)%nat)).
  - rewrite colour_pair_matched_fill.
    destruct (decide (r = (j + 2)%nat ∧ (8 ≤ c ≤ 13)%nat)) as [[-> Hc]|Hn1].
    { intros _. split; [lia|]. by exists (i, j). }
    destruct (decide (r = (j + 2)%nat ∧ c = 14%nat)) as [[-> ->]|Hn2].
    { intros _. split; [lia|]. by exists (i, j). }
    intros H. destruct (IH2 H) as [Hc Hp]. split; [done|].
    by apply (Hmono (λ p, r = (p.2 + 2)%nat)).
Qed.

End Colouring.

Lemma last_filter_fmap {A B} (f : A → B) (P : B → Prop)
    `{!∀ y, Decision (P y)} (l : list A) :
  last (filter P (f <$> l)) = f <$> last (filter (λ x, P (f x)) l).
Proof.
  induction l as [|x l IH] using rev_ind; [done|].
  rewrite fmap_app, !filter_app, !last_app, IH.
  change (f <$> [x]) with [f x]. rewrite !filter_cons, !filter_nil.
  destruct (decide (P (f x))); cbn; [done|].
  by destruct (last (filter _ l)).
Qed.

Section ColouringTheorems.
Variable upper : ustr → ustr.
Variable EXCEL_COLORS : gmap string ustr.
Variable prices_differ : nat → nat → option bool.

Abbreviation run_colours :=
  (apply_colors_with_quantity_enhanced upper EXCEL_COLORS prices_differ).

(** X20. The row colours.  In the saved order sheet the columns A to E of
    the row of every matched order line have the colour chosen by column G
    of that row, cyan when it reads TRUE (in any case, with spaces around)
    and yellow otherwise, and the rows of the other order lines keep their
    fills.  In the saved catalogue sheet the columns H to M of the row of a
    matched catalogue line have the colour of the order line of the last
    record that references it. *)
Theorem colours_follow_column_G (receipt_ws matched_ws : worksheet)
    (match_results : list MatchResult) (matched_df : dataframe)
    (cyan yellow : xfill) (out : worksheet * worksheet) :
  configured_fill upper EXCEL_COLORS "cyan" = Some cyan →
  configured_fill upper EXCEL_COLORS "yellow" = Some yellow →
  run_colours receipt_ws matched_ws match_results matched_df = Some out →
  (∀ i c, (1 ≤ c ≤ 5)%nat →
     fill_at out.1 (i + 2) c
     = if bool_decide (i ∈ receipt_idx <$> match_results)
       then order_colour upper cyan yellow receipt_ws i
       else fill_at receipt_ws (i + 2) c)
  ∧ (∀ j c, (8 ≤ c ≤ 13)%nat →
       fill_at out.2 (j + 2) c
       = match last (filter (λ mr, matched_idx mr = j) match_results) with
         | Some mr =>
             order_colour upper cyan yellow receipt_ws (receipt_idx mr)
         | None => fill_at matched_ws (j + 2) c
         end).
Proof.
  intros Hcyan Hyellow. unfold apply_colors_with_quantity_enhanced.
  rewrite Hcyan, Hyellow. cbn [mbind option_bind].
  destruct (configured_fill upper EXCEL_COLORS "red") as [red|]; [|done].
  cbn [mbind option_bind]. intros [= <-]. cbn [fst snd].
  set (pairs := (λ r, (receipt_idx r, matched_idx r)) <$> match_results).
  destruct (colour_pairs_rows upper prices_differ cyan yellow red
              receipt_ws matched_ws pairs) as [H1 H2].
  split.
  - intros i c Hc.
    destruct (update_match_info_outside
                (foldl (colour_pair upper prices_differ cyan yellow red)
                   (receipt_ws, matched_ws) pairs).1 pairs matched_df
                (i + 2) c) as [-> _].
    rewrite H1 by done. unfold pairs. by rewrite <- list_fmap_compose.
  - intros j c Hc. rewrite H2 by done. unfold pairs.
    rewrite (last_filter_fmap (λ r, (receipt_idx r, matched_idx r))
               (λ p, p.2 = j)).
    cbn [snd]. by destruct (last _).
Qed.

(** X21. What colouring leaves alone.  No value of the catalogue sheet
    changes; a fill of the catalogue sheet changes only in the columns H to
    N of the row of a matched catalogue line; a fill of the order sheet
    changes only in the columns A to F of the row of a matched order line;
    and no value of the order sheet changes outside the columns H to N or
    in row 1. *)
Theorem colouring_changes_only_matched_rows (receipt_ws matched_ws : worksheet)
    (match_results : list MatchResult) (matched_df : dataframe)
    (out : worksheet * worksheet) (r c : nat) :
  run_colours receipt_ws matched_ws match_results matched_df = Some out →
  value_at out.2 r c = value_at matched_ws r c
  ∧ (fill_at out.2 r c ≠ fill_at matched_ws r c →
     (8 ≤ c ≤ 14)%nat
     ∧ ∃ mr, mr ∈ match_results ∧ r = (matched_idx mr + 2)%nat)
  ∧ (fill_at out.1 r c ≠ fill_at receipt_ws r c →
     (1 ≤ c ≤ 6)%nat
     ∧ ∃ mr, mr ∈ match_results ∧ r = (receipt_idx mr + 2)%nat)
  ∧ ((r < 2 ∨ c < 8 ∨ 14 < c)%nat →
     value_at out.1 r c = value_at receipt_ws r c).
Proof.
  unfold apply_colors_with_quantity_enhanced.
  destruct (configured_fill upper EXCEL_COLORS "cyan") as [cyan|]; [|done].
  destruct (configured_fill upper EXCEL_COLORS "yellow") as [yellow|];
    [|done].
  destruct (configured_fill upper EXCEL_COLORS "red") as [red|]; [|done].
  cbn [mbind option_bind]. intros [= <-]. cbn [fst snd].
  set (pairs := (λ r, (receipt_idx r, matched_idx r)) <$> match_results).
  destruct (colour_pairs_values upper prices_differ cyan yellow red pairs
              (receipt_ws, matched_ws) r c) as [Hv1 Hv2].
  destruct (colour_pairs_frame upper prices_differ cyan yellow red
              receipt_ws matched_ws pairs r c) as [Hf1 Hf2].
  destruct (update_match_info_outside
              (foldl (colour_pair upper prices_differ cyan yellow red)
                 (receipt_ws, matched_ws) pairs).1 pairs matched_df r c)
    as [Hu1 Hu2].
  cbn [fst snd] in *.
  assert (∀ P : nat * nat → Prop,
            (∃ p, p ∈ pairs ∧ P p) →
            ∃ mr, mr ∈ match_results ∧ P (receipt_idx mr, matched_idx mr))
    as Hback.
  { intros P (p & Hp & HP). unfold pairs in Hp.
    apply list_elem_of_fmap in Hp as (mr & -> & Hmr). eauto. }
  split_and!.
  - done.
  - intros H. destruct (Hf2 H) as [Hc Hp]. split; [done|].
    by apply (Hback (λ p, r = (p.2 + 2)%nat)).
  - rewrite Hu1. intros H. destruct (Hf1 H) as [Hc Hp]. split; [done|].
    by apply (Hback (λ p, r = (p.1 + 2)%nat)).
  - intros Ho. by rewrite Hu2, Hv1.
Qed.

(** X22. The price marks.  Column F of the row of an order line shows the
    last of its records whose prices could be compared: red when they
    differ, the colour of the row when they are equal; it keeps its fill
    when no record of the line could be compared.  Column N of the row of a
    catalogue line shows the last record that references it: red when its
    prices differ, the colour of the order line of that record otherwise,
    also when the comparison failed. *)
Theorem price_marks_show_last_record (receipt_ws matched_ws : worksheet)
    (match_results : list MatchResult) (matched_df : dataframe)
    (cyan yellow red : xfill) (out : worksheet * worksheet) :
  configured_fill upper EXCEL_COLORS "cyan" = Some cyan →
  configured_fill upper EXCEL_COLORS "yellow" = Some yellow →
  configured_fill upper EXCEL_COLORS "red" = Some red →
  run_colours receipt_ws matched_ws match_results matched_df = Some out →
  (∀ i,
     fill_at out.1 (i + 2) 6
     = match last (filter
                     (λ mr, receipt_idx mr = i
                            ∧ is_Some (prices_differ (receipt_idx mr)
                                         (matched_idx mr)))
                     match_results) with
       | Some mr =>
           if bool_decide (prices_differ (receipt_idx mr) (matched_idx mr)
                           = Some true)
           then red
           else order_colour upper cyan yellow receipt_ws (receipt_idx mr)
       | None => fill_at receipt_ws (i + 2) 6
       end)
  ∧ (∀ j,
       fill_at out.2 (j + 2) 14
       = match last (filter (λ mr, matched_idx mr = j) match_results) with
         | Some mr =>
             if bool_decide (prices_differ (receipt_idx mr) (matched_idx mr)
                             = Some true)
             then red
             else order_colour upper cyan yellow receipt_ws (receipt_idx mr)
         | None => fill_at matched_ws (j + 2) 14
         end).
Proof.
  intros Hcyan Hyellow Hred. unfold apply_colors_with_quantity_enhanced.
  rewrite Hcyan, Hyellow, Hred. cbn [mbind option_bind].
  intros [= <-]. cbn [fst snd].
  set (pairs := (λ r, (receipt_idx r, matched_idx r)) <$> match_results).
  destruct (colour_pairs_marks upper prices_differ cyan yellow red
              receipt_ws matched_ws pairs) as [H1 H2].
  split.
  - intros i.
    destruct (update_match_info_outside
                (foldl (colour_pair upper prices_differ cyan yellow red)
                   (receipt_ws, matched_ws) pairs).1 pairs matched_df
                (i + 2) 6) as [-> _].
    rewrite H1. unfold pairs.
    rewrite (last_filter_fmap (λ r, (receipt_idx r, matched_idx r))
               (λ p, p.1 = i ∧ is_Some (prices_differ p.1 p.2))).
    cbn [fst snd]. by destruct (last _).
  - intros j. rewrite H2. unfold pairs.
    rewrite (last_filter_fmap (λ r, (receipt_idx r, matched_idx r))
               (λ p, p.2 = j)).
    cbn [fst snd]. by destruct (last _).
Qed.

End ColouringTheorems.

Lemma colours_follow_column_G_witness :
  let out :=
    default (∅, ∅)
      (apply_colors_with_quantity_enhanced (fmap upper_char) default_colors
         (λ _ _, None) noted_sheet catalogue_sheet noted_records
         scenario_catalog) in
  (∀ i c, (1 ≤ c ≤ 5)%nat →
     fill_at out.1 (i + 2) c
     = if bool_decide (i ∈ receipt_idx <$> noted_records)
       then order_colour (fmap upper_char) (Solid (u "0000FFFF"))
              (Solid (u "00FFFF00")) noted_sheet i
       else fill_at noted_sheet (i + 2) c)
  ∧ (∀ j c, (8 ≤ c ≤ 13)%nat →
       fill_at out.2 (j + 2) c
       = match last (filter (λ mr, matched_idx mr = j) noted_records) with
         | Some mr =>
             order_colour (fmap upper_char) (Solid (u "0000FFFF"))
               (Solid (u "00FFFF00")) noted_sheet (receipt_idx mr)
         | None => fill_at catalogue_sheet (j + 2) c
         end).
Proof.
  apply (colours_follow_column_G (fmap upper_char) default_colors
           (λ _ _, None) noted_sheet catalogue_sheet noted_records
           scenario_catalog); vm_compute; reflexivity.
Defined.

Lemma colouring_changes_only_matched_rows_witness :
  let out :=
    default (∅, ∅)
      (apply_colors_with_quantity_enhanced (fmap upper_char) default_colors
         (λ _ _, Some true) noted_sheet catalogue_sheet noted_records
         scenario_catalog) in
  value_at out.2 2 1 = value_at catalogue_sheet 2 1
  ∧ (fill_at out.2 2 1 ≠ fill_at catalogue_sheet 2 1 →
     (8 ≤ 1 ≤ 14)%nat
     ∧ ∃ mr, mr ∈ noted_records ∧ 2%nat = (matched_idx mr + 2)%nat)
  ∧ (fill_at out.1 2 1 ≠ fill_at noted_sheet 2 1 →
     (1 ≤ 1 ≤ 6)%nat
     ∧ ∃ mr, mr ∈ noted_records ∧ 2%nat = (receipt_idx mr + 2)%nat)
  ∧ ((2 < 2 ∨ 1 < 8 ∨ 14 < 1)%nat →
     value_at out.1 2 1 = value_at noted_sheet 2 1).
Proof.
  apply (colouring_changes_only_matched_rows (fmap upper_char)
           default_colors (λ _ _, Some true) noted_sheet catalogue_sheet
           noted_records scenario_catalog).
  vm_compute. reflexivity.
Defined.

Lemma price_marks_show_last_record_witness :
  let out :=
    default (∅, ∅)
      (apply_colors_with_quantity_enhanced (fmap upper_char) default_colors
         (λ _ j, if (j =? 0)%nat then Some true else None) noted_sheet
         catalogue_sheet noted_records scenario_catalog) in
  fill_at out.1 2 6 = Solid (u "00FF0000")
  ∧ fill_at out.2 3 14 = Solid (u "0000FFFF").
Proof.
  intros out.
  destruct (price_marks_show_last_record (fmap upper_char) default_colors
              (λ _ j, if (j =? 0)%nat then Some true else None) noted_sheet
              catalogue_sheet noted_records scenario_catalog
              (Solid (u "0000FFFF")) (Solid (u "00FFFF00"))
              (Solid (u "00FF0000")) out) as [H1 H2];
    [vm_compute; reflexivity..|].
  split; (etrans; [first [exact (H1 0%nat) | exact (H2 1%nat)]|]);
    vm_compute; reflexivity.
Defined.

(** ** Upload filter *)

Lemma rsplit_last_None sep s : rsplit_last sep s = None ↔ sep ∉ s.
Proof.
  induction s as [|c s IH]; cbn.
  - split; [intros _; apply not_elem_of_nil | done].
  - destruct (rsplit_last sep s) as [[a b]|].
    + split; [done|]. intros H. exfalso.
      assert (sep ∉ s) as Hs by (intros ?; apply H; by right).
      by apply IH in Hs.
    + destruct (c =? sep)%N eqn:E.
      * apply N.eqb_eq in E as ->. split; [done|]. intros H. exfalso.
        apply H. by left.
      * apply N.eqb_neq in E. split; [|done]. intros _ H.
        apply elem_of_cons in H as [->|H]; [done|].
        by apply (proj1 IH).
Qed.

Lemma rsplit_last_Some sep s a b :
  rsplit_last sep s = Some (a, b) ↔ s = a ++ sep :: b ∧ sep ∉ b.
Proof.
  revert a. induction s as [|c s IH]; intros a.
  - cbn. split; [done|]. intros [H _]. by destruct a.
  - cbn [rsplit_last]. destruct (rsplit_last sep s) as [[a' b']|] eqn:E.
    + split.
      * intros [= <- <-]. destruct (proj1 (IH a') eq_refl) as [-> Hb]. done.
      * intros [H Hb]. destruct a as [|c' a]; simplify_eq/=.
        -- apply rsplit_last_None in Hb. congruence.
        -- pose proof (proj2 (IH a) (conj eq_refl Hb)) as Heq.
           by simplify_eq.
    + apply rsplit_last_None in E. destruct (c =? sep)%N eqn:Ec.
      * apply N.eqb_eq in Ec as ->. split.
        -- by intros [= <- <-].
        -- intros [H Hb]. destruct a as [|c' a]; simplify_eq/=; [done|].
           exfalso. apply E. apply elem_of_app. right. by left.
      * apply N.eqb_neq in Ec. split; [done|]. intros [H Hb].
        destruct a as [|c' a]; simplify_eq/=.
        exfalso. apply E. apply elem_of_app. right. by left.
Qed.

(** X23. [allowed_file] accepts a file name exactly when the text after its
    last dot is [xlsx] or [xls] once lower-cased: a name without a dot is
    refused, and only the last extension counts. *)
Theorem allowed_file_last_extension {R : Runtime} (filename : ustr) :
  allowed_file filename = true
  ↔ ∃ stem ext,
      filename = stem ++ 46%N :: ext ∧ (46%N ∉ ext)
      ∧ (lower ext = u "xlsx" ∨ lower ext = u "xls").
Proof.
  unfold allowed_file, rsplit1, ALLOWED_EXTENSIONS.
  rewrite andb_true_iff, bool_decide_eq_true. split.
  - intros [Hdot H].
    destruct (rsplit_last 46 filename) as [[a b]|] eqn:E; [|done]. cbn in H.
    apply bool_decide_eq_true_1 in H.
    apply rsplit_last_Some in E as [-> Hb]. exists a, b. split_and!; [done..|].
    apply elem_of_union in H as [H|H]; apply elem_of_singleton in H; auto.
  - intros (stem & ext & -> & Hext & Hl). split.
    + apply elem_of_app. right. by left.
    + rewrite (proj2 (rsplit_last_Some 46 _ stem ext)) by done. cbn.
      apply bool_decide_eq_true_2. apply elem_of_union.
      destruct Hl as [->| ->]; [left|right]; by apply elem_of_singleton.
Qed.

(** ** Variant lists *)

Lemma split_on_no_sep sep cur v rest :
  sep ∉ v → split_on sep cur (v ++ rest) = split_on sep (cur ++ v) rest.
Proof.
  revert cur. induction v as [|c v IH]; intros cur Hv.
  - by rewrite app_nil_r.
  - cbn. rewrite (proj2 (N.eqb_neq c sep)).
    + rewrite IH, <- app_assoc; [done|]. intros H. apply Hv. by right.
    + intros ->. apply Hv. by left.
Qed.

Lemma split_on_show v l cur :
  Forall plain_variant (v :: l) →
  split_on 44 cur (show_variants (v :: l))
  = (cur ++ v) :: ((λ w, 32%N :: w) <$> l).
Proof.
  revert v cur. induction l as [|w l IH]; intros v cur Hall.
  - apply Forall_singleton in Hall as (_ & _ & Hc). cbn.
    rewrite <- (app_nil_r v) at 1. by rewrite split_on_no_sep.
  - apply Forall_cons in Hall as [(_ & _ & Hc) Hall].
    change (show_variants (v :: w :: l))
      with (v ++ 44%N :: 32%N :: show_variants (w :: l)).
    rewrite split_on_no_sep by done. cbn [split_on].
    change (44 =? 44)%N with true. cbn [split_on].
    change (32 =? 44)%N with false. cbn iota. cbn [app].
    rewrite (IH w [32%N]) by done. done.
Qed.

Lemma strip_after_space w : plain_variant w → strip (32%N :: w) = w.
Proof.
  intros (Hne & Hst & _). unfold strip. cbn [lstrip].
  change (is_space 32) with true. cbn iota.
  pose proof (strip_fixed_head w Hst) as Hh.
  destruct w as [|c w]; [done|]. cbn [lstrip]. rewrite Hh.
  by apply strip_fixed_rstrip.
Qed.

Lemma elem_of_lstrip x s : x ∈ lstrip s → x ∈ s.
Proof.
  induction s as [|c s IH]; [done|]. cbn. destruct (is_space c); [|done].
  intros H. right. by apply IH.
Qed.

Lemma elem_of_rstrip x s : x ∈ rstrip s → x ∈ s.
Proof.
  induction s as [|c s IH]; [done|]. cbn.
  destruct (is_space c && _).
  - intros H. by apply not_elem_of_nil in H.
  - intros H. apply elem_of_cons in H as [->|H]; [by left|].
    right. by apply IH.
Qed.

Lemma split_on_pieces sep cur s piece :
  sep ∉ cur → piece ∈ split_on sep cur s → sep ∉ piece.
Proof.
  revert cur. induction s as [|c s IH]; intros cur Hcur; cbn.
  - intros H. by apply list_elem_of_singleton in H as ->.
  - destruct (c =? sep)%N eqn:E.
    + intros H. apply elem_of_cons in H as [->|H]; [done|].
      apply (IH []); [apply not_elem_of_nil | done].
    + apply N.eqb_neq in E. apply IH. intros H.
      apply elem_of_app in H as [H|H]; [done|].
      by apply list_elem_of_singleton in H.
Qed.

(** X24. The variant lists of the configuration page survive being shown
    and read back.  What the page reads from an input field is always a
    list of plain variants (not empty, no comma, no whitespace at either
    end), and a list of plain variants shown as text and read back is the
    same list: a group the user does not edit is stored unchanged. *)
Theorem variants_round_trip :
  (∀ new_values, Forall plain_variant (parse_variants new_values))
  ∧ (∀ values, Forall plain_variant values →
       parse_variants (show_variants values) = values).
Proof.
  split.
  - intros s. apply Forall_forall. intros v Hv.
    unfold parse_variants in Hv.
    apply list_elem_of_omap in Hv as (piece & Hp & Hv). cbv zeta in Hv.
    destruct (strip piece) as [|c t] eqn:E; [done|].
    injection Hv as <-. rewrite <- E. split_and!.
    + by rewrite E.
    + apply strip_idem.
    + intros H. unfold strip in H. apply elem_of_rstrip, elem_of_lstrip in H.
      revert H. eapply split_on_pieces; [|exact Hp]. apply not_elem_of_nil.
  - intros values Hall. unfold parse_variants.
    destruct values as [|v l]; [done|].
    rewrite split_on_show by done. cbn [app omap list_omap].
    apply Forall_cons in Hall as [(Hne & Hst & Hc) Hall]. rewrite Hst.
    destruct v as [|c v]; [done|]. cbn [nonempty]. f_equal.
    induction Hall as [|w l Hw _ IH]; [done|].
    rewrite fmap_cons. cbn [omap list_omap]. cbv zeta.
    rewrite (strip_after_space w Hw).
    destruct Hw as (Hwne & _). destruct w as [|c' w]; [done|].
    cbn [nonempty]. by f_equal.
Qed.

Lemma variants_round_trip_witness :
  parse_variants (show_variants [u "jk"; [51116; 53431]%N; [51144; 53011]%N])
  = [u "jk"; [51116; 53431]%N; [51144; 53011]%N].
Proof.
  apply (proj2 variants_round_trip).
  repeat apply Forall_cons_2; try apply Forall_nil_2;
    (unfold plain_variant; split_and!; [done | vm_compute; reflexivity
                 | apply (bool_decide_unpack _); vm_compute; exact I]).
Defined.

(** ** From the sheets to the saved order sheet *)

Section Processing.
Context {R : Runtime}.
Variable cfg : config.
Variable upper : ustr → ustr.
Variable EXCEL_COLORS : gmap string ustr.
Variable prices_differ : nat → nat → option bool.

Lemma run_pairs_recordable receipt_df matched_df match_results :
  printable matched_df →
  fuzzy_match_orders_blocked cfg receipt_df matched_df = Some match_results
  ∨ fuzzy_match_orders_perfect_sequential cfg receipt_df matched_df
    = Some match_results →
  Forall (recordable (rows matched_df)) (pairs_of match_results).
Proof.
  intros Hprint Hrun. unfold pairs_of. apply Forall_fmap.
  assert (Forall (λ mr, is_Some (rows matched_df !! matched_idx mr))
            match_results) as Hlabels.
  { destruct Hrun as [H|H].
    - apply blocked_scored_pairs in H. eapply Forall_impl; [exact H|].
      intros mr (r & m & _ & Hm & _). eauto.
    - apply sequential_scored in H. eapply Forall_impl; [exact H|].
      intros mr (r & m & _ & Hm & _). eauto. }
  eapply Forall_impl; [exact Hlabels|]. intros mr [m Hm]. exists m.
  split; [done|]. unfold printable in Hprint. rewrite Forall_forall in Hprint.
  apply Hprint. by eapply list_elem_of_lookup_2.
Qed.

(** X25. From the sheets to the saved order sheet.  When
    [process_excel_perfect_solution] returns, the count it returns is the
    number of records, and, the summaries of the catalogue holding no
    control character, the saved order sheet shows the records of the run:
    for every order line, column H of its row holds the summary of the
    first catalogue line matched with it and the columns I to N the sheet
    rows of the first six, in the order of the records; no [KeyError] cuts
    the recording short, since every record names a line of the
    catalogue. *)
Theorem processed_order_sheet_shows_the_records
    (receipt_df matched_df : dataframe) (receipt_ws matched_ws : worksheet)
    (use_fast : bool) (n : nat) (match_results : list MatchResult)
    (saved : worksheet * worksheet) :
  printable matched_df →
  process_excel_perfect_solution cfg upper EXCEL_COLORS prices_differ
    receipt_df matched_df receipt_ws matched_ws use_fast
  = Some (n, match_results, saved) →
  n = length match_results
  ∧ (∀ i, value_at saved.1 (i + 2) 8
          = summary_cell (rows matched_df)
              (lines_of (pairs_of match_results) i))
  ∧ (∀ i k, (k < 6)%nat →
       value_at saved.1 (i + 2) (9 + k)
       = row_number_cell (lines_of (pairs_of match_results) i) k).
Proof.
  intros Hprint. unfold process_excel_perfect_solution.
  destruct (if use_fast then _ else _) as [results|] eqn:Hrun; [|done].
  cbn [mbind option_bind].
  destruct (apply_colors_with_quantity_enhanced _ _ _ _ _ _ _)
    as [sheets|] eqn:Hcol; [|done].
  cbn [mbind option_bind]. intros [= <- <- <-]. split; [done|].
  assert (Forall (recordable (rows matched_df)) (pairs_of results)) as Hrec.
  { apply (run_pairs_recordable receipt_df); [done|].
    destruct use_fast; auto. }
  unfold apply_colors_with_quantity_enhanced in Hcol.
  destruct (configured_fill upper EXCEL_COLORS "cyan") as [cyan|]; [|done].
  destruct (configured_fill upper EXCEL_COLORS "yellow") as [yellow|];
    [|done].
  destruct (configured_fill upper EXCEL_COLORS "red") as [red|]; [|done].
  cbn [mbind option_bind] in Hcol. injection Hcol as <-. cbn [fst].
  fold (pairs_of results).
  destruct (update_match_info_recorded
              (foldl (colour_pair upper prices_differ cyan yellow red)
                 (receipt_ws, matched_ws) (pairs_of results)).1
              (pairs_of results) matched_df Hrec) as (H1 & H2 & _).
  done.
Qed.

End Processing.

Lemma processed_order_sheet_shows_the_records_witness :
  let out :=
    default (0%nat, [], (∅, ∅))
      (process_excel_perfect_solution (R := reference_runtime)
         default_config (fmap upper_char) default_colors (λ _ _, None)
         scenario_order scenario_catalog noted_sheet catalogue_sheet true) in
  out.1.1 = length out.1.2
  ∧ (∀ i, value_at out.2.1 (i + 2) 8
          = summary_cell (rows scenario_catalog)
              (lines_of (pairs_of out.1.2) i))
  ∧ (∀ i k, (k < 6)%nat →
       value_at out.2.1 (i + 2) (9 + k)
       = row_number_cell (lines_of (pairs_of out.1.2) i) k).
Proof.
  apply (processed_order_sheet_shows_the_records (R := reference_runtime)
           default_config (fmap upper_char) default_colors (λ _ _, None)
           scenario_order scenario_catalog noted_sheet catalogue_sheet true).
  - repeat constructor; vm_compute; eauto.
  - vm_compute. reflexivity.
Defined.

(** ** The records of an order line come best first *)

Lemma StronglySorted_weaken {A} (P Q : A → A → Prop) (l : list A) :
  (∀ x y, P x y → Q x y) → StronglySorted P l → StronglySorted Q l.
Proof.
  intros HPQ Hs. induction Hs as [|x l _ IH Hx]; constructor; [done|].
  eapply Forall_impl; [exact Hx|]. auto.
Qed.

Lemma StronglySorted_any {A} (l : list A) : StronglySorted (λ _ _, True) l.
Proof. induction l; constructor; [done|]. by apply Forall_true. Qed.

Lemma StronglySorted_replicate {A} (P : A → A → Prop) (n : nat) (x : A) :
  P x x → StronglySorted P (replicate n x).
Proof.
  intros Hx. induction n as [|n IH]; cbn; constructor; [done|].
  apply Forall_replicate. done.
Qed.

Lemma StronglySorted_lookup_lt {A} (P : A → A → Prop) (l : list A)
    k1 k2 a b :
  StronglySorted P l → (k1 < k2)%nat → l !! k1 = Some a → l !! k2 = Some b →
  P a b.
Proof.
  intros Hs. revert k1 k2. induction Hs as [|x l Hs IH Hx]; intros k1 k2;
    [done|].
  destruct k1 as [|k1], k2 as [|k2]; cbn; intros Hlt H1 H2; try lia.
  - injection H1 as <-. rewrite Forall_forall in Hx. apply Hx.
    by eapply list_elem_of_lookup_2.
  - eapply (IH k1 k2); [lia|done..].
Qed.

(** The allocation loop emits its records in the order of the list it is
    given. *)
Lemma allocate_emits_in_order (tie : nat → nat → Prop) r_idx
    (cands : list scored_candidate) remain st :
  (∀ j, tie j j) →
  StronglySorted
    (desc_then conf_of (λ x y : scored_candidate, tie x.1.1 y.1.1)) cands →
  ∃ new,
    matched_results (allocate r_idx cands remain st)
    = matched_results st ++ new
    ∧ Forall (λ mr, receipt_idx mr = r_idx) new
    ∧ Forall (λ mr, ∃ x : scored_candidate,
                x ∈ cands ∧ matched_idx mr = x.1.1
                ∧ confidence_score mr = conf_of x) new
    ∧ StronglySorted (consumed_before tie) new.
Proof.
  intros Hrefl Hs. revert remain st.
  induction Hs as [|[[m_idx conf] det] rest Hs IH Hx]; intros remain st.
  - exists []. rewrite app_nil_r. split_and!; [done| | |]; constructor.
  - cbn [allocate]. destruct (remain <=? 0).
    { exists []. rewrite app_nil_r. split_and!; [done| | |]; constructor. }
    destruct (_ <=? 0).
    { destruct (IH remain st) as (new & Hnew & Hi & Hfrom & Hsorted).
      exists new. split_and!; [done..| |done].
      eapply Forall_impl; [exact Hfrom|]. intros mr (x & Hin & Hm & Hc).
      exists x. split; [by right|done]. }
    edestruct IH as (new & -> & Hi & Hfrom & Hsorted). cbn [matched_results].
    eexists. rewrite <- app_assoc. split; [done|]. split_and!.
    + apply Forall_app. split; [|done]. by apply Forall_replicate.
    + apply Forall_app. split.
      * apply Forall_replicate. exists (m_idx, conf, det).
        split; [by left|done].
      * eapply Forall_impl; [exact Hfrom|]. intros mr (x & Hin & Hm & Hc).
        exists x. split; [by right|done].
    + apply StronglySorted_app_2.
      * intros a b Ha Hb. apply elem_of_replicate in Ha as [-> _].
        rewrite Forall_forall in Hfrom. rewrite Forall_forall in Hx.
        destruct (Hfrom _ Hb) as (x & Hin & Hm & Hc).
        destruct (Hx _ Hin) as [Hle Htie]. unfold consumed_before.
        cbn [confidence_score matched_idx]. rewrite Hm, Hc. split; [done|].
        intros Heq. by apply Htie.
      * apply StronglySorted_replicate. split; [apply Qle_refl|].
        intros _. apply Hrefl.
      * done.
Qed.

Section ConsumptionOfRecords.
Context {R : Runtime}.
Variable cfg : config.

Lemma sequential_step_in_order M st i r_row :
  ∃ new,
    matched_results (sequential_step cfg M st (i, r_row))
    = matched_results st ++ new
    ∧ Forall (λ mr, receipt_idx mr = i) new
    ∧ StronglySorted (consumed_before le) new.
Proof.
  unfold sequential_step. cbv zeta. destruct (_ <=? 0).
  { exists []. rewrite app_nil_r. split_and!; [done| |]; constructor. }
  edestruct (allocate_emits_in_order le) as (new & H1 & H2 & _ & H3);
    [lia| |exists new; split_and!; [exact H1|exact H2|exact H3]].
  eapply StronglySorted_weaken;
    [|apply sort_desc_sorted, sequential_candidates_increasing].
  intros x y [Hle Htie]. split; [done|]. intros Heq.
  specialize (Htie Heq). lia.
Qed.

Lemma blocked_step_in_order M ix st i r_row :
  ∃ new,
    matched_results (blocked_step cfg M ix st (i, r_row))
    = matched_results st ++ new
    ∧ Forall (λ mr, receipt_idx mr = i) new
    ∧ StronglySorted (consumed_before (λ _ _, True)) new.
Proof.
  assert (∃ new, matched_results st = matched_results st ++ new
                 ∧ Forall (λ mr, receipt_idx mr = i) new
                 ∧ StronglySorted (consumed_before (λ _ _, True)) new)
    as Hsame.
  { exists []. rewrite app_nil_r. split_and!; [done| |]; constructor. }
  unfold blocked_step. cbv zeta. destruct (_ <=? 0); [done|].
  destruct (negb _); [done|]. destruct (negb _); [done|].
  destruct (nonempty _); [|done].
  edestruct (allocate_emits_in_order (λ _ _, True))
    as (new & H1 & H2 & _ & H3);
    [done| |exists new; split_and!; [exact H1|exact H2|exact H3]].
  apply sort_desc_sorted, StronglySorted_any.
Qed.

End ConsumptionOfRecords.

Lemma foldl_enumerate_ordered {A} (P : MatchResult → MatchResult → Prop)
    (step : run_state → nat * A → run_state) (l : list A)
    (st0 : run_state) :
  (∀ st i x, ∃ new,
     matched_results (step st (i, x)) = matched_results st ++ new
     ∧ Forall (λ mr, receipt_idx mr = i) new
     ∧ StronglySorted P new) →
  matched_results st0 = [] →
  StronglySorted
    (λ a b, (receipt_idx a < receipt_idx b)%nat
            ∨ (receipt_idx a = receipt_idx b ∧ P a b))
    (matched_results (foldl step st0 (enumerate l)))
  ∧ Forall (λ mr, (receipt_idx mr < length l)%nat)
      (matched_results (foldl step st0 (enumerate l))).
Proof.
  intros Hstep H0. induction l as [|x l IH] using rev_ind.
  - cbn. rewrite H0. split; constructor.
  - rewrite enumerate_snoc, foldl_snoc.
    destruct (Hstep (foldl step st0 (enumerate l)) (length l) x)
      as (new & -> & Hnew & Hsorted).
    destruct IH as [Hs Hb]. rewrite length_app. cbn. split.
    + apply StronglySorted_app_2.
      * intros a b Ha Hb'. rewrite Forall_forall in Hb.
        rewrite Forall_forall in Hnew.
        specialize (Hb _ Ha). specialize (Hnew _ Hb'). left. lia.
      * done.
      * clear -Hnew Hsorted.
        induction Hsorted as [|mr new Hsorted IH Hmr]; [constructor|].
        apply Forall_cons in Hnew as [Hi Hnew].
        constructor; [by apply IH|].
        rewrite Forall_forall in Hmr. rewrite Forall_forall in Hnew.
        apply Forall_forall.
        intros mr' Hin. right. split; [|by apply Hmr].
        rewrite Hi. symmetry. by apply Hnew.
    + apply Forall_app. split.
      * eapply Forall_impl; [exact Hb|]. cbn. lia.
      * eapply Forall_impl; [exact Hnew|]. cbn. lia.
Qed.

Section OrderOfRecords.
Context {R : Runtime}.
Variable cfg : config.

Lemma sequential_emitted_in_order receipt_df matched_df results :
  fuzzy_match_orders_perfect_sequential cfg receipt_df matched_df
  = Some results →
  StronglySorted (emitted_before le) results.
Proof.
  intros H. unfold fuzzy_match_orders_perfect_sequential in H.
  destruct (quantities receipt_df), (quantities matched_df); try done.
  cbn in H. injection H as <-.
  apply (foldl_enumerate_ordered (consumed_before le)); [|done].
  intros st i x. apply sequential_step_in_order.
Qed.

Lemma blocked_emitted_in_order receipt_df matched_df results :
  fuzzy_match_orders_blocked cfg receipt_df matched_df = Some results →
  StronglySorted (emitted_before (λ _ _, True)) results.
Proof.
  intros H. unfold fuzzy_match_orders_blocked in H.
  destruct (quantities receipt_df), (quantities matched_df); try done.
  cbn in H. injection H as <-.
  apply (foldl_enumerate_ordered (consumed_before (λ _ _, True))); [|done].
  intros st i x. apply blocked_step_in_order.
Qed.

Lemma emitted_before_same_line tie (a b : MatchResult) :
  emitted_before tie a b → receipt_idx a = receipt_idx b →
  consumed_before tie a b.
Proof. intros [Hlt|[_ H]] Heq; [lia|done]. Qed.

(** X27. The records of one order line come best first.  In the list
    either matcher returns, of two records of the same order line the
    later one never has the higher confidence; in the list of the slow
    matcher two such records of equal confidence come in catalogue order,
    the later one having the same or a larger catalogue label. *)
Theorem records_consumed_by_confidence receipt_df matched_df results
    k1 k2 mr1 mr2 :
  fuzzy_match_orders_blocked cfg receipt_df matched_df = Some results
  ∨ fuzzy_match_orders_perfect_sequential cfg receipt_df matched_df
    = Some results →
  (k1 ≤ k2)%nat → results !! k1 = Some mr1 → results !! k2 = Some mr2 →
  receipt_idx mr1 = receipt_idx mr2 →
  (confidence_score mr2 <= confidence_score mr1)%Q
  ∧ (fuzzy_match_orders_perfect_sequential cfg receipt_df matched_df
     = Some results →
     (confidence_score mr1 == confidence_score mr2)%Q →
     (matched_idx mr1 ≤ matched_idx mr2)%nat).
Proof.
  intros Hrun Hle H1 H2 Hline.
  destruct (decide (k1 = k2)) as [->|Hne].
  { assert (mr1 = mr2) as -> by congruence. split; [apply Qle_refl|done]. }
  assert (k1 < k2)%nat as Hlt by lia. split.
  - destruct Hrun as [Hrun|Hrun].
    + apply blocked_emitted_in_order in Hrun.
      pose proof (StronglySorted_lookup_lt _ _ _ _ _ _ Hrun Hlt H1 H2) as Hb.
      by destruct (emitted_before_same_line _ _ _ Hb Hline).
    + apply sequential_emitted_in_order in Hrun.
      pose proof (StronglySorted_lookup_lt _ _ _ _ _ _ Hrun Hlt H1 H2) as Hb.
      by destruct (emitted_before_same_line _ _ _ Hb Hline).
  - intros Hseq Heq. apply sequential_emitted_in_order in Hseq.
    pose proof (StronglySorted_lookup_lt _ _ _ _ _ _ Hseq Hlt H1 H2) as Hb.
    destruct (emitted_before_same_line _ _ _ Hb Hline) as [_ Htie].
    by apply Htie.
Qed.

End OrderOfRecords.

Lemma records_consumed_by_confidence_witness :
  let results :=
    default [] (fuzzy_match_orders_perfect_sequential
                  (R := reference_runtime) default_config ranked_order
                  ranked_catalog) in
  ∃ mr1 mr2,
    results !! 0%nat = Some mr1 ∧ results !! 1%nat = Some mr2
    ∧ matched_idx mr1 = 1%nat ∧ matched_idx mr2 = 0%nat
    ∧ (confidence_score mr2 <= confidence_score mr1)%Q.
Proof.
  intros results. eexists _, _.
  split; [vm_compute; reflexivity|]. split; [vm_compute; reflexivity|].
  split; [reflexivity|]. split; [reflexivity|].
  refine (proj1 (records_consumed_by_confidence (R := reference_runtime)
                   default_config ranked_order ranked_catalog results
                   0%nat 1%nat _ _ _ _ _ _ _));
    first [ lia | right; vm_compute; reflexivity | vm_compute; reflexivity ].
Defined.

(** ** The slow matcher and the iteration order of sets *)

(** X28. The slow matcher does not depend on the order in which Python
    visits a set: two environments that differ only in the iteration order
    of sets give the same records, or the same failure. *)
Theorem slow_matcher_independent_of_iteration_order (R : Runtime)
    (cfg : config) (iter' : gset ustr → list ustr)
    (receipt_df matched_df : dataframe) :
  enumerates_sets set_iter → enumerates_sets iter' →
  fuzzy_match_orders_perfect_sequential (R := with_iter R iter') cfg
    receipt_df matched_df
  = fuzzy_match_orders_perfect_sequential cfg receipt_df matched_df.
Proof. intros Hiter Hiter'. by apply sequential_with_iter. Qed.

Lemma slow_matcher_independent_of_iteration_order_witness :
  fuzzy_match_orders_perfect_sequential
    (R := with_iter reference_runtime (λ X, reverse (elements X)))
    default_config tie_order tie_catalog
  = fuzzy_match_orders_perfect_sequential (R := reference_runtime)
      default_config tie_order tie_catalog.
Proof.
  apply (slow_matcher_independent_of_iteration_order reference_runtime).
  - apply reference_iter_enumerates.
  - apply reversed_iter_enumerates.
Defined.
